(** * Verification of ClickHouse's WHERE-constraints optimizer and of
      the integer text writer

    Two source files are embedded:
    - [dbms/include/DB/IO/WriteHelpers.h]   (modules [WriteHelpers] and
      [WriteText]),
    - [src/Interpreters/WhereConstraintsOptimizer.cpp]. *)

From Stdlib Require Import ZArith NArith List Ascii String Lia Bool Permutation.
From Stdlib Require Import DecimalString DecimalPos DecimalN DecimalZ.
Import ListNotations.

(* ===================================================================== *)
(** * Part I: [writeIntText] of WriteHelpers.h                            *)
(* ===================================================================== *)

Module WriteHelpers.

Local Open Scope Z_scope.

(** The template parameter [T]: an integer type is its [sizeof] and its
    signedness. *)
Record IntType : Set := { sizeof : Z; is_signed : bool }.

Definition UInt8  : IntType := {| sizeof := 1; is_signed := false |}.
Definition UInt16 : IntType := {| sizeof := 2; is_signed := false |}.
Definition UInt32 : IntType := {| sizeof := 4; is_signed := false |}.
Definition UInt64 : IntType := {| sizeof := 8; is_signed := false |}.
Definition Int8   : IntType := {| sizeof := 1; is_signed := true |}.
Definition Int16  : IntType := {| sizeof := 2; is_signed := true |}.
Definition Int32  : IntType := {| sizeof := 4; is_signed := true |}.
Definition Int64  : IntType := {| sizeof := 8; is_signed := true |}.

(** The widths [writeText] and [writeQuoted] instantiate the template at. *)
Definition supported (T : IntType) : Prop :=
  sizeof T = 1 \/ sizeof T = 2 \/ sizeof T = 4 \/ sizeof T = 8.

Definition bits (T : IntType) : Z := 8 * sizeof T.

Definition min_value (T : IntType) : Z :=
  if is_signed T then - 2 ^ (bits T - 1) else 0.

Definition max_value (T : IntType) : Z :=
  if is_signed T then 2 ^ (bits T - 1) - 1 else 2 ^ bits T - 1.

Definition in_range (T : IntType) (x : Z) : Prop :=
  min_value T <= x <= max_value T.

(** Conversion of a mathematical integer to [T]: two's complement
    wrap-around. *)
Definition wrap (T : IntType) (z : Z) : Z :=
  if is_signed T
  then (z + 2 ^ (bits T - 1)) mod 2 ^ bits T - 2 ^ (bits T - 1)
  else z mod 2 ^ bits T.

(** [#define WRITE_HELPERS_MAX_INT_WIDTH 20U] *)
Definition WRITE_HELPERS_MAX_INT_WIDTH : Z := 20.

(** A [WriteBuffer] is the sequence of bytes written so far. *)
Definition WriteBuffer : Set := list ascii.

(** [writeChar(x, buf)] *)
Definition writeChar (x : ascii) (buf : WriteBuffer) : WriteBuffer :=
  buf ++ [x].

(** [buf.write(from, n)]: appends [n] bytes starting at [from]. *)
Definition write (from : list ascii) (n : Z) (buf : WriteBuffer) : WriteBuffer :=
  buf ++ firstn (Z.to_nat n) from.

(** Conversion of an [int] to [char]. *)
Definition char_of_int (z : Z) : ascii := ascii_of_N (Z.to_N (z mod 256)).

(** [*pos = c] for [pos = tmp + i]: defined only inside the array. *)
Definition store (tmp : list ascii) (i : Z) (c : ascii) : option (list ascii) :=
  if (0 <=? i) && (i <? Z.of_nat (List.length tmp))
  then Some (firstn (Z.to_nat i) tmp ++ c :: skipn (S (Z.to_nat i)) tmp)
  else None.

(** The loop
    [for (pos = tmp + WIDTH - 1; x != 0; --pos) { *pos = '0' + x % 10; x /= 10; }]
    with [pos] as an index into [tmp].  C's [%] and [/] truncate
    ([Z.rem], [Z.quot]); the quotient is converted back to [T].  Every
    iteration writes a slot of its own, so [fuel] bounds the iterations by
    the size of the array. *)
Fixpoint digits_loop (fuel : nat) (T : IntType) (tmp : list ascii) (pos x : Z)
  : option (list ascii * Z) :=
  if x =? 0 then Some (tmp, pos)
  else match fuel with
       | O => None
       | S fuel' =>
           match store tmp pos (char_of_int (48 + Z.rem x 10)) with
           | None => None
           | Some tmp' => digits_loop fuel' T tmp' (pos - 1) (wrap T (Z.quot x 10))
           end
       end.

(** [sizeof(x) == 1 ? "-128" : ...], the text of the smallest value. *)
Definition min_text (T : IntType) : list ascii * Z :=
  if sizeof T =? 1 then (list_ascii_of_string "-128", 4)
  else if sizeof T =? 2 then (list_ascii_of_string "-32768", 6)
  else if sizeof T =? 4 then (list_ascii_of_string "-2147483648", 11)
  else (list_ascii_of_string "-9223372036854775808", 20).

(** [template <typename T> void writeIntText(T x, WriteBuffer & buf)].
    [tmp] is the content of the uninitialised local array.  [None] stands
    for an access outside [tmp]. *)
Definition writeIntText (T : IntType) (x : Z) (tmp : list ascii) (buf : WriteBuffer)
  : option WriteBuffer :=
  if x =? 0 then Some (writeChar "0"%char buf)
  else
    let x1 := if x <? 0 then wrap T (- x) else x in
    let negative := x <? 0 in
    if negative && (x1 <? 0)
    then Some (write (fst (min_text T)) (snd (min_text T)) buf)
    else
      match digits_loop (Z.to_nat WRITE_HELPERS_MAX_INT_WIDTH) T tmp
                        (WRITE_HELPERS_MAX_INT_WIDTH - 1) x1 with
      | None => None
      | Some (tmp1, pos) =>
          if negative
          then match store tmp1 pos "-"%char with
               | None => None
               | Some tmp2 =>
                   Some (write (skipn (Z.to_nat pos) tmp2)
                               (WRITE_HELPERS_MAX_INT_WIDTH - pos) buf)
               end
          else Some (write (skipn (Z.to_nat (pos + 1)) tmp1)
                           (WRITE_HELPERS_MAX_INT_WIDTH - (pos + 1)) buf)
      end.

(** The decimal numeral of an integer, as the Standard Library prints it:
    ["0"] for zero, no leading zeros, a leading ["-"] for negatives. *)
Definition decimal_numeral (x : Z) : list ascii :=
  list_ascii_of_string (NilZero.string_of_int (Z.to_int x)).

(** The [k]-th decimal digit in front of a numeral. *)
Definition digit_cons (k : Z) (u : Decimal.uint) : Decimal.uint :=
  match k with
  | 0 => Decimal.D0 u | 1 => Decimal.D1 u | 2 => Decimal.D2 u
  | 3 => Decimal.D3 u | 4 => Decimal.D4 u | 5 => Decimal.D5 u
  | 6 => Decimal.D6 u | 7 => Decimal.D7 u | 8 => Decimal.D8 u
  | _ => Decimal.D9 u
  end.

(** The digits the loop meets, least significant first. *)
Fixpoint little_digits (fuel : nat) (x : Z) : Decimal.uint :=
  if x =? 0 then Decimal.Nil
  else match fuel with
       | O => Decimal.Nil
       | S fuel' => digit_cons (x mod 10) (little_digits fuel' (x / 10))
       end.

Definition chars (u : Decimal.uint) : list ascii :=
  list_ascii_of_string (NilEmpty.string_of_uint u).

(** ** Properties of [writeIntText] *)

Lemma bits_supported (T : IntType) :
  supported T -> bits T = 8 \/ bits T = 16 \/ bits T = 32 \/ bits T = 64.
Proof. unfold supported, bits. lia. Qed.

Lemma wrap_in_range (T : IntType) (z : Z) :
  supported T -> in_range T z -> wrap T z = z.
Proof.
  intros HT. apply bits_supported in HT.
  unfold in_range, min_value, max_value, wrap.
  destruct (is_signed T); intros Hz.
  - assert (E : 2 ^ bits T = 2 * 2 ^ (bits T - 1)).
    { rewrite <- Z.pow_succ_r by lia. f_equal. lia. }
    rewrite Z.mod_small; lia.
  - rewrite Z.mod_small; lia.
Qed.

Lemma max_value_bound (T : IntType) :
  supported T -> max_value T < 10 ^ 20 /\ (is_signed T = true -> max_value T < 10 ^ 19).
Proof.
  intros HT. apply bits_supported in HT. unfold max_value.
  destruct (is_signed T); split; try discriminate; intros;
    destruct HT as [E | [E | [E | E]]]; rewrite E; reflexivity.
Qed.

Lemma char_of_digit (k : Z) (u : Decimal.uint) :
  0 <= k < 10 ->
  chars (digit_cons k u) = char_of_int (48 + k) :: chars u.
Proof.
  intros Hk.
  assert (C : k = 0 \/ k = 1 \/ k = 2 \/ k = 3 \/ k = 4 \/ k = 5 \/ k = 6
              \/ k = 7 \/ k = 8 \/ k = 9) by lia.
  repeat (destruct C as [-> | C]; [reflexivity | ]). subst k. reflexivity.
Qed.

Lemma store_spec (tmp : list ascii) (i : Z) (c : ascii) :
  0 <= i < Z.of_nat (List.length tmp) ->
  exists tmp', store tmp i c = Some tmp'
    /\ List.length tmp' = List.length tmp
    /\ skipn (Z.to_nat i) tmp' = c :: skipn (Z.to_nat (i + 1)) tmp.
Proof.
  intros Hi. unfold store.
  replace ((0 <=? i) && (i <? Z.of_nat (List.length tmp))) with true
    by (symmetry; apply andb_true_iff; split; [apply Z.leb_le | apply Z.ltb_lt]; lia).
  eexists; split; [reflexivity | ].
  assert (L : List.length (firstn (Z.to_nat i) tmp) = Z.to_nat i)
    by (apply firstn_length_le; lia).
  split.
  - rewrite length_app, L. cbn [List.length]. rewrite length_skipn. lia.
  - rewrite skipn_app, L, Nat.sub_diag. cbn [skipn].
    rewrite skipn_all2 by lia. cbn [app].
    replace (Z.to_nat (i + 1)) with (S (Z.to_nat i)) by lia. reflexivity.
Qed.

Lemma digit_cases (x : Z) :
  0 <= x ->
  x mod 10 = 0 \/ x mod 10 = 1 \/ x mod 10 = 2 \/ x mod 10 = 3 \/ x mod 10 = 4
  \/ x mod 10 = 5 \/ x mod 10 = 6 \/ x mod 10 = 7 \/ x mod 10 = 8 \/ x mod 10 = 9.
Proof. intros _. pose proof (Z.mod_pos_bound x 10). lia. Qed.

(** The digits met by the loop are those of [x]. *)
Lemma little_digits_value (n : nat) :
  forall x, 0 <= x < 10 ^ Z.of_nat n ->
  DecimalPos.Unsigned.of_lu (little_digits n x) = Z.to_N x.
Proof.
  induction n as [| n IH]; intros x Hx.
  - change (10 ^ Z.of_nat 0) with 1 in Hx. assert (x = 0) by lia. subst. reflexivity.
  - cbn [little_digits]. destruct (Z.eqb_spec x 0) as [-> | Hnz]; [reflexivity | ].
    rewrite Nat2Z.inj_succ, Z.pow_succ_r in Hx by lia.
    assert (Hq : 0 <= x / 10 < 10 ^ Z.of_nat n).
    { split; [apply Z.div_pos; lia | apply Z.div_lt_upper_bound; lia]. }
    specialize (IH _ Hq).
    pose proof (Z.div_mod x 10 ltac:(lia)) as E.
    pose proof (Z.mod_pos_bound x 10 ltac:(lia)) as Hm.
    assert (V : Z.to_N x = (Z.to_N (x mod 10) + 10 * Z.to_N (x / 10))%N) by lia.
    rewrite V, <- IH.
    destruct (digit_cases x ltac:(lia)) as [D | [D | [D | [D | [D | [D | [D | [D | [D | D]]]]]]]]];
      rewrite D; reflexivity.
Qed.

(** The most significant digit comes first and is not a zero. *)
Lemma little_digits_normal (n : nat) :
  forall x acc, 0 < x < 10 ^ Z.of_nat n ->
  Decimal.unorm (Decimal.revapp (little_digits n x) acc)
  = Decimal.revapp (little_digits n x) acc
  /\ Decimal.revapp (little_digits n x) acc <> Decimal.Nil.
Proof.
  induction n as [| n IH]; intros x acc Hx.
  - change (10 ^ Z.of_nat 0) with 1 in Hx. lia.
  - cbn [little_digits]. destruct (Z.eqb_spec x 0) as [-> | Hnz]; [lia | ].
    rewrite Nat2Z.inj_succ, Z.pow_succ_r in Hx by lia.
    destruct (Z.eq_dec (x / 10) 0) as [Hz | Hq].
    + assert (Hs : x mod 10 = x) by (pose proof (Z.div_mod x 10 ltac:(lia)); lia).
      rewrite Hz. replace (little_digits n 0) with Decimal.Nil by (destruct n; reflexivity).
      destruct (digit_cases x ltac:(lia)) as [D | [D | [D | [D | [D | [D | [D | [D | [D | D]]]]]]]]];
        rewrite D; try (split; [reflexivity | discriminate]). lia.
    + assert (Hq' : 0 < x / 10 < 10 ^ Z.of_nat n).
      { split; [ | apply Z.div_lt_upper_bound; lia].
        assert (0 <= x / 10) by (apply Z.div_pos; lia). lia. }
      destruct (digit_cases x ltac:(lia)) as [D | [D | [D | [D | [D | [D | [D | [D | [D | D]]]]]]]]];
        rewrite D; cbn [digit_cons Decimal.revapp]; apply IH; exact Hq'.
Qed.

Lemma to_uint_little_digits (n : nat) (p : positive) :
  Z.pos p < 10 ^ Z.of_nat n ->
  Pos.to_uint p = Decimal.rev (little_digits n (Z.pos p)).
Proof.
  intros Hp.
  change (Pos.to_uint p) with (N.to_uint (N.pos p)).
  replace (N.pos p) with (Pos.of_uint (Decimal.rev (little_digits n (Z.pos p)))).
  - rewrite DecimalPos.Unsigned.to_of. apply little_digits_normal. lia.
  - rewrite DecimalPos.Unsigned.of_lu_rev, little_digits_value by lia. reflexivity.
Qed.

(** The loop: it ends within [n] iterations for an [x] of at most [n]
    digits, never leaves the array, and leaves the digits of [x] in front
    of what was after [pos]. *)
Lemma digits_loop_spec (T : IntType) (HT : supported T) (n : nat) :
  forall fuel tmp pos x acc,
  (n <= fuel)%nat ->
  0 <= x < 10 ^ Z.of_nat n -> x <= max_value T ->
  Z.of_nat n <= pos + 1 -> pos < Z.of_nat (List.length tmp) ->
  skipn (Z.to_nat (pos + 1)) tmp = chars acc ->
  exists tmp' pos',
    digits_loop fuel T tmp pos x = Some (tmp', pos')
    /\ List.length tmp' = List.length tmp
    /\ pos - Z.of_nat n <= pos' <= pos
    /\ skipn (Z.to_nat (pos' + 1)) tmp'
       = chars (Decimal.revapp (little_digits n x) acc).
Proof.
  induction n as [| n IH]; intros fuel tmp pos x acc Hf Hx Hmax Hpos Hlen Hacc.
  - change (10 ^ Z.of_nat 0) with 1 in Hx. assert (x = 0) by lia. subst x.
    exists tmp, pos. destruct fuel; cbn; (split; [reflexivity | ]);
      (split; [reflexivity | split; [lia | exact Hacc]]).
  - destruct fuel as [| fuel]; [lia | ].
    cbn [digits_loop little_digits].
    destruct (Z.eqb_spec x 0) as [-> | Hnz].
    + exists tmp, pos. split; [reflexivity | ].
      split; [reflexivity | split; [lia | exact Hacc]].
    + rewrite Nat2Z.inj_succ, Z.pow_succ_r in Hx by lia.
      rewrite Z.rem_mod_nonneg, Z.quot_div_nonneg by lia.
      assert (Hq : 0 <= x / 10 < 10 ^ Z.of_nat n).
      { split; [apply Z.div_pos; lia | apply Z.div_lt_upper_bound; lia]. }
      assert (Hle : x / 10 <= x) by (apply Z.div_le_upper_bound; lia).
      rewrite wrap_in_range; [ | exact HT | ].
      2:{ unfold in_range. split; [ | lia]. unfold min_value.
          destruct (is_signed T); [ | lia].
          assert (0 < 2 ^ (bits T - 1)); [ | lia].
          apply Z.pow_pos_nonneg; [lia | ].
          apply bits_supported in HT. lia. }
      destruct (store_spec tmp pos (char_of_int (48 + x mod 10)) ltac:(lia))
        as (tmp1 & -> & L1 & S1).
      destruct (IH fuel tmp1 (pos - 1) (x / 10) (digit_cons (x mod 10) acc))
        as (tmp' & pos' & E & L' & B & S'); try lia.
      * replace (pos - 1 + 1) with pos by lia. rewrite S1, Hacc.
        symmetry. apply char_of_digit. apply Z.mod_pos_bound. lia.
      * exists tmp', pos'. split; [exact E | ].
        split; [congruence | split; [lia | ]].
        rewrite S'. f_equal.
        destruct (digit_cases x ltac:(lia)) as [D | [D | [D | [D | [D | [D | [D | [D | [D | D]]]]]]]]];
          rewrite D; reflexivity.
Qed.

Lemma decimal_numeral_pos (n : nat) (p : positive) :
  Z.pos p < 10 ^ Z.of_nat n ->
  decimal_numeral (Z.pos p) = chars (Decimal.revapp (little_digits n (Z.pos p)) Decimal.Nil).
Proof.
  intros Hp. unfold decimal_numeral, chars. cbn [Z.to_int NilZero.string_of_int].
  rewrite (to_uint_little_digits n p Hp). unfold Decimal.rev.
  destruct (little_digits_normal n (Z.pos p) Decimal.Nil ltac:(lia)) as [_ Hn].
  destruct (Decimal.revapp (little_digits n (Z.pos p)) Decimal.Nil);
    [contradiction | reflexivity ..].
Qed.

Lemma decimal_numeral_neg (n : nat) (p : positive) :
  Z.pos p < 10 ^ Z.of_nat n ->
  decimal_numeral (Z.neg p)
  = "-"%char :: chars (Decimal.revapp (little_digits n (Z.pos p)) Decimal.Nil).
Proof.
  intros Hp. rewrite <- (decimal_numeral_pos n p Hp). reflexivity.
Qed.

Lemma write_all (from : list ascii) (n : Z) (buf : WriteBuffer) :
  Z.of_nat (List.length from) = n -> write from n buf = buf ++ from.
Proof.
  intros <-. unfold write. rewrite Nat2Z.id, firstn_all. reflexivity.
Qed.

(** The smallest value of a signed type is the one value whose negation
    wraps to a negative number; its text is spelled out by the code. *)
Lemma min_text_decimal (T : IntType) :
  supported T -> is_signed T = true ->
  write (fst (min_text T)) (snd (min_text T)) [] = decimal_numeral (min_value T).
Proof.
  intros HT Hs. unfold min_text, min_value, bits. rewrite Hs.
  destruct HT as [E | [E | [E | E]]]; rewrite E; reflexivity.
Qed.

(** The numeral reads back as the number: the standard parser of decimal
    numerals returns [x] on [decimal_numeral x]. *)
Lemma decimal_numeral_reads_back (x : Z) :
  option_map Z.of_int
    (NilZero.int_of_string (string_of_list_ascii (decimal_numeral x))) = Some x.
Proof.
  unfold decimal_numeral. rewrite string_of_list_ascii_of_string.
  rewrite NilZero.isi.
  - cbn [option_map]. f_equal. apply DecimalZ.of_to.
  - destruct x as [| p | p]; cbn [Z.to_int]; try discriminate.
    intros E. injection E as E. exact (DecimalPos.Unsigned.to_uint_nonnil p E).
  - destruct x as [| p | p]; cbn [Z.to_int]; try discriminate.
    intros E. injection E as E. exact (DecimalPos.Unsigned.to_uint_nonnil p E).
Qed.

(** C10. For every supported integer type [T] (1, 2, 4 or 8 bytes, signed
    or unsigned), every value [x] of [T], whatever the uninitialised local
    array holds and whatever was written before, [writeIntText] stays
    inside its array and appends exactly the decimal numeral of [x]:
    ["0"] for zero, no leading zeros, a leading ["-"] exactly for the
    negative values, the smallest value of each signed width included. *)
Theorem writeIntText_decimal (T : IntType) (x : Z) (tmp : list ascii) (buf : WriteBuffer) :
  supported T -> in_range T x ->
  Z.of_nat (List.length tmp) = WRITE_HELPERS_MAX_INT_WIDTH ->
  writeIntText T x tmp buf = Some (buf ++ decimal_numeral x).
Proof.
  intros HT Hx Hlen. unfold WRITE_HELPERS_MAX_INT_WIDTH in Hlen.
  pose proof (max_value_bound T HT) as [Hmax Hmaxs].
  unfold writeIntText, WRITE_HELPERS_MAX_INT_WIDTH.
  change (Z.to_nat 20) with 20%nat. change (20 - 1) with 19.
  destruct (Z.eqb_spec x 0) as [-> | Hnz]; [reflexivity | ].
  destruct (Z.ltb_spec x 0) as [Hneg | Hpos].
  - (* a negative value: [T] is signed *)
    assert (Hs : is_signed T = true).
    { destruct (is_signed T) eqn:E; [reflexivity | ].
      unfold in_range, min_value in Hx. rewrite E in Hx. lia. }
    specialize (Hmaxs Hs).
    assert (Hb : 0 < 2 ^ (bits T - 1)).
    { apply Z.pow_pos_nonneg; [lia | ]. apply bits_supported in HT. lia. }
    assert (E2 : 2 ^ bits T = 2 * 2 ^ (bits T - 1)).
    { rewrite <- Z.pow_succ_r by (apply bits_supported in HT; lia). f_equal. lia. }
    unfold in_range, min_value, max_value in Hx, Hmaxs. rewrite Hs in Hx, Hmaxs.
    destruct (Z.eq_dec x (- 2 ^ (bits T - 1))) as [Hmin | Hnmin].
    + (* the smallest value *)
      assert (W : wrap T (- x) = - 2 ^ (bits T - 1)).
      { unfold wrap. rewrite Hs, Hmin, Z.opp_involutive.
        replace (2 ^ (bits T - 1) + 2 ^ (bits T - 1)) with (0 + 1 * 2 ^ bits T) by lia.
        rewrite Z.mod_add by lia. rewrite Z.mod_0_l by lia. lia. }
      rewrite W. replace (- 2 ^ (bits T - 1) <? 0) with true by (symmetry; apply Z.ltb_lt; lia).
      cbn [andb]. f_equal.
      pose proof (min_text_decimal T HT Hs) as M.
      unfold write in *. cbn [app] in M. rewrite M. unfold min_value. rewrite Hs.
      congruence.
    + rewrite (wrap_in_range T (- x) HT)
        by (unfold in_range, min_value, max_value; rewrite Hs; lia).
      replace (- x <? 0) with false by (symmetry; apply Z.ltb_ge; lia).
      cbn [andb].
      destruct (digits_loop_spec T HT 19 20 tmp 19 (- x) Decimal.Nil)
        as (tmp1 & pos & -> & L1 & B & S1);
        try (unfold max_value; rewrite Hs); try lia.
      { rewrite skipn_all2 by lia. reflexivity. }
      destruct (store_spec tmp1 pos "-"%char ltac:(lia)) as (tmp2 & -> & L2 & S2).
      rewrite write_all.
      * rewrite S2, S1. destruct x as [| p | p]; try lia.
        rewrite (decimal_numeral_neg 19 p) by lia. reflexivity.
      * rewrite length_skipn. lia.
  - (* a positive value *)
    cbn [andb].
    assert (Hle : x <= max_value T) by (unfold in_range in Hx; lia).
    destruct (digits_loop_spec T HT 20 20 tmp 19 x Decimal.Nil)
      as (tmp1 & pos & -> & L1 & B & S1); try lia.
    { rewrite skipn_all2 by lia. reflexivity. }
    rewrite write_all.
    + rewrite S1. destruct x as [| p | p]; try lia.
      rewrite (decimal_numeral_pos 20 p) by lia. reflexivity.
    + rewrite length_skipn. lia.
Qed.

(** The theorem at the smallest 64-bit value, over an array of garbage. *)
Lemma writeIntText_decimal_witness :
  writeIntText Int64 (-9223372036854775808) (repeat "x"%char 20) []
  = Some (list_ascii_of_string "-9223372036854775808").
Proof.
  apply (writeIntText_decimal Int64 (-9223372036854775808) (repeat "x"%char 20) []).
  - unfold supported. cbn. lia.
  - unfold in_range, min_value, max_value. cbn. lia.
  - reflexivity.
Defined.

End WriteHelpers.

(* ===================================================================== *)
(** * Part II: WhereConstraintsOptimizer.cpp                              *)
(* ===================================================================== *)

(** ** Expression trees *)

(** A literal's value ([Field]). *)
Inductive Field : Set :=
| FieldInt (z : Z)
| FieldString (s : string).

(** [IAST] with the node kinds the optimizer tells apart.  A function node
    has one child, its [arguments] (an expression list in parsed queries),
    so [func->arguments->children] are the arguments proper. *)
#[local] Unset Elimination Schemes.
Inductive IAST : Set :=
| ASTIdentifier (name : string)
| ASTLiteral (value : Field)
| ASTExpressionList (elements : list IAST)
| ASTFunction (name : string) (arguments : IAST).
#[local] Set Elimination Schemes.

(** [ast->children] *)
Definition children (t : IAST) : list IAST :=
  match t with
  | ASTIdentifier _ | ASTLiteral _ => []
  | ASTExpressionList l => l
  | ASTFunction _ a => [a]
  end.

(** [ast->as<ASTFunction>()]: the function's name and [arguments], or
    nothing for another kind of node. *)
Definition as_ASTFunction (t : IAST) : option (string * IAST) :=
  match t with
  | ASTFunction name args => Some (name, args)
  | _ => None
  end.

(** [makeASTFunction(name, args...)] *)
Definition makeASTFunction (name : string) (args : list IAST) : IAST :=
  ASTFunction name (ASTExpressionList args).

(** Induction over trees, with the elements of a list covered. *)
Fixpoint IAST_ind' (P : IAST -> Prop)
  (Hid : forall n, P (ASTIdentifier n))
  (Hlit : forall v, P (ASTLiteral v))
  (Hlist : forall l, Forall P l -> P (ASTExpressionList l))
  (Hfun : forall n a, P a -> P (ASTFunction n a))
  (t : IAST) : P t :=
  match t with
  | ASTIdentifier n => Hid n
  | ASTLiteral v => Hlit v
  | ASTExpressionList l =>
      Hlist l ((fix go (l : list IAST) : Forall P l :=
                  match l with
                  | [] => Forall_nil P
                  | x :: r => Forall_cons x (IAST_ind' P Hid Hlit Hlist Hfun x) (go r)
                  end) l)
  | ASTFunction n a => Hfun n a (IAST_ind' P Hid Hlit Hlist Hfun a)
  end.

(** Deep structural equality of trees. *)
Definition Field_eqb (a b : Field) : bool :=
  match a, b with
  | FieldInt x, FieldInt y => Z.eqb x y
  | FieldString x, FieldString y => String.eqb x y
  | _, _ => false
  end.

Fixpoint IAST_eqb (a b : IAST) {struct a} : bool :=
  match a, b with
  | ASTIdentifier x, ASTIdentifier y => String.eqb x y
  | ASTLiteral x, ASTLiteral y => Field_eqb x y
  | ASTExpressionList l, ASTExpressionList r =>
      (fix go (l r : list IAST) {struct l} : bool :=
         match l, r with
         | [], [] => true
         | x :: l', y :: r' => IAST_eqb x y && go l' r'
         | _, _ => false
         end) l r
  | ASTFunction n x, ASTFunction m y => String.eqb n m && IAST_eqb x y
  | _, _ => false
  end.

(** [IAST::Hash]: a 128-bit value. *)
Definition Hash : Set := N.

Definition is_128_bit (h : IAST -> Hash) : Prop :=
  forall t, (h t < 2 ^ 128)%N.

(** ** The CNF data model *)

(** [CNFQuery::AtomicFormula] *)
Record AtomicFormula : Set := { negative : bool; ast : IAST }.

(** Modelled from the spec: [CNFQuery::OrGroup] is an ordered collection of
    atoms and a [CNFQuery] a sequence of groups (TreeCNFConverter.h is not
    among the sources). *)
Definition OrGroup : Set := list AtomicFormula.
Definition CNFQuery : Set := list OrGroup.

(** ** The comparison graph *)

(** [ComparisonGraph::CompareResult] *)
Inductive CompareResult : Set :=
| LESS | LESS_OR_EQUAL | EQUAL | GREATER_OR_EQUAL | GREATER | NOT_EQUAL | UNKNOWN.

(** ComparisonGraph.cpp is not among the sources: a graph is taken as the
    three queries the optimizer asks of it. *)
Record ComparisonGraph : Set := {
  isAlwaysCompare : CompareResult -> IAST -> IAST -> bool;
  isPossibleCompare : CompareResult -> IAST -> IAST -> bool;
  getEqualConst : IAST -> option IAST
}.

(** Modelled from the spec: [ComparisonGraph::getCompareResult] gives the
    relation kind of a comparison function by its name, [UNKNOWN] for any
    other function. *)
Definition getCompareResult (name : string) : CompareResult :=
  if String.eqb name "equals" then EQUAL
  else if String.eqb name "notEquals" then NOT_EQUAL
  else if String.eqb name "less" then LESS
  else if String.eqb name "lessOrEquals" then LESS_OR_EQUAL
  else if String.eqb name "greater" then GREATER
  else if String.eqb name "greaterOrEquals" then GREATER_OR_EQUAL
  else UNKNOWN.

(** Modelled from the spec: [ComparisonGraph::inverseCompareResult] returns
    the logical negation of a relation kind (LESS <-> GREATER_OR_EQUAL,
    EQUAL <-> NOT_EQUAL, ...). *)
Definition inverseCompareResult (r : CompareResult) : CompareResult :=
  match r with
  | LESS => GREATER_OR_EQUAL
  | LESS_OR_EQUAL => GREATER
  | EQUAL => NOT_EQUAL
  | GREATER_OR_EQUAL => LESS
  | GREATER => LESS_OR_EQUAL
  | NOT_EQUAL => EQUAL
  | UNKNOWN => UNKNOWN
  end.

(** ** The CNF converter and the rewrite combinators

    TreeCNFConverter.h and .cpp are not among the sources; what follows is
    modelled from the spec, section 4.1. *)

Definition AtomicFormula_eqb (a b : AtomicFormula) : bool :=
  Bool.eqb (negative a) (negative b) && IAST_eqb (ast a) (ast b).

Definition positive_atom (e : IAST) : AtomicFormula :=
  {| negative := false; ast := e |}.

(** Modelled from the spec: distribution of OR over AND, for [toCNF]; the
    groups of [a OR b] are the unions of a group of [a] with a group of
    [b]. *)
Definition distribute (a b : CNFQuery) : CNFQuery :=
  flat_map (fun ga => map (fun gb => ga ++ gb) b) a.

(** Modelled from the spec: the groups of an expression, for [toCNF];
    those of the arguments of an [and], the distributed groups of the
    arguments of an [or], one atom otherwise. *)
Fixpoint cnf_groups (e : IAST) : CNFQuery :=
  match e with
  | ASTFunction name (ASTExpressionList args) =>
      if String.eqb name "and" then List.concat (map cnf_groups args)
      else if String.eqb name "or"
           then fold_right (fun arg acc => distribute (cnf_groups arg) acc) [[]] args
           else [[positive_atom e]]
  | _ => [[positive_atom e]]
  end.

(** Modelled from the spec: [TreeCNFConverter::toCNF] distributes OR over
    AND and bounds the number of produced groups by a fixed limit; beyond
    the limit the result is the single group holding the original
    expression as one atom. *)
Definition toCNF (limit : nat) (e : IAST) : CNFQuery :=
  let groups := cnf_groups e in
  if Nat.leb (List.length groups) limit then groups else [[positive_atom e]].

(** Modelled from the spec: the tree of an atom, for [fromCNF], which
    rebuilds an AND-of-ORs tree; a negated atom is wrapped in [not]. *)
Definition atom_to_ast (a : AtomicFormula) : IAST :=
  if negative a then makeASTFunction "not" [ast a] else ast a.

(** Modelled from the spec: [TreeCNFConverter::fromCNF], an [and] of the
    [or]s of the groups. *)
Definition fromCNF (cnf : CNFQuery) : IAST :=
  makeASTFunction "and"
    (map (fun g : OrGroup => makeASTFunction "or" (map atom_to_ast g)) cnf).

(** Modelled from the spec: [pullNotOutFunctions] leaves no NOT node
    wrapped around an atom's expression; the negation goes to the flag. *)
Fixpoint pull_not (neg : bool) (e : IAST) : AtomicFormula :=
  match e with
  | ASTFunction name (ASTExpressionList [x]) =>
      if String.eqb name "not" then pull_not (negb neg) x
      else {| negative := neg; ast := e |}
  | _ => {| negative := neg; ast := e |}
  end.

(** Modelled from the spec: [pullNotOutFunctions], atom by atom. *)
Definition pullNotOutFunctions (cnf : CNFQuery) : CNFQuery :=
  map (map (fun a => pull_not (negative a) (ast a))) cnf.

(** Modelled from the spec: the comparison function that holds exactly
    when [name] does not, for [pushNotInFuntions]. *)
Definition inverse_function (name : string) : option string :=
  if String.eqb name "equals" then Some "notEquals"%string
  else if String.eqb name "notEquals" then Some "equals"%string
  else if String.eqb name "less" then Some "greaterOrEquals"%string
  else if String.eqb name "greaterOrEquals" then Some "less"%string
  else if String.eqb name "greater" then Some "lessOrEquals"%string
  else if String.eqb name "lessOrEquals" then Some "greater"%string
  else None.

(** Modelled from the spec: [pushNotInFuntions] rewrites a negated atom
    whose expression is a comparison (of two operands) into the inverse
    comparison. *)
Definition push_not (a : AtomicFormula) : AtomicFormula :=
  match negative a, ast a with
  | true, ASTFunction name args =>
      match inverse_function name, children args with
      | Some inverse, [_; _] => {| negative := false; ast := ASTFunction inverse args |}
      | _, _ => a
      end
  | _, _ => a
  end.

(** Modelled from the spec: [pushNotInFuntions], atom by atom. *)
Definition pushNotInFuntions (cnf : CNFQuery) : CNFQuery :=
  map (map push_not) cnf.

(** Modelled from the spec: [filterAlwaysTrueGroups] removes the groups for
    which the predicate is false. *)
Definition filterAlwaysTrueGroups (predicate : OrGroup -> bool) (cnf : CNFQuery) : CNFQuery :=
  filter predicate cnf.

(** Modelled from the spec: [filterAlwaysFalseAtoms] removes from its group
    every atom for which the predicate is false; a group left empty stays
    in the CNF, which it makes false. *)
Definition filterAlwaysFalseAtoms (predicate : AtomicFormula -> bool) (cnf : CNFQuery)
  : CNFQuery :=
  map (filter predicate) cnf.

(** Modelled from the spec: [transformAtoms] replaces every atom by its
    image. *)
Definition transformAtoms (fn : AtomicFormula -> AtomicFormula) (cnf : CNFQuery) : CNFQuery :=
  map (map fn) cnf.

(** Modelled from the spec: [reduce] removes duplicate atoms within a
    group, then every group that is a structural superset of another
    group.  First the duplicates. *)
Fixpoint remove_duplicates (g : OrGroup) : OrGroup :=
  match g with
  | [] => []
  | a :: r => a :: filter (fun b => negb (AtomicFormula_eqb a b)) (remove_duplicates r)
  end.

(** Modelled from the spec: whether every atom of [g] is an atom of [g'],
    for [reduce]. *)
Definition subset_group (g g' : OrGroup) : bool :=
  forallb (fun a => existsb (AtomicFormula_eqb a) g') g.

(** Modelled from the spec: of the groups with the same atoms the first
    stays, for [reduce]. *)
Fixpoint remove_equal_groups (cnf : CNFQuery) : CNFQuery :=
  match cnf with
  | [] => []
  | g :: r =>
      g :: filter (fun g' => negb (subset_group g g' && subset_group g' g))
                  (remove_equal_groups r)
  end.

(** Modelled from the spec: [reduce], on the groups without duplicates. *)
Definition reduce (cnf : CNFQuery) : CNFQuery :=
  let groups := remove_equal_groups (map remove_duplicates cnf) in
  filter (fun g => negb (existsb (fun g' => subset_group g' g && negb (subset_group g g'))
                                 groups))
         groups.

(** ** Matching against the declared constraints *)

(** [enum class MatchState] *)
Inductive MatchState : Set :=
| FULL_MATCH  (* a = b *)
| NOT_MATCH   (* a = not b *)
| NONE.       (* other *)

Definition MatchState_eqb (x y : MatchState) : bool :=
  match x, y with
  | FULL_MATCH, FULL_MATCH | NOT_MATCH, NOT_MATCH | NONE, NONE => true
  | _, _ => false
  end.

(** [ConstraintsDescription::AtomId]: the group of a declared atom and its
    position there. *)
Record AtomId : Set := { and_group : nat; atom_index : nat }.

(** ConstraintsDescription.cpp is not among the sources: a description is
    its constraint data (every group known to hold for every row) and the
    graph built from it. *)
Record ConstraintsDescription : Set := {
  getConstraintData : list (list AtomicFormula);
  getGraph : ComparisonGraph
}.

(** [StorageInMemoryMetadata], as far as the optimizer reads it. *)
Record StorageInMemoryMetadata : Set := {
  getConstraints : ConstraintsDescription
}.

(** [--n] on a [size_t]: it wraps at zero. *)
Definition size_t_dec (n : Z) : Z := if Z.eqb n 0 then (2 ^ 64 - 1)%Z else (n - 1)%Z.

(** [v[i]] and [--v[i]] on a [std::vector<size_t>]; the indices used are
    groups of the constraint data, which are in range. *)
Definition vector_get (v : list Z) (i : nat) : Z := nth i v 0%Z.

Fixpoint vector_dec (v : list Z) (i : nat) : list Z :=
  match v, i with
  | [], _ => []
  | x :: r, O => size_t_dec x :: r
  | x :: r, S i' => x :: vector_dec r i'
  end.

(** A list with the positions of its elements. *)
Definition indexed {A : Type} (l : list A) : list (nat * A) :=
  combine (seq 0 (List.length l)) l.

(** Every declared atom with its identifier, group by group. *)
Definition atom_table (data : list (list AtomicFormula)) : list (AtomId * AtomicFormula) :=
  flat_map (fun ig : nat * list AtomicFormula =>
              map (fun ja : nat * AtomicFormula =>
                     ({| and_group := fst ig; atom_index := fst ja |}, snd ja))
                  (indexed (snd ig)))
           (indexed data).

(** [ASTSelectQuery], as far as the optimizer touches it: the WHERE
    expression, if any, and the other expressions of the query. *)
Record ASTSelectQuery : Set := {
  where_ : option IAST;
  other_expressions : list IAST
}.

(** [select_query->setExpression(ASTSelectQuery::Expression::WHERE, ast)] *)
Definition setExpression_WHERE (q : ASTSelectQuery) (e : IAST) : ASTSelectQuery :=
  {| where_ := Some e; other_expressions := other_expressions q |}.

(** What [perform] hands to the logger. *)
Inductive LogLine : Set :=
| Before_optimization (cnf : CNFQuery)
| After_optimization (cnf : CNFQuery).

(** The members of a [WhereConstraintsOptimizer]. *)
Record WhereConstraintsOptimizer : Set := {
  select_query : ASTSelectQuery;
  metadata_snapshot : option StorageInMemoryMetadata;
  optimize_append_index : bool
}.

Section Optimizer.

(** [IAST::getTreeHash], the structural fingerprint of a tree (IAST.cpp is
    not among the sources). *)
Variable getTreeHash : IAST -> Hash.

(** Modelled from the spec: [ConstraintsDescription::getAtomIds] gives the
    (group, position) pairs of the declared atoms whose expression has the
    fingerprint of [e], and nothing when there is none. *)
Definition getAtomIds (cd : ConstraintsDescription) (e : IAST) : option (list AtomId) :=
  match filter (fun ia : AtomId * AtomicFormula =>
                  N.eqb (getTreeHash (ast (snd ia))) (getTreeHash e))
               (atom_table (getConstraintData cd)) with
  | [] => None
  | ids => Some (map fst ids)
  end.

(** Modelled from the spec: [ConstraintsDescription::getAtomsById] resolves
    identifiers to the declared atoms. *)
Definition getAtomsById (cd : ConstraintsDescription) (ids : list AtomId)
  : list AtomicFormula :=
  map (fun id => nth (atom_index id)
                     (nth (and_group id) (getConstraintData cd) [])
                     {| negative := false; ast := ASTExpressionList [] |})
      ids.

(** [MatchState match(CNFQuery::AtomicFormula a, CNFQuery::AtomicFormula b)] *)
Definition match_ (a b : AtomicFormula) : MatchState :=
  let match_means_ok := xorb (xorb true (negative a)) (negative b) in
  if N.eqb (getTreeHash (ast a)) (getTreeHash (ast b))
  then (if match_means_ok then FULL_MATCH else NOT_MATCH)
  else NONE.

(** The inner loop of [checkIfGroupAlwaysTrueFullMatch], over
    [constraint_atoms[i]] and the [i]-th of [constraint_atom_ids]: whether it
    returned [true], and [found] after it. *)
Fixpoint checkIfGroupAlwaysTrueFullMatch_atom (atom : AtomicFormula)
  (constraint_atom_ids : list AtomId) (constraint_atoms : list AtomicFormula)
  (found : list Z) : bool * list Z :=
  match constraint_atom_ids, constraint_atoms with
  | id :: ids, constraint_atom :: atoms =>
      if MatchState_eqb (match_ constraint_atom atom) FULL_MATCH
      then
        let found' := vector_dec found (and_group id) in
        if Z.eqb (vector_get found' (and_group id)) 0
        then (true, found')
        else checkIfGroupAlwaysTrueFullMatch_atom atom ids atoms found'
      else checkIfGroupAlwaysTrueFullMatch_atom atom ids atoms found
  | _, _ => (false, found)
  end.

(** The loop [for (const auto & atom : group)]. *)
Fixpoint checkIfGroupAlwaysTrueFullMatch_loop (group : OrGroup)
  (cd : ConstraintsDescription) (found : list Z) : bool :=
  match group with
  | [] => false
  | atom :: rest =>
      match getAtomIds cd (ast atom) with
      | Some constraint_atom_ids =>
          let constraint_atoms := getAtomsById cd constraint_atom_ids in
          let (returned, found') :=
            checkIfGroupAlwaysTrueFullMatch_atom atom constraint_atom_ids
                                                 constraint_atoms found in
          if returned then true
          else checkIfGroupAlwaysTrueFullMatch_loop rest cd found'
      | None => checkIfGroupAlwaysTrueFullMatch_loop rest cd found
      end
  end.

(** [bool checkIfGroupAlwaysTrueFullMatch(group, constraints_description)] *)
Definition checkIfGroupAlwaysTrueFullMatch (group : OrGroup)
  (constraints_description : ConstraintsDescription) : bool :=
  let constraints_data := getConstraintData constraints_description in
  let found := map (fun g : list AtomicFormula => Z.of_nat (List.length g)) constraints_data in
  checkIfGroupAlwaysTrueFullMatch_loop group constraints_description found.

(** [ComparisonGraph::CompareResult getExpectedCompare(atom)] *)
Definition getExpectedCompare (atom : AtomicFormula) : CompareResult :=
  match as_ASTFunction (ast atom) with
  | Some (name, _) =>
      let expected := getCompareResult name in
      if negative atom then inverseCompareResult expected else expected
  | None => UNKNOWN
  end.

(** [bool checkIfGroupAlwaysTrueGraph(group, graph)] *)
Fixpoint checkIfGroupAlwaysTrueGraph (group : OrGroup) (graph : ComparisonGraph) : bool :=
  match group with
  | [] => false
  | atom :: rest =>
      match as_ASTFunction (ast atom) with
      | Some (_, arguments) =>
          match children arguments with
          | [arg0; arg1] =>
              isAlwaysCompare graph (getExpectedCompare atom) arg0 arg1
          | _ => checkIfGroupAlwaysTrueGraph rest graph
          end
      | None => checkIfGroupAlwaysTrueGraph rest graph
      end
  end.

(** [bool checkIfAtomAlwaysFalseFullMatch(atom, constraints_description)] *)
Definition checkIfAtomAlwaysFalseFullMatch (atom : AtomicFormula)
  (constraints_description : ConstraintsDescription) : bool :=
  match getAtomIds constraints_description (ast atom) with
  | Some constraint_atom_ids =>
      existsb (fun constraint_atom =>
                 MatchState_eqb (match_ constraint_atom atom) NOT_MATCH)
              (getAtomsById constraints_description constraint_atom_ids)
  | None => false
  end.

(** [bool checkIfAtomAlwaysFalseGraph(atom, graph)] *)
Definition checkIfAtomAlwaysFalseGraph (atom : AtomicFormula) (graph : ComparisonGraph) : bool :=
  match as_ASTFunction (ast atom) with
  | Some (_, arguments) =>
      match children arguments with
      | [arg0; arg1] =>
          negb (isPossibleCompare graph (getExpectedCompare atom) arg0 arg1)
      | _ => false
      end
  | None => false
  end.

(** [void replaceToConstants(ASTPtr & term, graph)], on trees as values:
    the tree [term] refers to afterwards. *)
Fixpoint replaceToConstants (graph : ComparisonGraph) (term : IAST) : IAST :=
  match getEqualConst graph term with
  | Some equal_constant => equal_constant
  | None =>
      match term with
      | ASTIdentifier _ | ASTLiteral _ => term
      | ASTExpressionList l => ASTExpressionList (map (replaceToConstants graph) l)
      | ASTFunction name arguments => ASTFunction name (replaceToConstants graph arguments)
      end
  end.

(** [CNFQuery::AtomicFormula replaceTermsToConstants(atom, graph)] *)
Definition replaceTermsToConstants (atom : AtomicFormula) (graph : ComparisonGraph)
  : AtomicFormula :=
  {| negative := negative atom; ast := replaceToConstants graph (ast atom) |}.

(** The bound of [toCNF] on the number of groups, and
    [AddIndexConstraintsOptimizer(metadata_snapshot).perform(cnf)], an
    external collaborator: neither is among the sources. *)
Variable cnf_limit : nat.
Variable AddIndexConstraintsOptimizer_perform :
  StorageInMemoryMetadata -> CNFQuery -> CNFQuery.

(** The lambda given to [filterAlwaysTrueGroups]. *)
Definition not_always_true_group (metadata : StorageInMemoryMetadata) (group : OrGroup) : bool :=
  negb (checkIfGroupAlwaysTrueFullMatch group (getConstraints metadata))
  && negb (checkIfGroupAlwaysTrueGraph group (getGraph (getConstraints metadata))).

(** The lambda given to [filterAlwaysFalseAtoms]. *)
Definition not_always_false_atom (metadata : StorageInMemoryMetadata) (atom : AtomicFormula)
  : bool :=
  negb (checkIfAtomAlwaysFalseFullMatch atom (getConstraints metadata))
  && negb (checkIfAtomAlwaysFalseGraph atom (getGraph (getConstraints metadata))).

(** The chain of rewrites [perform] applies to the CNF. *)
Definition optimize_cnf (metadata : StorageInMemoryMetadata) (cnf : CNFQuery) : CNFQuery :=
  let compare_graph := getGraph (getConstraints metadata) in
  pushNotInFuntions
    (reduce
       (transformAtoms
          (fun atom => replaceTermsToConstants atom compare_graph)
          (filterAlwaysFalseAtoms
             (not_always_false_atom metadata)
             (filterAlwaysTrueGroups
                (not_always_true_group metadata)
                (pullNotOutFunctions cnf))))).

(** [void WhereConstraintsOptimizer::perform()]: the select query and the
    log after the call. *)
Definition perform (this : WhereConstraintsOptimizer) (log : list LogLine)
  : ASTSelectQuery * list LogLine :=
  match where_ (select_query this), metadata_snapshot this with
  | Some where_expression, Some metadata =>
      let cnf := toCNF cnf_limit where_expression in
      let log1 := log ++ [Before_optimization cnf] in
      let cnf1 := optimize_cnf metadata cnf in
      let cnf2 := if optimize_append_index this
                  then AddIndexConstraintsOptimizer_perform metadata cnf1
                  else cnf1 in
      let log2 := log1 ++ [After_optimization cnf2] in
      (setExpression_WHERE (select_query this) (fromCNF cnf2), log2)
  | _, _ => (select_query this, log)
  end.

End Optimizer.

(* ===================================================================== *)
(** * Properties of the optimizer                                         *)
(* ===================================================================== *)

(** ** Fingerprints collide *)

(** A list of numbers is free of duplicates, or two of its positions hold
    the same number. *)
Lemma duplicate_or_NoDup (l : list N) :
  NoDup l \/ exists i j, i < j < List.length l /\ nth i l 0%N = nth j l 0%N.
Proof.
  induction l as [| a r IH].
  - left. constructor.
  - destruct (in_dec N.eq_dec a r) as [Hin | Hnin].
    + right. destruct (In_nth r a 0%N Hin) as (k & Hk & E).
      exists 0, (S k). cbn [List.length nth]. split; [lia | congruence].
    + destruct IH as [Hnd | (i & j & Hij & E)].
      * left. constructor; assumption.
      * right. exists (S i), (S j). cbn [List.length nth]. split; [lia | exact E].
Qed.

(** Pigeonhole: [bound + 1] values below [bound] are not all different. *)
Lemma pigeonhole (bound : nat) (g : nat -> N) :
  (forall i, (g i < N.of_nat bound)%N) ->
  exists i j, i < j <= bound /\ g i = g j.
Proof.
  intros Hg.
  destruct (duplicate_or_NoDup (map g (seq 0 (S bound)))) as [Hnd | (i & j & Hij & E)].
  - exfalso.
    assert (L : List.length (map g (seq 0 (S bound)))
                <= List.length (map N.of_nat (seq 0 bound))).
    { apply NoDup_incl_length; [exact Hnd | ].
      intros y Hy. apply in_map_iff in Hy. destruct Hy as (i & <- & _).
      apply in_map_iff. exists (N.to_nat (g i)). split; [apply N2Nat.id | ].
      apply in_seq. specialize (Hg i). lia. }
    rewrite !length_map, !length_seq in L. lia.
  - rewrite length_map, length_seq in Hij.
    exists i, j. split; [lia | ].
    rewrite (nth_indep _ 0%N (g 0)), (nth_indep _ 0%N (g 0) (n := j)) in E
      by (rewrite length_map, length_seq; lia).
    rewrite !map_nth, !seq_nth in E by lia. exact E.
Qed.

(** Whatever the 128-bit fingerprint, every family of trees indexed by
    the natural numbers has two members with the same fingerprint. *)
Lemma tree_hash_collision (h : IAST -> Hash) (family : nat -> IAST) :
  is_128_bit h ->
  exists i j, i < j /\ h (family i) = h (family j).
Proof.
  intros Hh.
  destruct (pigeonhole (N.to_nat (2 ^ 128)) (fun i => h (family i))) as (i & j & Hij & E).
  - intros i. rewrite N2Nat.id. apply Hh.
  - exists i, j. split; [lia | exact E].
Qed.

(** ** [match] *)

Lemma match_FULL_MATCH (h : IAST -> Hash) (a b : AtomicFormula) :
  match_ h a b = FULL_MATCH
  <-> h (ast a) = h (ast b) /\ negative a = negative b.
Proof.
  unfold match_. destruct (N.eqb_spec (h (ast a)) (h (ast b))) as [E | E];
    destruct (negative a), (negative b); cbn; intuition congruence.
Qed.

Lemma match_NOT_MATCH (h : IAST -> Hash) (a b : AtomicFormula) :
  match_ h a b = NOT_MATCH
  <-> h (ast a) = h (ast b) /\ negative a <> negative b.
Proof.
  unfold match_. destruct (N.eqb_spec (h (ast a)) (h (ast b))) as [E | E];
    destruct (negative a), (negative b); cbn; intuition congruence.
Qed.

Lemma match_NONE (h : IAST -> Hash) (a b : AtomicFormula) :
  match_ h a b = NONE <-> h (ast a) <> h (ast b).
Proof.
  unfold match_. destruct (N.eqb_spec (h (ast a)) (h (ast b))) as [E | E];
    destruct (negative a), (negative b); cbn; intuition congruence.
Qed.

Lemma MatchState_eqb_eq (x y : MatchState) : MatchState_eqb x y = true <-> x = y.
Proof. destruct x, y; cbn; intuition congruence. Qed.

(** C2, as the code has it.  [match] decides by the fingerprints and the
    polarities alone: it answers FULL_MATCH exactly when the two
    fingerprints coincide and the polarities agree, NOT_MATCH exactly when
    the fingerprints coincide and the polarities differ, NONE otherwise;
    and two atoms with deeply equal expressions are never told apart. *)
Theorem match_by_fingerprint (h : IAST -> Hash) (a b : AtomicFormula) :
  (match_ h a b = FULL_MATCH <-> h (ast a) = h (ast b) /\ negative a = negative b)
  /\ (match_ h a b = NOT_MATCH <-> h (ast a) = h (ast b) /\ negative a <> negative b)
  /\ (match_ h a b = NONE <-> h (ast a) <> h (ast b))
  /\ (ast a = ast b -> match_ h a b <> NONE).
Proof.
  split; [apply match_FULL_MATCH | ].
  split; [apply match_NOT_MATCH | ].
  split; [apply match_NONE | ].
  intros E N. apply match_NONE in N. apply N. now rewrite E.
Qed.

(** C2 as stated fails: no 128-bit fingerprint makes FULL_MATCH imply deep
    equality of the two expressions. *)
Lemma match_full_without_equality :
  ~ exists h : IAST -> Hash,
      is_128_bit h
      /\ forall a b, match_ h a b = FULL_MATCH -> ast a = ast b.
Proof.
  intros (h & Hh & Hall_h).
  destruct (tree_hash_collision h (fun i => ASTLiteral (FieldInt (Z.of_nat i))) Hh)
    as (i & j & Hij & E).
  specialize (Hall_h (positive_atom (ASTLiteral (FieldInt (Z.of_nat i))))
                     (positive_atom (ASTLiteral (FieldInt (Z.of_nat j))))).
  assert (F : ASTLiteral (FieldInt (Z.of_nat i)) = ASTLiteral (FieldInt (Z.of_nat j))).
  { apply Hall_h. apply match_FULL_MATCH. cbn. split; [exact E | reflexivity]. }
  injection F as F. lia.
Qed.

(** ** [checkIfGroupAlwaysTrueGraph] *)

(** An atom over a function of exactly two arguments that the graph finds
    always true under the atom's negation-adjusted relation. *)
Definition always_true_comparison (graph : ComparisonGraph) (atom : AtomicFormula) : Prop :=
  exists name arguments arg0 arg1,
    ast atom = ASTFunction name arguments
    /\ children arguments = [arg0; arg1]
    /\ isAlwaysCompare graph (getExpectedCompare atom) arg0 arg1 = true.

(** An atom over a function of exactly two arguments. *)
Definition is_binary_function (atom : AtomicFormula) : bool :=
  match as_ASTFunction (ast atom) with
  | Some (_, arguments) =>
      match children arguments with
      | [_; _] => true
      | _ => false
      end
  | None => false
  end.

(** The loop answers at the first atom over a function of two arguments. *)
Lemma checkIfGroupAlwaysTrueGraph_first (graph : ComparisonGraph) (group : OrGroup) :
  checkIfGroupAlwaysTrueGraph group graph = true
  <-> exists before atom after,
        group = before ++ atom :: after
        /\ forallb (fun a => negb (is_binary_function a)) before = true
        /\ always_true_comparison graph atom.
Proof.
  induction group as [| a rest IH].
  - cbn. split; [discriminate | ].
    intros (before & atom & after & E & _). destruct before; discriminate.
  - cbn [checkIfGroupAlwaysTrueGraph].
    destruct (is_binary_function a) eqn:B.
    + unfold is_binary_function in B.
      destruct (as_ASTFunction (ast a)) as [[name arguments] | ] eqn:F; [ | discriminate].
      destruct (children arguments) as [| arg0 [| arg1 [| ? ?]]] eqn:C; try discriminate.
      assert (Hast : ast a = ASTFunction name arguments)
        by (destruct (ast a); cbn in F; congruence).
      split.
      * intros H. exists [], a, rest. split; [reflexivity | ]. split; [reflexivity | ].
        exists name, arguments, arg0, arg1. auto.
      * intros (before & atom & after & E & Hb & Ha).
        destruct before as [| b before'].
        -- injection E as <- _.
           destruct Ha as (n' & args' & x0 & x1 & E1 & E2 & E3).
           rewrite Hast in E1. injection E1 as <- <-. rewrite C in E2.
           injection E2 as <- <-. exact E3.
        -- injection E as <- _. cbn in Hb. unfold is_binary_function in Hb.
           rewrite F, C in Hb. discriminate.
    + assert (Hskip : match as_ASTFunction (ast a) with
                      | Some (_, arguments) =>
                          match children arguments with
                          | [arg0; arg1] =>
                              isAlwaysCompare graph (getExpectedCompare a) arg0 arg1
                          | _ => checkIfGroupAlwaysTrueGraph rest graph
                          end
                      | None => checkIfGroupAlwaysTrueGraph rest graph
                      end = checkIfGroupAlwaysTrueGraph rest graph).
      { unfold is_binary_function in B.
        destruct (as_ASTFunction (ast a)) as [[name arguments] | ]; [ | reflexivity].
        destruct (children arguments) as [| arg0 [| arg1 [| ? ?]]];
          try reflexivity; discriminate. }
      rewrite Hskip, IH. split.
      * intros (before & atom & after & -> & Hb & Ha).
        exists (a :: before), atom, after. split; [reflexivity | ].
        split; [cbn; rewrite B; exact Hb | exact Ha].
      * intros (before & atom & after & E & Hb & Ha).
        destruct before as [| b before'].
        -- injection E as <- _. exfalso.
           destruct Ha as (n' & args' & x0 & x1 & E1 & E2 & E3).
           unfold is_binary_function in B. rewrite E1 in B. cbn in B.
           rewrite E2 in B. discriminate.
        -- injection E as <- ->. cbn in Hb. apply andb_true_iff in Hb.
           exists before', atom, after. tauto.
Qed.

(** C4, as the code has it.  [checkIfGroupAlwaysTrueGraph] answers [true]
    only if the group holds an atom over a function of exactly two
    arguments for which [isAlwaysCompare] holds on the atom's
    negation-adjusted relation; for a group of a single atom it answers
    [true] exactly in that case; and it answers [false] for a group with
    no atom over a function of two arguments. *)
Theorem checkIfGroupAlwaysTrueGraph_spec (graph : ComparisonGraph) :
  (forall group, checkIfGroupAlwaysTrueGraph group graph = true ->
                 exists atom, In atom group /\ always_true_comparison graph atom)
  /\ (forall atom, checkIfGroupAlwaysTrueGraph [atom] graph = true
                   <-> always_true_comparison graph atom)
  /\ (forall group, forallb (fun a => negb (is_binary_function a)) group = true ->
                    checkIfGroupAlwaysTrueGraph group graph = false).
Proof.
  split; [ | split].
  - intros group H. apply checkIfGroupAlwaysTrueGraph_first in H.
    destruct H as (before & atom & after & -> & _ & Ha).
    exists atom. split; [apply in_elt | exact Ha].
  - intros atom. rewrite checkIfGroupAlwaysTrueGraph_first. split.
    + intros (before & atom' & after & E & _ & Ha).
      destruct before as [| b [| ? ?]]; try discriminate.
      injection E as <- _. exact Ha.
    + intros Ha. exists [], atom, []. auto.
  - intros group Hb.
    destruct (checkIfGroupAlwaysTrueGraph group graph) eqn:E; [ | reflexivity].
    apply checkIfGroupAlwaysTrueGraph_first in E.
    destruct E as (before & atom & after & -> & _ & Ha).
    rewrite forallb_app in Hb. apply andb_true_iff in Hb. destruct Hb as [_ Hb].
    cbn in Hb. apply andb_true_iff in Hb. destruct Hb as [Hb _].
    destruct Ha as (n' & args' & x0 & x1 & E1 & E2 & E3).
    unfold is_binary_function in Hb. rewrite E1 in Hb. cbn in Hb. rewrite E2 in Hb.
    discriminate.
Qed.

(** The comparison graph of the single constraint [less(a, b)], as far as
    it is asked here: [a < b] always holds. *)
Definition graph_a_less_b : ComparisonGraph :=
  {| isAlwaysCompare := fun r l r' =>
       match r with
       | LESS => IAST_eqb l (ASTIdentifier "a") && IAST_eqb r' (ASTIdentifier "b")
       | _ => false
       end;
     isPossibleCompare := fun _ _ _ => true;
     getEqualConst := fun _ => None |}.

(** C4 as stated fails: the group [less(a, b) OR c] has two atoms, and the
    code answers [true] for it. *)
Lemma checkIfGroupAlwaysTrueGraph_two_atoms :
  checkIfGroupAlwaysTrueGraph
    [positive_atom (makeASTFunction "less" [ASTIdentifier "a"; ASTIdentifier "b"]);
     positive_atom (ASTIdentifier "c")]
    graph_a_less_b = true
  /\ ~ (exists atom,
          [positive_atom (makeASTFunction "less" [ASTIdentifier "a"; ASTIdentifier "b"]);
           positive_atom (ASTIdentifier "c")] = [atom]).
Proof.
  split; [reflexivity | ].
  intros (atom & E). discriminate E.
Qed.

(** ** Looking declared atoms up *)

Lemma indexed_from_In {A : Type} (l : list A) :
  forall start i x,
  In (i, x) (combine (seq start (List.length l)) l)
  <-> start <= i /\ nth_error l (i - start) = Some x.
Proof.
  induction l as [| a r IH]; intros start i x; cbn [List.length seq combine].
  - split; [intros [] | ]. intros [_ H]. destruct (i - start); discriminate.
  - cbn [In]. rewrite IH. split.
    + intros [E | [Hle Hn]].
      * injection E as <- <-. rewrite Nat.sub_diag. auto.
      * split; [lia | ]. replace (i - start) with (S (i - S start)) by lia. exact Hn.
    + intros [Hle Hn]. destruct (Nat.eq_dec i start) as [-> | Hne].
      * rewrite Nat.sub_diag in Hn. cbn in Hn. left. congruence.
      * right. split; [lia | ].
        replace (i - start) with (S (i - S start)) in Hn by lia. exact Hn.
Qed.

Lemma indexed_In {A : Type} (l : list A) (i : nat) (x : A) :
  In (i, x) (indexed l) <-> nth_error l i = Some x.
Proof.
  unfold indexed. rewrite indexed_from_In, Nat.sub_0_r. split; [tauto | ].
  split; [lia | assumption].
Qed.

(** The table lists the declared atoms, each under its own position. *)
Lemma atom_table_In (data : list (list AtomicFormula)) (id : AtomId) (c : AtomicFormula) :
  In (id, c) (atom_table data)
  <-> exists grp, nth_error data (and_group id) = Some grp
                  /\ nth_error grp (atom_index id) = Some c.
Proof.
  unfold atom_table. rewrite in_flat_map. split.
  - intros ([i grp] & Hi & Hj). apply indexed_In in Hi.
    apply in_map_iff in Hj. destruct Hj as ([j a] & E & Hj). apply indexed_In in Hj.
    cbn in E. injection E as <- <-. cbn. eauto.
  - intros (grp & Hi & Hj). exists (and_group id, grp). split; [now apply indexed_In | ].
    apply in_map_iff. exists (atom_index id, c). split; [ | now apply indexed_In].
    cbn. destruct id; reflexivity.
Qed.

(** A declared atom: an atom of a group of the constraint data. *)
Definition declared_atom (cd : ConstraintsDescription) (c : AtomicFormula) : Prop :=
  exists grp, In grp (getConstraintData cd) /\ In c grp.

Lemma declared_atom_table (cd : ConstraintsDescription) (c : AtomicFormula) :
  declared_atom cd c <-> exists id, In (id, c) (atom_table (getConstraintData cd)).
Proof.
  split.
  - intros (grp & Hg & Hc).
    apply In_nth_error in Hg. destruct Hg as [i Hi].
    apply In_nth_error in Hc. destruct Hc as [j Hj].
    exists {| and_group := i; atom_index := j |}. apply atom_table_In. cbn. eauto.
  - intros (id & H). apply atom_table_In in H. destruct H as (grp & Hi & Hj).
    exists grp. split; eapply nth_error_In; eassumption.
Qed.

Lemma getAtomsById_table (cd : ConstraintsDescription) (l : list (AtomId * AtomicFormula)) :
  incl l (atom_table (getConstraintData cd)) ->
  getAtomsById cd (map fst l) = map snd l.
Proof.
  induction l as [| [id c] r IH]; intros Hl; [reflexivity | ].
  cbn [map getAtomsById fst snd]. f_equal.
  - assert (H : In (id, c) (atom_table (getConstraintData cd))) by (apply Hl; now left).
    apply atom_table_In in H. destruct H as (grp & Hi & Hj).
    rewrite (nth_error_nth _ _ _ Hi). now apply nth_error_nth.
  - apply IH. intros x Hx. apply Hl. now right.
Qed.

(** The declared atoms with the fingerprint of [e], with their positions. *)
Definition candidates (h : IAST -> Hash) (cd : ConstraintsDescription) (e : IAST)
  : list (AtomId * AtomicFormula) :=
  filter (fun ia : AtomId * AtomicFormula => N.eqb (h (ast (snd ia))) (h e))
         (atom_table (getConstraintData cd)).

Lemma getAtomIds_candidates (h : IAST -> Hash) (cd : ConstraintsDescription) (e : IAST) :
  match getAtomIds h cd e with
  | Some ids => ids = map fst (candidates h cd e)
                /\ getAtomsById cd ids = map snd (candidates h cd e)
  | None => candidates h cd e = []
  end.
Proof.
  unfold getAtomIds. fold (candidates h cd e).
  destruct (candidates h cd e) as [| x r] eqn:E; [reflexivity | ].
  split; [reflexivity | ]. apply getAtomsById_table. rewrite <- E.
  intros y Hy. unfold candidates in Hy. apply filter_In in Hy. tauto.
Qed.

Lemma candidates_In (h : IAST -> Hash) (cd : ConstraintsDescription) (e : IAST)
  (c : AtomicFormula) :
  In c (map snd (candidates h cd e)) <-> declared_atom cd c /\ h (ast c) = h e.
Proof.
  rewrite declared_atom_table, in_map_iff. unfold candidates. split.
  - intros ([id c'] & E & H). cbn in E. subst c'. apply filter_In in H.
    destruct H as [H1 H2]. cbn in H2. apply N.eqb_eq in H2. eauto.
  - intros [(id & H) E]. exists (id, c). split; [reflexivity | ].
    apply filter_In. split; [exact H | ]. cbn. now apply N.eqb_eq.
Qed.

(** ** The always-false atoms *)

Lemma checkIfAtomAlwaysFalseFullMatch_spec (h : IAST -> Hash)
  (cd : ConstraintsDescription) (atom : AtomicFormula) :
  checkIfAtomAlwaysFalseFullMatch h atom cd = true
  <-> exists c, declared_atom cd c
                /\ h (ast c) = h (ast atom) /\ negative c <> negative atom.
Proof.
  unfold checkIfAtomAlwaysFalseFullMatch.
  pose proof (getAtomIds_candidates h cd (ast atom)) as G.
  destruct (getAtomIds h cd (ast atom)) as [ids | ].
  - destruct G as [_ ->]. rewrite existsb_exists. split.
    + intros (c & Hc & M). apply MatchState_eqb_eq, match_NOT_MATCH in M.
      apply candidates_In in Hc. exists c. tauto.
    + intros (c & Hd & E & N). exists c. split; [now apply candidates_In | ].
      apply MatchState_eqb_eq, match_NOT_MATCH. tauto.
  - split; [discriminate | ]. intros (c & Hd & E & N). exfalso.
    assert (H : In c (map snd (candidates h cd (ast atom)))) by now apply candidates_In.
    rewrite G in H. exact H.
Qed.

(** An atom over a function of exactly two arguments that the graph finds
    impossible under the atom's negation-adjusted relation. *)
Definition impossible_comparison (graph : ComparisonGraph) (atom : AtomicFormula) : Prop :=
  exists name arguments arg0 arg1,
    ast atom = ASTFunction name arguments
    /\ children arguments = [arg0; arg1]
    /\ isPossibleCompare graph (getExpectedCompare atom) arg0 arg1 = false.

Lemma checkIfAtomAlwaysFalseGraph_spec (graph : ComparisonGraph) (atom : AtomicFormula) :
  checkIfAtomAlwaysFalseGraph atom graph = true <-> impossible_comparison graph atom.
Proof.
  unfold checkIfAtomAlwaysFalseGraph, impossible_comparison.
  destruct (ast atom) as [n | v | l | name arguments] eqn:E; cbn;
    try (split; [discriminate | intros (? & ? & ? & ? & ? & _); discriminate]).
  destruct (children arguments) as [| arg0 [| arg1 [| ? ?]]] eqn:C;
    try (split; [discriminate | ];
         intros (? & ? & ? & ? & F & C' & _); injection F as <- <-;
         rewrite C in C'; discriminate).
  split.
  - intros H. apply negb_true_iff in H. exists name, arguments, arg0, arg1. auto.
  - intros (? & ? & ? & ? & F & C' & H). injection F as <- <-. rewrite C in C'.
    injection C' as <- <-. now apply negb_true_iff.
Qed.

(** The lambda of [filterAlwaysFalseAtoms] rejects the atoms that meet a
    declared atom of the same fingerprint and the opposite polarity, and
    the impossible comparisons. *)
Lemma not_always_false_atom_spec (h : IAST -> Hash)
  (metadata : StorageInMemoryMetadata) (atom : AtomicFormula) :
  not_always_false_atom h metadata atom = false
  <-> (exists c, declared_atom (getConstraints metadata) c
                 /\ h (ast c) = h (ast atom) /\ negative c <> negative atom)
      \/ impossible_comparison (getGraph (getConstraints metadata)) atom.
Proof.
  unfold not_always_false_atom.
  rewrite <- checkIfAtomAlwaysFalseFullMatch_spec, <- checkIfAtomAlwaysFalseGraph_spec.
  destruct (checkIfAtomAlwaysFalseFullMatch h atom (getConstraints metadata)),
    (checkIfAtomAlwaysFalseGraph atom (getGraph (getConstraints metadata)));
    cbn; intuition congruence.
Qed.

(** C5, as the code has it.  The step [filterAlwaysFalseAtoms] of [perform]
    keeps in every group exactly the atoms its lambda accepts, and the
    lambda rejects an atom if and only if (a) some declared constraint atom
    has an expression of the same fingerprint and the opposite polarity, or
    (b) the atom's expression is a function of exactly two arguments and
    [isPossibleCompare] is false for its negation-adjusted relation; an
    atom whose expression is not such a function passes the graph check. *)
Theorem filterAlwaysFalseAtoms_criterion (h : IAST -> Hash)
  (metadata : StorageInMemoryMetadata) :
  (forall atom,
      not_always_false_atom h metadata atom = false
      <-> (exists c, declared_atom (getConstraints metadata) c
                     /\ h (ast c) = h (ast atom) /\ negative c <> negative atom)
          \/ impossible_comparison (getGraph (getConstraints metadata)) atom)
  /\ (forall atom, is_binary_function atom = false ->
                   checkIfAtomAlwaysFalseGraph atom (getGraph (getConstraints metadata))
                   = false)
  /\ (forall cnf, filterAlwaysFalseAtoms (not_always_false_atom h metadata) cnf
                  = map (filter (not_always_false_atom h metadata)) cnf).
Proof.
  split; [ | split].
  - intros atom. apply not_always_false_atom_spec.
  - intros atom B.
    destruct (checkIfAtomAlwaysFalseGraph atom (getGraph (getConstraints metadata))) eqn:E;
      [ | reflexivity].
    apply checkIfAtomAlwaysFalseGraph_spec in E.
    destruct E as (name & arguments & arg0 & arg1 & E1 & E2 & _).
    unfold is_binary_function in B. rewrite E1 in B. cbn in B. rewrite E2 in B.
    discriminate.
  - reflexivity.
Qed.

(** A graph that knows nothing: no comparison is always true, every
    comparison is possible, no expression equals a constant. *)
Definition empty_graph : ComparisonGraph :=
  {| isAlwaysCompare := fun _ _ _ => false;
     isPossibleCompare := fun _ _ _ => true;
     getEqualConst := fun _ => None |}.

Definition metadata_of (data : list (list AtomicFormula)) (graph : ComparisonGraph)
  : StorageInMemoryMetadata :=
  {| getConstraints := {| getConstraintData := data; getGraph := graph |} |}.

(** C5 as stated fails: under no 128-bit fingerprint are the rejected atoms
    exactly those with a declared atom of the same expression and the
    opposite polarity, or an impossible comparison. *)
Lemma filterAlwaysFalseAtoms_not_by_expression :
  ~ exists h : IAST -> Hash,
      is_128_bit h
      /\ forall metadata atom,
           not_always_false_atom h metadata atom = false
           <-> (exists c, declared_atom (getConstraints metadata) c
                          /\ ast c = ast atom /\ negative c <> negative atom)
               \/ impossible_comparison (getGraph (getConstraints metadata)) atom.
Proof.
  intros (h & Hh & Hall_h).
  destruct (tree_hash_collision h (fun i => ASTLiteral (FieldInt (Z.of_nat i))) Hh)
    as (i & j & Hij & E).
  set (ci := {| negative := true; ast := ASTLiteral (FieldInt (Z.of_nat i)) |}).
  set (aj := positive_atom (ASTLiteral (FieldInt (Z.of_nat j)))).
  specialize (Hall_h (metadata_of [[ci]] empty_graph) aj).
  assert (R : not_always_false_atom h (metadata_of [[ci]] empty_graph) aj = false).
  { apply not_always_false_atom_spec. left. exists ci.
    split; [exists [ci]; cbn; auto | ]. split; [exact E | discriminate]. }
  apply Hall_h in R. destruct R as [(c & (grp & Hg & Hc) & Ea & _) | (? & ? & ? & ? & F & _)].
  - cbn in Hg. destruct Hg as [<- | []]. destruct Hc as [<- | []].
    cbn in Ea. injection Ea as Ea. lia.
  - discriminate F.
Qed.

(** ** [checkIfGroupAlwaysTrueFullMatch]: the counters *)

(** The counters decremented, in the order of the two loops: the groups of
    the declared atoms that fully match an atom of the group. *)
Definition full_match (h : IAST -> Hash) (atom c : AtomicFormula) : bool :=
  MatchState_eqb (match_ h c atom) FULL_MATCH.

Definition hits_of_atom (h : IAST -> Hash) (cd : ConstraintsDescription)
  (atom : AtomicFormula) : list nat :=
  map (fun ia : AtomId * AtomicFormula => and_group (fst ia))
      (filter (fun ia : AtomId * AtomicFormula => full_match h atom (snd ia))
              (candidates h cd (ast atom))).

Definition hits (h : IAST -> Hash) (cd : ConstraintsDescription) (group : OrGroup)
  : list nat :=
  flat_map (hits_of_atom h cd) group.

(** Decrementing the counters in turn, until one reaches zero. *)
Fixpoint run (hs : list nat) (found : list Z) : bool :=
  match hs with
  | [] => false
  | k :: r =>
      let found' := vector_dec found k in
      if Z.eqb (vector_get found' k) 0 then true else run r found'
  end.

Lemma vector_dec_length (v : list Z) : forall i, List.length (vector_dec v i) = List.length v.
Proof.
  induction v as [| x r IH]; intros [| i]; cbn; auto.
Qed.

Lemma vector_dec_same (v : list Z) :
  forall i, i < List.length v ->
  vector_get (vector_dec v i) i = size_t_dec (vector_get v i).
Proof.
  unfold vector_get. induction v as [| x r IH]; intros [| i] Hi; cbn in *;
    [lia | lia | reflexivity | apply IH; lia].
Qed.

Lemma vector_dec_other (v : list Z) :
  forall i j, i <> j -> vector_get (vector_dec v i) j = vector_get v j.
Proof.
  unfold vector_get. induction v as [| x r IH]; intros [| i] [| j] Hij; cbn;
    try reflexivity; [lia | apply IH; lia].
Qed.

(** A counter reaches zero exactly when it is decremented as often as it
    counts. *)
Lemma run_spec (hs : list nat) :
  forall found,
  (forall k, In k hs -> k < List.length found /\ (0 < vector_get found k)%Z) ->
  run hs found = true
  <-> exists k, In k hs /\ (vector_get found k <= Z.of_nat (count_occ Nat.eq_dec hs k))%Z.
Proof.
  induction hs as [| k0 r IH]; intros found Hf.
  - cbn. split; [discriminate | intros (k & [] & _)].
  - cbn [run]. destruct (Hf k0 (or_introl eq_refl)) as [Hlen Hpos].
    rewrite vector_dec_same by exact Hlen. unfold size_t_dec.
    destruct (Z.eqb_spec (vector_get found k0) 0) as [E0 | _]; [lia | ].
    destruct (Z.eqb_spec (vector_get found k0 - 1) 0) as [E1 | N1].
    + split; [intros _ | reflexivity]. exists k0. split; [now left | ].
      cbn [count_occ]. destruct (Nat.eq_dec k0 k0); [lia | contradiction].
    + rewrite IH.
      * split; intros (k & Hk & Hc).
        -- exists k. split; [now right | ]. cbn [count_occ].
           destruct (Nat.eq_dec k0 k) as [<- | Hne].
           ++ rewrite vector_dec_same in Hc by exact Hlen. unfold size_t_dec in Hc.
              destruct (Z.eqb_spec (vector_get found k0) 0); lia.
           ++ rewrite vector_dec_other in Hc by exact Hne. exact Hc.
        -- cbn [count_occ] in Hc. destruct (Nat.eq_dec k0 k) as [<- | Hne].
           ++ assert (Hin : In k0 r).
              { apply (count_occ_In Nat.eq_dec). lia. }
              exists k0. split; [exact Hin | ].
              rewrite vector_dec_same by exact Hlen. unfold size_t_dec.
              destruct (Z.eqb_spec (vector_get found k0) 0); lia.
           ++ destruct Hk as [-> | Hk]; [contradiction | ].
              exists k. split; [exact Hk | ].
              rewrite vector_dec_other by exact Hne. exact Hc.
      * intros k Hk. rewrite vector_dec_length.
        destruct (Hf k (or_intror Hk)) as [Hl Hp]. split; [exact Hl | ].
        destruct (Nat.eq_dec k0 k) as [<- | Hne].
        -- rewrite vector_dec_same by exact Hlen. unfold size_t_dec.
           destruct (Z.eqb_spec (vector_get found k0) 0); lia.
        -- rewrite vector_dec_other by exact Hne. exact Hp.
Qed.

(** The inner loop decrements the counters of its hits. *)
Lemma checkIfGroupAlwaysTrueFullMatch_atom_run (h : IAST -> Hash) (atom : AtomicFormula)
  (l : list (AtomId * AtomicFormula)) :
  forall found rest,
  (let (returned, found') :=
     checkIfGroupAlwaysTrueFullMatch_atom h atom (map fst l) (map snd l) found in
   if returned then true else run rest found')
  = run (map (fun ia : AtomId * AtomicFormula => and_group (fst ia))
             (filter (fun ia : AtomId * AtomicFormula => full_match h atom (snd ia)) l)
         ++ rest) found.
Proof.
  induction l as [| [id c] l IH]; intros found rest; [reflexivity | ].
  cbn [map fst snd checkIfGroupAlwaysTrueFullMatch_atom filter].
  unfold full_match at 1. destruct (MatchState_eqb (match_ h c atom) FULL_MATCH).
  - cbn [map fst app run].
    destruct (Z.eqb (vector_get (vector_dec found (and_group id)) (and_group id)) 0);
      [reflexivity | apply IH].
  - apply IH.
Qed.

Lemma checkIfGroupAlwaysTrueFullMatch_loop_run (h : IAST -> Hash)
  (cd : ConstraintsDescription) (group : OrGroup) :
  forall found,
  checkIfGroupAlwaysTrueFullMatch_loop h group cd found = run (hits h cd group) found.
Proof.
  induction group as [| atom rest IH]; intros found; [reflexivity | ].
  cbn [checkIfGroupAlwaysTrueFullMatch_loop hits flat_map]. fold (hits h cd rest).
  unfold hits_of_atom.
  pose proof (getAtomIds_candidates h cd (ast atom)) as G.
  destruct (getAtomIds h cd (ast atom)) as [ids | ].
  - destruct G as [-> ->].
    rewrite <- checkIfGroupAlwaysTrueFullMatch_atom_run.
    destruct (checkIfGroupAlwaysTrueFullMatch_atom h atom _ _ found) as [[|] found'];
      [reflexivity | apply IH].
  - rewrite G. cbn. apply IH.
Qed.

(** How many atoms of a declared group fully match the atoms of [group],
    an atom of [group] counting once for each declared atom it matches. *)
Fixpoint total_matches (h : IAST -> Hash) (group : OrGroup) (grp : list AtomicFormula) : nat :=
  match group with
  | [] => 0
  | atom :: rest => List.length (filter (full_match h atom) grp) + total_matches h rest grp
  end.

Lemma full_match_iff (h : IAST -> Hash) (atom c : AtomicFormula) :
  full_match h atom c = true
  <-> h (ast atom) = h (ast c) /\ negative atom = negative c.
Proof.
  unfold full_match. rewrite MatchState_eqb_eq, match_FULL_MATCH. intuition congruence.
Qed.

Lemma count_occ_map_filter {A : Type} (f : A -> nat) (k : nat) (l : list A) :
  count_occ Nat.eq_dec (map f l) k = List.length (filter (fun x => Nat.eqb (f x) k) l).
Proof.
  induction l as [| x r IH]; [reflexivity | ].
  cbn [map count_occ filter]. destruct (Nat.eq_dec (f x) k) as [E | E].
  - rewrite (proj2 (Nat.eqb_eq _ _) E). cbn. now rewrite IH.
  - rewrite (proj2 (Nat.eqb_neq _ _) E). exact IH.
Qed.

Lemma filter_filter {A : Type} (p q : A -> bool) (l : list A) :
  filter p (filter q l) = filter (fun x => q x && p x) l.
Proof.
  induction l as [| x r IH]; [reflexivity | ].
  cbn [filter]. destruct (q x); cbn; [destruct (p x) | ]; now rewrite IH.
Qed.

Lemma filter_indexed_length {A : Type} (p : A -> bool) (l : list A) :
  forall start,
  List.length (filter (fun ja : nat * A => p (snd ja)) (combine (seq start (List.length l)) l))
  = List.length (filter p l).
Proof.
  induction l as [| x r IH]; intros start; [reflexivity | ].
  cbn [List.length seq combine filter snd]. destruct (p x); cbn; now rewrite IH.
Qed.

(** The entries of the table that belong to group [k] and satisfy [p] are
    as many as the atoms of that group that satisfy [p]. *)
Lemma atom_table_count (p : AtomicFormula -> bool) (k : nat)
  (data : list (list AtomicFormula)) :
  List.length (filter (fun ia : AtomId * AtomicFormula =>
                         p (snd ia) && Nat.eqb (and_group (fst ia)) k)
                      (atom_table data))
  = match nth_error data k with
    | Some grp => List.length (filter p grp)
    | None => 0
    end.
Proof.
  unfold atom_table, indexed.
  assert (G : forall start,
    List.length
      (filter (fun ia : AtomId * AtomicFormula =>
                 p (snd ia) && Nat.eqb (and_group (fst ia)) k)
         (flat_map (fun ig : nat * list AtomicFormula =>
                      map (fun ja : nat * AtomicFormula =>
                             ({| and_group := fst ig; atom_index := fst ja |}, snd ja))
                          (combine (seq 0 (List.length (snd ig))) (snd ig)))
                   (combine (seq start (List.length data)) data)))
    = if Nat.leb start k
      then match nth_error data (k - start) with
           | Some grp => List.length (filter p grp)
           | None => 0
           end
      else 0).
  { induction data as [| grp data IH]; intros start.
    - cbn. destruct (Nat.leb start k); [destruct (k - start) | ]; reflexivity.
    - cbn [List.length seq combine flat_map fst snd].
      rewrite filter_app, length_app, IH.
      assert (Hg : List.length
                (filter (fun ia : AtomId * AtomicFormula =>
                           p (snd ia) && Nat.eqb (and_group (fst ia)) k)
                   (map (fun ja : nat * AtomicFormula =>
                           ({| and_group := start; atom_index := fst ja |}, snd ja))
                        (combine (seq 0 (List.length grp)) grp)))
              = if Nat.eqb start k then List.length (filter p grp) else 0).
      { destruct (Nat.eqb start k) eqn:E.
        - rewrite <- (filter_indexed_length p grp 0).
          generalize (combine (seq 0 (List.length grp)) grp).
          intros l. induction l as [| ja l IHl]; [reflexivity | ].
          cbn [map filter fst snd and_group]. rewrite E, andb_true_r.
          destruct (p (snd ja)); cbn; now rewrite IHl.
        - generalize (combine (seq 0 (List.length grp)) grp).
          intros l. induction l as [| ja l IHl]; [reflexivity | ].
          cbn [map filter fst snd and_group]. rewrite E, andb_false_r. exact IHl. }
      rewrite Hg.
      destruct (Nat.eqb_spec start k) as [Heq | Hne].
      + rewrite Heq, Nat.leb_refl, Nat.sub_diag. cbn [nth_error].
        replace (Nat.leb (S k) k) with false by (symmetry; apply Nat.leb_gt; lia). lia.
      + destruct (Nat.leb_spec start k) as [Hle | Hgt].
        * replace (Nat.leb (S start) k) with true by (symmetry; apply Nat.leb_le; lia).
          replace (k - start) with (S (k - S start)) by lia. reflexivity.
        * replace (Nat.leb (S start) k) with false by (symmetry; apply Nat.leb_gt; lia).
          reflexivity. }
  rewrite G. cbn. now rewrite Nat.sub_0_r.
Qed.

Lemma hits_of_atom_count (h : IAST -> Hash) (cd : ConstraintsDescription)
  (atom : AtomicFormula) (k : nat) :
  count_occ Nat.eq_dec (hits_of_atom h cd atom) k
  = match nth_error (getConstraintData cd) k with
    | Some grp => List.length (filter (full_match h atom) grp)
    | None => 0
    end.
Proof.
  unfold hits_of_atom, candidates.
  rewrite (count_occ_map_filter (fun ia : AtomId * AtomicFormula => and_group (fst ia))).
  rewrite !filter_filter, <- atom_table_count. f_equal. apply filter_ext.
  intros [id c]. cbn [fst snd].
  destruct (full_match h atom c) eqn:F.
  - apply full_match_iff in F. destruct F as [F _].
    rewrite (proj2 (N.eqb_eq _ _) (eq_sym F)). reflexivity.
  - now rewrite andb_false_r.
Qed.

Lemma hits_count (h : IAST -> Hash) (cd : ConstraintsDescription) (group : OrGroup) (k : nat) :
  count_occ Nat.eq_dec (hits h cd group) k
  = match nth_error (getConstraintData cd) k with
    | Some grp => total_matches h group grp
    | None => 0
    end.
Proof.
  induction group as [| atom rest IH].
  - cbn. now destruct (nth_error _ k).
  - cbn [hits flat_map total_matches]. fold (hits h cd rest).
    rewrite count_occ_app, IH, hits_of_atom_count.
    now destruct (nth_error _ k).
Qed.

Lemma total_matches_nil (h : IAST -> Hash) (group : OrGroup) : total_matches h group [] = 0.
Proof. induction group; cbn; auto. Qed.

(** What the code computes, duplicates included: the answer is [true]
    exactly when some non-empty declared group has at most as many atoms as
    there are full matches between it and the atoms of [group]. *)
Lemma checkIfGroupAlwaysTrueFullMatch_counts (h : IAST -> Hash)
  (cd : ConstraintsDescription) (group : OrGroup) :
  checkIfGroupAlwaysTrueFullMatch h group cd = true
  <-> exists k grp, nth_error (getConstraintData cd) k = Some grp
                    /\ 0 < List.length grp <= total_matches h group grp.
Proof.
  unfold checkIfGroupAlwaysTrueFullMatch.
  rewrite checkIfGroupAlwaysTrueFullMatch_loop_run.
  set (found := map (fun g : list AtomicFormula => Z.of_nat (List.length g))
                    (getConstraintData cd)).
  assert (Hget : forall k grp, nth_error (getConstraintData cd) k = Some grp ->
                               vector_get found k = Z.of_nat (List.length grp)).
  { intros k grp Hk. unfold vector_get, found.
    apply nth_error_nth. rewrite nth_error_map, Hk. reflexivity. }
  assert (Hin : forall k, In k (hits h cd group) ->
                exists grp, nth_error (getConstraintData cd) k = Some grp
                            /\ 0 < total_matches h group grp).
  { intros k Hk. apply (count_occ_In Nat.eq_dec) in Hk. rewrite hits_count in Hk.
    destruct (nth_error (getConstraintData cd) k) as [grp | ]; [ | lia].
    exists grp. split; [reflexivity | lia]. }
  assert (Hne : forall grp, 0 < total_matches h group grp -> 0 < List.length grp).
  { intros [| c grp] H; [rewrite total_matches_nil in H; lia | cbn; lia]. }
  rewrite run_spec.
  - split.
    + intros (k & Hk & Hc). destruct (Hin k Hk) as (grp & Hg & Ht).
      exists k, grp. split; [exact Hg | ].
      rewrite (Hget k grp Hg), hits_count, Hg in Hc. specialize (Hne grp Ht). lia.
    + intros (k & grp & Hg & Hlen). exists k.
      assert (Hc : count_occ Nat.eq_dec (hits h cd group) k = total_matches h group grp)
        by (rewrite hits_count, Hg; reflexivity).
      split; [apply (count_occ_In Nat.eq_dec); lia | ].
      rewrite (Hget k grp Hg), Hc. lia.
  - intros k Hk. destruct (Hin k Hk) as (grp & Hg & Ht). split.
    + unfold found. rewrite length_map. apply nth_error_Some. congruence.
    + rewrite (Hget k grp Hg). specialize (Hne grp Ht). lia.
Qed.

(** What identifies an atom for the matching: the fingerprint of its
    expression and its polarity. *)
Definition atom_key (h : IAST -> Hash) (a : AtomicFormula) : Hash * bool :=
  (h (ast a), negative a).

(** A declared atom is covered when an atom of the group fully matches it. *)
Definition covered (h : IAST -> Hash) (group : OrGroup) (c : AtomicFormula) : bool :=
  existsb (fun atom => full_match h atom c) group.

Lemma covered_iff (h : IAST -> Hash) (group : OrGroup) (c : AtomicFormula) :
  covered h group c = true
  <-> exists a, In a group /\ h (ast a) = h (ast c) /\ negative a = negative c.
Proof.
  unfold covered. rewrite existsb_exists. split.
  - intros (a & Ha & F). apply full_match_iff in F. eauto.
  - intros (a & Ha & F). exists a. split; [exact Ha | now apply full_match_iff].
Qed.

Lemma filter_disjoint_length {A : Type} (p q : A -> bool) (l : list A) :
  (forall x, In x l -> p x = true -> q x = true -> False) ->
  List.length (filter (fun x => p x || q x) l)
  = List.length (filter p l) + List.length (filter q l).
Proof.
  induction l as [| x r IH]; intros Hd; [reflexivity | ].
  cbn [filter]. specialize (IH (fun y Hy => Hd y (or_intror Hy))).
  destruct (p x) eqn:P, (q x) eqn:Q; cbn; rewrite ?IH; try lia.
  exfalso. apply (Hd x); auto. now left.
Qed.

Lemma filter_length_all {A : Type} (p : A -> bool) (l : list A) :
  List.length (filter p l) <= List.length l
  /\ (List.length l <= List.length (filter p l) <-> forall x, In x l -> p x = true).
Proof.
  induction l as [| x r [IH1 IH2]]; cbn [filter List.length In].
  - split; [lia | ]. split; [intros _ ? [] | lia].
  - destruct (p x) eqn:P; cbn [List.length].
    + split; [lia | ]. rewrite <- Nat.succ_le_mono, IH2. split.
      * intros H y [<- | Hy]; auto.
      * intros H y Hy. apply H. now right.
    + split; [lia | ]. split; [lia | ].
      intros H. specialize (H x (or_introl eq_refl)). congruence.
Qed.

(** Without two atoms of the same fingerprint and polarity in the group,
    the full matches count the covered declared atoms. *)
Lemma total_matches_covered (h : IAST -> Hash) (grp : list AtomicFormula) (group : OrGroup) :
  NoDup (map (atom_key h) group) ->
  total_matches h group grp = List.length (filter (covered h group) grp).
Proof.
  induction group as [| a rest IH]; intros Hnd.
  - cbn. induction grp; cbn; auto.
  - cbn [map] in Hnd. apply NoDup_cons_iff in Hnd. destruct Hnd as [Hnin Hnd].
    cbn [total_matches]. rewrite (IH Hnd).
    rewrite <- filter_disjoint_length; [reflexivity | ].
    intros c _ F C. apply covered_iff in C. destruct C as (a' & Ha' & E1 & E2).
    apply full_match_iff in F. destruct F as [F1 F2].
    apply Hnin. apply in_map_iff. exists a'. split; [ | exact Ha'].
    unfold atom_key. congruence.
Qed.

(** Without duplicates in the group, a group found always true covers a
    declared group. *)
Lemma checkIfGroupAlwaysTrueFullMatch_covered (h : IAST -> Hash)
  (cd : ConstraintsDescription) (group : OrGroup) :
  NoDup (map (atom_key h) group) ->
  checkIfGroupAlwaysTrueFullMatch h group cd = true ->
  exists grp,
    In grp (getConstraintData cd) /\ grp <> []
    /\ forall c, In c grp -> covered h group c = true.
Proof.
  intros Hnd H. apply checkIfGroupAlwaysTrueFullMatch_counts in H.
  destruct H as (k & grp & Hk & Hlen). exists grp.
  split; [eapply nth_error_In; exact Hk | ].
  split; [intros ->; cbn in Hlen; lia | ].
  rewrite (total_matches_covered h grp group Hnd) in Hlen.
  intros c Hc.
  apply (proj2 (filter_length_all (covered h group) grp)); [lia | exact Hc].
Qed.

(** C3, as the code has it.  For a group in which no two atoms share both
    fingerprint and polarity, [checkIfGroupAlwaysTrueFullMatch] answers
    [true] if and only if there is a non-empty declared constraint group
    each of whose atoms has, in the group, an atom with the same
    fingerprint and the same polarity. *)
Theorem checkIfGroupAlwaysTrueFullMatch_superset (h : IAST -> Hash)
  (cd : ConstraintsDescription) (group : OrGroup) :
  NoDup (map (atom_key h) group) ->
  checkIfGroupAlwaysTrueFullMatch h group cd = true
  <-> exists grp,
        In grp (getConstraintData cd) /\ grp <> []
        /\ forall c, In c grp ->
             exists a, In a group /\ h (ast a) = h (ast c) /\ negative a = negative c.
Proof.
  intros Hnd. split.
  - intros H.
    destruct (checkIfGroupAlwaysTrueFullMatch_covered h cd group Hnd H)
      as (grp & Hin & Hne & Hall).
    exists grp. split; [exact Hin | ]. split; [exact Hne | ].
    intros c Hc. apply covered_iff. auto.
  - intros (grp & Hin & Hne & Hall). apply checkIfGroupAlwaysTrueFullMatch_counts.
    apply In_nth_error in Hin. destruct Hin as [k Hk].
    exists k, grp. split; [exact Hk | ].
    split; [destruct grp; [contradiction | cbn; lia] | ].
    rewrite (total_matches_covered h grp group Hnd).
    apply (proj2 (filter_length_all (covered h group) grp)).
    intros c Hc. apply covered_iff. auto.
Qed.

(** A fingerprint for the examples: an order-sensitive 128-bit hash of the
    kind, the name or value, and the children of a node. *)
Definition mix (a b : N) : N := ((a * 1099511628211 + b) mod 2 ^ 128)%N.

Fixpoint string_hash (s : string) : N :=
  match s with
  | EmptyString => 1469598103934665603%N
  | String c r => mix (string_hash r) (N_of_ascii c)
  end.

Fixpoint example_hash (t : IAST) : Hash :=
  match t with
  | ASTIdentifier n => mix 1 (string_hash n)
  | ASTLiteral (FieldInt z) => mix 2 (Z.to_N (if Z.ltb z 0 then 1 - 2 * z else 2 * z))
  | ASTLiteral (FieldString s) => mix 3 (string_hash s)
  | ASTExpressionList l =>
      (fix go (l : list IAST) : N :=
         match l with
         | [] => 4%N
         | x :: r => mix (go r) (example_hash x)
         end) l
  | ASTFunction n a => mix (mix 5 (string_hash n)) (example_hash a)
  end.

Lemma mix_128 (a b : N) : (mix a b < 2 ^ 128)%N.
Proof. unfold mix. apply N.mod_lt. discriminate. Qed.

Lemma example_hash_128 : is_128_bit example_hash.
Proof.
  intros t. destruct t as [n | [z | s] | [| x r] | n a]; cbn [example_hash];
    try apply mix_128. reflexivity.
Qed.

(** The theorem on the group [greater(x, 0) OR equals(y, 1)] against the
    declared constraint [greater(x, 0)]: the group is found always true. *)
Lemma checkIfGroupAlwaysTrueFullMatch_superset_witness :
  checkIfGroupAlwaysTrueFullMatch example_hash
    [positive_atom (makeASTFunction "greater" [ASTIdentifier "x"; ASTLiteral (FieldInt 0)]);
     positive_atom (makeASTFunction "equals" [ASTIdentifier "y"; ASTLiteral (FieldInt 1)])]
    {| getConstraintData :=
         [[positive_atom
             (makeASTFunction "greater" [ASTIdentifier "x"; ASTLiteral (FieldInt 0)])]];
       getGraph := empty_graph |} = true.
Proof.
  apply (checkIfGroupAlwaysTrueFullMatch_superset example_hash).
  - apply NoDup_cons.
    + intros [H | []]. vm_compute in H. discriminate H.
    + apply NoDup_cons; [intros [] | apply NoDup_nil].
  - eexists. split; [left; reflexivity | ]. split; [discriminate | ].
    intros c [<- | []]. eexists. split; [left; reflexivity | ]. split; reflexivity.
Defined.

(** The superset test of C3, with atoms compared by their expressions. *)
Definition superset_of_declared_group (cd : ConstraintsDescription) (group : OrGroup) : Prop :=
  exists grp,
    In grp (getConstraintData cd)
    /\ forall c, In c grp ->
         exists a, In a group /\ ast a = ast c /\ negative a = negative c.

(** C3 as stated fails, in three ways.  Whatever the fingerprint, the
    group [a OR a] is found always true against the declared group
    [a OR b], whose atom [b] it lacks: each copy of [a] decrements the
    counter.  With a 128-bit fingerprint, a group without duplicates is
    found always true against a declared atom of another expression and
    the same fingerprint.  And an empty declared group, which every group
    contains, is never found. *)
Lemma checkIfGroupAlwaysTrueFullMatch_not_superset_test :
  (~ exists h : IAST -> Hash,
       forall cd group,
         checkIfGroupAlwaysTrueFullMatch h group cd = true
         <-> superset_of_declared_group cd group)
  /\ (~ exists h : IAST -> Hash,
        is_128_bit h
        /\ forall cd group,
             NoDup (map (atom_key h) group) ->
             (checkIfGroupAlwaysTrueFullMatch h group cd = true
              <-> superset_of_declared_group cd group))
  /\ (~ exists h : IAST -> Hash,
        forall cd group,
          NoDup (map (atom_key h) group) ->
          superset_of_declared_group cd group ->
          checkIfGroupAlwaysTrueFullMatch h group cd = true).
Proof.
  split; [ | split].
  - intros (h & Hall_h).
    set (a := positive_atom (ASTIdentifier "a")).
    set (b := positive_atom (ASTIdentifier "b")).
    set (cd := {| getConstraintData := [[a; b]]; getGraph := empty_graph |}).
    assert (T : checkIfGroupAlwaysTrueFullMatch h [a; a] cd = true).
    { apply checkIfGroupAlwaysTrueFullMatch_counts. exists 0, [a; b].
      split; [reflexivity | ]. cbn [total_matches List.length filter].
      replace (full_match h a a) with true
        by (symmetry; apply full_match_iff; split; reflexivity).
      destruct (full_match h a b); cbn; lia. }
    apply Hall_h in T. destruct T as (grp & [<- | []] & Hall).
    destruct (Hall b (or_intror (or_introl eq_refl))) as (x & Hx & E & _).
    destruct Hx as [<- | [<- | []]]; discriminate E.
  - intros (h & Hh & Hall_h).
    destruct (tree_hash_collision h (fun i => ASTLiteral (FieldInt (Z.of_nat i))) Hh)
      as (i & j & Hij & E).
    set (ci := positive_atom (ASTLiteral (FieldInt (Z.of_nat i)))).
    set (aj := positive_atom (ASTLiteral (FieldInt (Z.of_nat j)))).
    set (cd := {| getConstraintData := [[ci]]; getGraph := empty_graph |}).
    assert (Hnd : NoDup (map (atom_key h) [aj]))
      by (apply NoDup_cons; [intros [] | apply NoDup_nil]).
    assert (T : checkIfGroupAlwaysTrueFullMatch h [aj] cd = true).
    { apply checkIfGroupAlwaysTrueFullMatch_counts. exists 0, [ci].
      split; [reflexivity | ]. cbn [total_matches List.length filter].
      replace (full_match h aj ci) with true
        by (symmetry; apply full_match_iff; split; [now symmetry | reflexivity]).
      cbn. lia. }
    apply (Hall_h cd [aj] Hnd) in T. destruct T as (grp & [<- | []] & Hall).
    destruct (Hall ci (or_introl eq_refl)) as (x & [<- | []] & F & _).
    injection F as F. lia.
  - intros (h & Hall_h).
    set (cd := {| getConstraintData := [[]]; getGraph := empty_graph |}).
    assert (T : checkIfGroupAlwaysTrueFullMatch h [] cd = true).
    { apply Hall_h; [apply NoDup_nil | ].
      exists []. split; [now left | intros c []]. }
    discriminate T.
Qed.

(** ** Constant folding *)

(** A node with other children in place of its own. *)
Definition with_children (t : IAST) (l : list IAST) : IAST :=
  match t, l with
  | ASTExpressionList _, _ => ASTExpressionList l
  | ASTFunction name _, [a] => ASTFunction name a
  | _, _ => t
  end.

Lemma with_children_same (t : IAST) : with_children t (children t) = t.
Proof. destruct t; reflexivity. Qed.

(** C6.  [replaceToConstants] is top-down and stops at a replacement: a
    tree for which the graph has an equal constant becomes that constant,
    whatever the graph knows about the parts of the tree; a tree for which
    it has none keeps its own node, and each of its children is replaced
    by the same rule. *)
Theorem replaceToConstants_top_down (graph : ComparisonGraph) (t : IAST) :
  (forall c, getEqualConst graph t = Some c ->
             replaceToConstants graph t = c
             /\ forall graph', getEqualConst graph' t = Some c ->
                               replaceToConstants graph' t = c)
  /\ (getEqualConst graph t = None ->
      replaceToConstants graph t
      = with_children t (map (replaceToConstants graph) (children t))).
Proof.
  split.
  - intros c Hc. split.
    + destruct t; cbn [replaceToConstants]; rewrite Hc; reflexivity.
    + intros graph' Hc'. destruct t; cbn [replaceToConstants]; rewrite Hc'; reflexivity.
  - intros Hn. destruct t; cbn [replaceToConstants]; rewrite Hn; reflexivity.
Qed.

(** Where the graph has no constant at all, nothing changes. *)
Lemma replaceToConstants_no_constant (graph : ComparisonGraph) :
  (forall t, getEqualConst graph t = None) ->
  forall t, replaceToConstants graph t = t.
Proof.
  intros Hn t. induction t as [n | v | l IH | n a IH] using IAST_ind';
    cbn [replaceToConstants]; rewrite Hn; try reflexivity.
  - f_equal. induction IH as [| x r Hx _ IHr]; [reflexivity | ].
    cbn [map]. now rewrite Hx, IHr.
  - now rewrite IH.
Qed.

(** ** The precondition of [perform] *)

(** C8.  Without a WHERE expression, or without a metadata snapshot,
    [perform] leaves the select query as it is and logs nothing: no
    expression is replaced and no CNF is built. *)
Theorem perform_without_where_or_metadata (h : IAST -> Hash) (cnf_limit : nat)
  (appender : StorageInMemoryMetadata -> CNFQuery -> CNFQuery)
  (this : WhereConstraintsOptimizer) (log : list LogLine) :
  where_ (select_query this) = None \/ metadata_snapshot this = None ->
  perform h cnf_limit appender this log = (select_query this, log).
Proof.
  intros [Hw | Hm]; unfold perform.
  - rewrite Hw. reflexivity.
  - rewrite Hm. destruct (where_ (select_query this)); reflexivity.
Qed.

(** The theorem on a query with a WHERE expression and no metadata. *)
Lemma perform_without_where_or_metadata_witness :
  perform example_hash 100 (fun _ cnf => cnf)
    {| select_query := {| where_ := Some (ASTIdentifier "x"); other_expressions := [] |};
       metadata_snapshot := None;
       optimize_append_index := true |} []
  = ({| where_ := Some (ASTIdentifier "x"); other_expressions := [] |}, []).
Proof.
  apply (perform_without_where_or_metadata example_hash 100 (fun _ cnf => cnf)
           {| select_query := {| where_ := Some (ASTIdentifier "x");
                                 other_expressions := [] |};
              metadata_snapshot := None;
              optimize_append_index := true |} []).
  right. reflexivity.
Defined.

(* ===================================================================== *)
(** * Evaluation of a predicate at a row                                  *)
(* ===================================================================== *)

(** Modelled from the spec: [evaluate(expression, row)].  The sources hold
    no evaluator; the connectives [and], [or], [not] and the six
    comparisons have their meaning, every other function and the order of
    values are left open. *)
#[local] Unset Elimination Schemes.
Inductive Value : Set :=
| VInt (z : Z)
| VString (s : string)
| VTuple (l : list Value).
#[local] Set Elimination Schemes.

(** A row gives a value to every column. *)
Definition Row : Set := string -> Value.

Definition truthy (v : Value) : bool :=
  match v with
  | VInt z => negb (Z.eqb z 0)
  | _ => false
  end.

Definition of_bool (b : bool) : Value := VInt (if b then 1 else 0).

Definition elements (v : Value) : list Value :=
  match v with
  | VTuple l => l
  | _ => []
  end.

Definition literal (f : Field) : Value :=
  match f with
  | FieldInt z => VInt z
  | FieldString s => VString s
  end.

(** Whether a relation holds of two values that compare as [c]; nothing
    is known of [UNKNOWN]. *)
Definition holds (r : CompareResult) (c : comparison) : option bool :=
  match r, c with
  | UNKNOWN, _ => None
  | LESS, Lt | LESS_OR_EQUAL, (Lt | Eq) | EQUAL, Eq
  | GREATER_OR_EQUAL, (Gt | Eq) | GREATER, Gt | NOT_EQUAL, (Lt | Gt) => Some true
  | _, _ => Some false
  end.

Section Evaluation.

Variable compare_values : Value -> Value -> comparison.
Variable other_function : string -> Value -> Value.

(** Modelled from the spec: the value of a function on the value of its
    arguments. *)
Definition apply_function (name : string) (arguments : Value) : Value :=
  if String.eqb name "and" then of_bool (forallb truthy (elements arguments))
  else if String.eqb name "or" then of_bool (existsb truthy (elements arguments))
  else
    match elements arguments with
    | [v] =>
        if String.eqb name "not" then of_bool (negb (truthy v))
        else other_function name arguments
    | [a; b] =>
        match holds (getCompareResult name) (compare_values a b) with
        | Some result => of_bool result
        | None => other_function name arguments
        end
    | _ => other_function name arguments
    end.

(** Modelled from the spec: [evaluate(expression, row)]. *)
Fixpoint evaluate (row : Row) (t : IAST) : Value :=
  match t with
  | ASTIdentifier name => row name
  | ASTLiteral value => literal value
  | ASTExpressionList l => VTuple (map (evaluate row) l)
  | ASTFunction name arguments => apply_function name (evaluate row arguments)
  end.

(** Modelled from the spec: an atom holds iff its expression is truthy,
    or falsy when negated; a group is the disjunction of its atoms, a CNF
    the conjunction of its groups. *)
Definition evaluate_atom (row : Row) (a : AtomicFormula) : bool :=
  xorb (negative a) (truthy (evaluate row (ast a))).

Definition evaluate_group (row : Row) (g : OrGroup) : bool :=
  existsb (evaluate_atom row) g.

Definition evaluate_cnf (row : Row) (cnf : CNFQuery) : bool :=
  forallb (evaluate_group row) cnf.

(** A query without WHERE keeps every row. *)
Definition evaluate_where (row : Row) (q : ASTSelectQuery) : bool :=
  match where_ q with
  | Some e => truthy (evaluate row e)
  | None => true
  end.

(** A row consistent with the table's constraints: every declared group
    holds. *)
Definition satisfies (row : Row) (cd : ConstraintsDescription) : Prop :=
  evaluate_cnf row (getConstraintData cd) = true.

End Evaluation.

(* ===================================================================== *)
(** * The whole rewrite                                                   *)
(* ===================================================================== *)

(** ** Soundness *)

(** The table declares [CHECK a OR b]; the query asks [WHERE NOT a]. *)
Definition check_a_or_b : StorageInMemoryMetadata :=
  metadata_of [[positive_atom (ASTIdentifier "a"); positive_atom (ASTIdentifier "b")]]
              empty_graph.

Definition where_not_a : ASTSelectQuery :=
  {| where_ := Some (makeASTFunction "not" [ASTIdentifier "a"]);
     other_expressions := [] |}.

(** The row with [a = 0] and [b = 1]. *)
Definition row_a0_b1 : Row :=
  fun name => if String.eqb name "b" then VInt 1 else VInt 0.

Lemma toCNF_atom (limit : nat) (e : IAST) :
  cnf_groups e = [[positive_atom e]] -> toCNF limit e = [[positive_atom e]].
Proof.
  intros E. unfold toCNF. rewrite E. destruct (Nat.leb _ limit); reflexivity.
Qed.

(** C1 fails on the code.  With the declared constraint [a OR b], the
    atom [NOT a] of the query meets the declared atom [a] with the
    opposite polarity and is removed as always false, though [a] is only
    one alternative of its group: whatever the fingerprint, the bound of
    [toCNF] and the evaluation of other functions, [WHERE NOT a] becomes a
    predicate that is false at the row [a = 0, b = 1], which satisfies the
    constraint and which the original predicate accepts. *)
Theorem perform_changes_truth_value (h : IAST -> Hash) (cnf_limit : nat)
  (appender : StorageInMemoryMetadata -> CNFQuery -> CNFQuery)
  (compare_values : Value -> Value -> comparison)
  (other_function : string -> Value -> Value) (log : list LogLine) :
  let this := {| select_query := where_not_a;
                 metadata_snapshot := Some check_a_or_b;
                 optimize_append_index := false |} in
  satisfies compare_values other_function row_a0_b1 (getConstraints check_a_or_b)
  /\ evaluate_where compare_values other_function row_a0_b1 where_not_a = true
  /\ evaluate_where compare_values other_function row_a0_b1
       (fst (perform h cnf_limit appender this log)) = false.
Proof.
  cbn zeta. split; [reflexivity | ]. split; [reflexivity | ].
  unfold perform. cbn [select_query metadata_snapshot optimize_append_index where_not_a where_].
  rewrite toCNF_atom by reflexivity.
  set (atom := {| negative := true; ast := ASTIdentifier "a" |}).
  assert (Hcnf : optimize_cnf h check_a_or_b
                   [[positive_atom (makeASTFunction "not" [ASTIdentifier "a"])]] = [[]]).
  { unfold optimize_cnf.
    change (pullNotOutFunctions
              [[positive_atom (makeASTFunction "not" [ASTIdentifier "a"])]])
      with [[atom]].
    assert (Hg : not_always_true_group h check_a_or_b [atom] = true).
    { unfold not_always_true_group. apply andb_true_iff. split; [ | reflexivity].
      apply negb_true_iff.
      destruct (checkIfGroupAlwaysTrueFullMatch h [atom] (getConstraints check_a_or_b))
        eqn:F; [ | reflexivity].
      apply checkIfGroupAlwaysTrueFullMatch_counts in F.
      destruct F as (k & grp & Hk & Hlen).
      destruct k as [| k]; cbn in Hk; [ | destruct k; discriminate].
      injection Hk as <-. cbn [total_matches List.length filter] in Hlen.
      unfold full_match, match_ in Hlen. cbn [negative atom positive_atom xorb] in Hlen.
      destruct (N.eqb _ _), (N.eqb _ _) in Hlen; cbn in Hlen; lia. }
    assert (Ha : not_always_false_atom h check_a_or_b atom = false).
    { apply not_always_false_atom_spec. left.
      exists (positive_atom (ASTIdentifier "a")). split.
      - eexists. split; [left; reflexivity | left; reflexivity].
      - split; [reflexivity | discriminate]. }
    unfold filterAlwaysTrueGroups. cbn [filter]. rewrite Hg.
    unfold filterAlwaysFalseAtoms. cbn [map filter]. rewrite Ha. reflexivity. }
  rewrite Hcnf. reflexivity.
Qed.

(** ** A second run *)

(** The select query is rewritten whatever the log holds. *)
Lemma perform_log_irrelevant (h : IAST -> Hash) (cnf_limit : nat)
  (appender : StorageInMemoryMetadata -> CNFQuery -> CNFQuery)
  (this : WhereConstraintsOptimizer) (log log' : list LogLine) :
  fst (perform h cnf_limit appender this log)
  = fst (perform h cnf_limit appender this log').
Proof.
  unfold perform.
  destruct (where_ (select_query this)), (metadata_snapshot this); reflexivity.
Qed.


(** The table declares [CHECK x = 3] and [CHECK f(3)]; its graph knows
    that [x] equals the constant 3. *)
Definition graph_x_is_3 : ComparisonGraph :=
  {| isAlwaysCompare := fun _ _ _ => false;
     isPossibleCompare := fun _ _ _ => true;
     getEqualConst := fun t =>
       if IAST_eqb t (ASTIdentifier "x") then Some (ASTLiteral (FieldInt 3)) else None |}.


(* ===================================================================== *)
(** * Part III: the trees in memory                                       *)
(* ===================================================================== *)

(** [replaceToConstants] works in place, through [ASTPtr &]; whether
    [replaceTermsToConstants] leaves its argument alone is a question about
    the nodes in memory.  Here a tree is a set of nodes in a store, a node
    refers to its children by address, [clone] allocates new nodes and an
    assignment to a child slot rewrites the parent node. *)
Module Heap.

(** [replaceToConstants] on trees as values, under a name that the
    in-place version below does not hide. *)
Definition replaceToConstants_value : ComparisonGraph -> IAST -> IAST :=
  replaceToConstants.

Lemma replaceToConstants_value_eq (graph : ComparisonGraph) (t : IAST) :
  replaceToConstants_value graph t
  = match getEqualConst graph t with
    | Some equal_constant => equal_constant
    | None =>
        match t with
        | ASTExpressionList l => ASTExpressionList (map (replaceToConstants_value graph) l)
        | ASTFunction name a => ASTFunction name (replaceToConstants_value graph a)
        | _ => t
        end
    end.
Proof. destruct t; reflexivity. Qed.

(** [ASTPtr]: the address of a node. *)
Definition ASTPtr : Set := nat.

Inductive NodeKind : Set :=
| KIdentifier (name : string)
| KLiteral (value : Field)
| KExpressionList
| KFunction (name : string).

Record Node : Set := { kind : NodeKind; node_children : list ASTPtr }.

(** The store: the node at address [p] is the [p]-th element; allocation
    appends. *)
Definition Store : Set := list Node.

(** An atom whose expression lives in the store. *)
Record AtomicFormula : Set := { negative : bool; ast : ASTPtr }.

(** [l[i] = x]; nothing is written outside [l]. *)
Fixpoint list_set {A : Type} (l : list A) (i : nat) (x : A) : list A :=
  match l, i with
  | [], _ => []
  | _ :: r, O => x :: r
  | y :: r, S i' => y :: list_set r i' x
  end.

(** [term->children[i]] *)
Definition child_slot (s : Store) (term : ASTPtr) (i : nat) : option ASTPtr :=
  match nth_error s term with
  | Some node => nth_error (node_children node) i
  | None => None
  end.

(** [term->children[i] = child] *)
Definition set_child (s : Store) (term : ASTPtr) (i : nat) (child : ASTPtr) : Store :=
  match nth_error s term with
  | Some node =>
      list_set s term {| kind := kind node;
                         node_children := list_set (node_children node) i child |}
  | None => s
  end.

(** The tree a pointer refers to, read to the depth [fuel]. *)
Fixpoint load (fuel : nat) (s : Store) (p : ASTPtr) : option IAST :=
  match fuel with
  | O => None
  | S fuel' =>
      match nth_error s p with
      | None => None
      | Some node =>
          match kind node, node_children node with
          | KIdentifier name, [] => Some (ASTIdentifier name)
          | KLiteral value, [] => Some (ASTLiteral value)
          | KExpressionList, ps =>
              option_map ASTExpressionList
                ((fix load_all (ps : list ASTPtr) : option (list IAST) :=
                    match ps with
                    | [] => Some []
                    | q :: r =>
                        match load fuel' s q, load_all r with
                        | Some x, Some l => Some (x :: l)
                        | _, _ => None
                        end
                    end) ps)
          | KFunction name, [arguments] =>
              option_map (ASTFunction name) (load fuel' s arguments)
          | _, _ => None
          end
      end
  end.

(** The nodes of a tree in the order of their allocation, children before
    their parent, when the first of them gets the address [base]. *)
Fixpoint flatten (base : nat) (t : IAST) : list Node :=
  match t with
  | ASTIdentifier name => [{| kind := KIdentifier name; node_children := [] |}]
  | ASTLiteral value => [{| kind := KLiteral value; node_children := [] |}]
  | ASTExpressionList l =>
      let (nodes, ptrs) :=
        (fix flatten_all (base : nat) (l : list IAST) : list Node * list ASTPtr :=
           match l with
           | [] => ([], [])
           | x :: r =>
               let nx := flatten base x in
               let (nr, pr) := flatten_all (base + List.length nx) r in
               (nx ++ nr, (base + List.length nx - 1) :: pr)
           end) base l in
      nodes ++ [{| kind := KExpressionList; node_children := ptrs |}]
  | ASTFunction name arguments =>
      let nodes := flatten base arguments in
      nodes ++ [{| kind := KFunction name;
                   node_children := [base + List.length nodes - 1] |}]
  end.

(** Allocation of a tree: the store with the new nodes, and the address
    of the root. *)
Definition store_tree (t : IAST) (s : Store) : Store * ASTPtr :=
  let nodes := flatten (List.length s) t in
  (s ++ nodes, List.length s + List.length nodes - 1).

(** Modelled from the spec: [IAST::clone] makes an independent copy of the
    tree, in new nodes. *)
Definition clone (fuel : nat) (s : Store) (p : ASTPtr) : option (Store * ASTPtr) :=
  option_map (fun t => store_tree t s) (load fuel s p).

(** [for (auto & child : term->children) replaceToConstants(child, graph);]
    over the [n] slots from the [i]-th on: each slot is read, handed to the
    call by reference, and holds afterwards what the call left in it. *)
Fixpoint children_loop (call : Store -> ASTPtr -> option (Store * ASTPtr))
  (term : ASTPtr) (n i : nat) (s : Store) : option Store :=
  match n with
  | O => Some s
  | S n' =>
      match child_slot s term i with
      | None => None
      | Some child =>
          match call s child with
          | None => None
          | Some (s1, child') => children_loop call term n' (S i) (set_child s1 term i child')
          end
      end
  end.

(** [void replaceToConstants(ASTPtr & term, graph)]: the store and the
    pointer held by [term] after the call.  The graph looks the tree of
    [term] up; [fuel] bounds the depth of the recursion. *)
Fixpoint replaceToConstants (fuel : nat) (graph : ComparisonGraph) (s : Store)
  (term : ASTPtr) : option (Store * ASTPtr) :=
  match fuel with
  | O => None
  | S fuel' =>
      match load (S fuel') s term, nth_error s term with
      | Some t, Some node =>
          match getEqualConst graph t with
          | Some equal_constant => Some (store_tree equal_constant s)
          | None =>
              option_map (fun s' => (s', term))
                (children_loop (replaceToConstants fuel' graph) term
                               (List.length (node_children node)) 0 s)
          end
      | _, _ => None
      end
  end.

(** [CNFQuery::AtomicFormula replaceTermsToConstants(atom, graph)] *)
Definition replaceTermsToConstants (fuel : nat) (s : Store) (atom : AtomicFormula)
  (graph : ComparisonGraph) : option (Store * AtomicFormula) :=
  match clone fuel s (ast atom) with
  | None => None
  | Some (s1, result_ast) =>
      match replaceToConstants fuel graph s1 result_ast with
      | None => None
      | Some (s2, result_ast') =>
          Some (s2, {| negative := negative atom; ast := result_ast' |})
      end
  end.

(** ** Trees and their nodes *)

Definition flatten_all : nat -> list IAST -> list Node * list ASTPtr :=
  fix flatten_all (base : nat) (l : list IAST) : list Node * list ASTPtr :=
    match l with
    | [] => ([], [])
    | x :: r =>
        let nx := flatten base x in
        let (nr, pr) := flatten_all (base + List.length nx) r in
        (nx ++ nr, (base + List.length nx - 1) :: pr)
    end.

Definition load_all (fuel : nat) (s : Store) : list ASTPtr -> option (list IAST) :=
  fix load_all (ps : list ASTPtr) : option (list IAST) :=
    match ps with
    | [] => Some []
    | q :: r =>
        match load fuel s q, load_all r with
        | Some x, Some l => Some (x :: l)
        | _, _ => None
        end
    end.

(** The number of nodes of a tree, and its depth. *)
Fixpoint size (t : IAST) : nat :=
  match t with
  | ASTIdentifier _ | ASTLiteral _ => 1
  | ASTExpressionList l => S ((fix size_all (l : list IAST) : nat :=
                                 match l with
                                 | [] => 0
                                 | x :: r => size x + size_all r
                                 end) l)
  | ASTFunction _ a => S (size a)
  end.

Definition size_all : list IAST -> nat :=
  fix size_all (l : list IAST) : nat :=
    match l with
    | [] => 0
    | x :: r => size x + size_all r
    end.

Fixpoint depth (t : IAST) : nat :=
  match t with
  | ASTIdentifier _ | ASTLiteral _ => 1
  | ASTExpressionList l => S ((fix depth_all (l : list IAST) : nat :=
                                 match l with
                                 | [] => 0
                                 | x :: r => Nat.max (depth x) (depth_all r)
                                 end) l)
  | ASTFunction _ a => S (depth a)
  end.

Definition depth_all : list IAST -> nat :=
  fix depth_all (l : list IAST) : nat :=
    match l with
    | [] => 0
    | x :: r => Nat.max (depth x) (depth_all r)
    end.

(** [rep F s t p]: in the store [s], the pointer [p] refers to the tree
    [t], all of whose nodes have their addresses in [F]. *)
Fixpoint rep (F : ASTPtr -> Prop) (s : Store) (t : IAST) (p : ASTPtr) : Prop :=
  F p
  /\ match t with
     | ASTIdentifier name =>
         nth_error s p = Some {| kind := KIdentifier name; node_children := [] |}
     | ASTLiteral value =>
         nth_error s p = Some {| kind := KLiteral value; node_children := [] |}
     | ASTExpressionList l =>
         exists ps,
           nth_error s p = Some {| kind := KExpressionList; node_children := ps |}
           /\ (fix rep_all (l : list IAST) (ps : list ASTPtr) : Prop :=
                 match l, ps with
                 | [], [] => True
                 | x :: l', q :: ps' => rep F s x q /\ rep_all l' ps'
                 | _, _ => False
                 end) l ps
     | ASTFunction name a =>
         exists pa,
           nth_error s p = Some {| kind := KFunction name; node_children := [pa] |}
           /\ rep F s a pa
     end.

Definition rep_all (F : ASTPtr -> Prop) (s : Store) : list IAST -> list ASTPtr -> Prop :=
  fix rep_all (l : list IAST) (ps : list ASTPtr) : Prop :=
    match l, ps with
    | [], [] => True
    | x :: l', q :: ps' => rep F s x q /\ rep_all l' ps'
    | _, _ => False
    end.

Definition within (lo hi : nat) (q : ASTPtr) : Prop := lo <= q < hi.

(** The nodes of [t] lie in [s] from the address [lo] on, as allocated. *)
Definition region (s : Store) (lo : nat) (t : IAST) : Prop :=
  forall i, i < size t -> nth_error s (lo + i) = nth_error (flatten lo t) i.

Definition region_all (s : Store) (lo : nat) (l : list IAST) : Prop :=
  forall i, i < size_all l -> nth_error s (lo + i) = nth_error (fst (flatten_all lo l)) i.

(** ** Properties of the store *)

Lemma list_set_length {A : Type} (l : list A) : forall i x,
  List.length (list_set l i x) = List.length l.
Proof. induction l as [| y r IH]; intros [| i] x; cbn; auto. Qed.

Lemma list_set_same {A : Type} (l : list A) : forall i x,
  i < List.length l -> nth_error (list_set l i x) i = Some x.
Proof.
  induction l as [| y r IH]; intros [| i] x Hi; cbn in *; [lia | lia | reflexivity | ].
  apply IH. lia.
Qed.

Lemma list_set_other {A : Type} (l : list A) : forall i j x,
  i <> j -> nth_error (list_set l i x) j = nth_error l j.
Proof.
  induction l as [| y r IH]; intros [| i] [| j] x Hij; cbn; try reflexivity; [lia | ].
  apply IH. lia.
Qed.

Lemma list_set_app {A : Type} (l : list A) (y : A) (r : list A) (x : A) :
  list_set (l ++ y :: r) (List.length l) x = l ++ x :: r.
Proof. induction l as [| z l IH]; cbn; [reflexivity | now rewrite IH]. Qed.

Lemma set_child_length (s : Store) (term : ASTPtr) (i : nat) (c : ASTPtr) :
  List.length (set_child s term i c) = List.length s.
Proof.
  unfold set_child. destruct (nth_error s term); [apply list_set_length | reflexivity].
Qed.

Lemma set_child_other (s : Store) (term : ASTPtr) (i : nat) (c : ASTPtr) (q : ASTPtr) :
  q <> term -> nth_error (set_child s term i c) q = nth_error s q.
Proof.
  intros Hq. unfold set_child.
  destruct (nth_error s term); [apply list_set_other; lia | reflexivity].
Qed.

Lemma set_child_same (s : Store) (term : ASTPtr) (i : nat) (c : ASTPtr) (node : Node) :
  nth_error s term = Some node ->
  nth_error (set_child s term i c) term
  = Some {| kind := kind node; node_children := list_set (node_children node) i c |}.
Proof.
  intros Hn. unfold set_child. rewrite Hn. apply list_set_same.
  apply nth_error_Some. congruence.
Qed.

Lemma flatten_list_eq (base : nat) (l : list IAST) :
  flatten base (ASTExpressionList l)
  = fst (flatten_all base l)
    ++ [{| kind := KExpressionList; node_children := snd (flatten_all base l) |}].
Proof.
  cbn [flatten]. fold flatten_all. destruct (flatten_all base l). reflexivity.
Qed.

Lemma flatten_all_cons (base : nat) (x : IAST) (r : list IAST) :
  flatten_all base (x :: r)
  = (flatten base x ++ fst (flatten_all (base + List.length (flatten base x)) r),
     (base + List.length (flatten base x) - 1)
       :: snd (flatten_all (base + List.length (flatten base x)) r)).
Proof.
  cbn [flatten_all]. fold flatten_all.
  destruct (flatten_all (base + List.length (flatten base x)) r). reflexivity.
Qed.

Lemma size_list_eq (l : list IAST) : size (ASTExpressionList l) = S (size_all l).
Proof. reflexivity. Qed.

Lemma depth_list_eq (l : list IAST) : depth (ASTExpressionList l) = S (depth_all l).
Proof. reflexivity. Qed.

Lemma flatten_length (t : IAST) : forall base, List.length (flatten base t) = size t.
Proof.
  induction t as [n | v | l IH | n a IH] using IAST_ind'; intros base;
    try reflexivity.
  - rewrite flatten_list_eq, size_list_eq, length_app. cbn [List.length].
    rewrite Nat.add_1_r. f_equal. revert base.
    induction IH as [| x r Hx _ IHr]; intros base; [reflexivity | ].
    rewrite flatten_all_cons. cbn [fst size_all]. rewrite length_app, Hx, IHr. reflexivity.
  - cbn [flatten size]. rewrite length_app, IH. cbn. lia.
Qed.

Lemma flatten_all_length (l : list IAST) : forall base,
  List.length (fst (flatten_all base l)) = size_all l.
Proof.
  induction l as [| x r IH]; intros base; [reflexivity | ].
  rewrite flatten_all_cons. cbn [fst size_all].
  now rewrite length_app, flatten_length, IH.
Qed.

Lemma size_pos (t : IAST) : 0 < size t.
Proof. destruct t; cbn; lia. Qed.

Lemma rep_list_eq (F : ASTPtr -> Prop) (s : Store) (l : list IAST) (p : ASTPtr) :
  rep F s (ASTExpressionList l) p
  <-> F p /\ exists ps,
        nth_error s p = Some {| kind := KExpressionList; node_children := ps |}
        /\ rep_all F s l ps.
Proof. reflexivity. Qed.

Lemma rep_within (F : ASTPtr -> Prop) (s : Store) (t : IAST) (p : ASTPtr) :
  rep F s t p -> F p.
Proof. destruct t; intros [H _]; exact H. Qed.

(** A tree is the same tree in any store that agrees on its nodes. *)
Lemma rep_ext (F F' : ASTPtr -> Prop) (s s' : Store) :
  (forall q, F q -> nth_error s' q = nth_error s q) ->
  (forall q, F q -> F' q) ->
  forall t p, rep F s t p -> rep F' s' t p.
Proof.
  intros Hs HF t. induction t as [n | v | l IH | n a IH] using IAST_ind'; intros p.
  - intros [Hp H]. split; [auto | ]. cbn in *. now rewrite Hs.
  - intros [Hp H]. split; [auto | ]. cbn in *. now rewrite Hs.
  - rewrite !rep_list_eq. intros [Hp (ps & Hn & Hall)]. split; [auto | ].
    exists ps. split; [now rewrite Hs | ].
    clear Hn. revert ps Hall. induction IH as [| x r Hx _ IHr]; intros [| q ps] Hall;
      cbn in *; try tauto. destruct Hall as [H1 H2]. split; [apply Hx, H1 | apply IHr, H2].
  - intros [Hp (pa & Hn & Ha)]. split; [auto | ]. exists pa.
    split; [now rewrite Hs | apply IH, Ha].
Qed.

Lemma rep_all_ext (F F' : ASTPtr -> Prop) (s s' : Store) :
  (forall q, F q -> nth_error s' q = nth_error s q) ->
  (forall q, F q -> F' q) ->
  forall l ps, rep_all F s l ps -> rep_all F' s' l ps.
Proof.
  intros Hs HF l. induction l as [| x r IH]; intros [| q ps] H; cbn in *; try tauto.
  destruct H as [H1 H2]. split; [eapply rep_ext; eauto | apply IH, H2].
Qed.

(** Reading a tree back. *)
Lemma rep_load (F : ASTPtr -> Prop) (s : Store) (t : IAST) :
  forall p fuel, rep F s t p -> depth t <= fuel -> load fuel s p = Some t.
Proof.
  induction t as [n | v | l IH | n a IH] using IAST_ind'; intros p fuel Hr Hd.
  - destruct fuel as [| fuel]; [cbn in Hd; lia | ]. destruct Hr as [_ Hn].
    cbn in *. now rewrite Hn.
  - destruct fuel as [| fuel]; [cbn in Hd; lia | ]. destruct Hr as [_ Hn].
    cbn in *. now rewrite Hn.
  - destruct fuel as [| fuel]; [cbn in Hd; lia | ].
    rewrite depth_list_eq in Hd. apply rep_list_eq in Hr.
    destruct Hr as [_ (ps & Hn & Hall)]. cbn [load]. rewrite Hn. cbn [kind node_children].
    fold (load_all fuel s).
    assert (E : load_all fuel s ps = Some l).
    { apply le_S_n in Hd. clear Hn. revert ps Hall Hd.
      induction IH as [| x r Hx _ IHr]; intros [| q ps] Hall Hd; cbn in Hall;
        try tauto; try reflexivity.
      destruct Hall as [H1 H2]. cbn [depth_all] in Hd. cbn [load_all].
      rewrite (Hx q fuel H1) by lia. fold (load_all fuel s).
      rewrite (IHr ps H2) by lia. reflexivity. }
    now rewrite E.
  - destruct fuel as [| fuel]; [cbn in Hd; lia | ].
    destruct Hr as [_ (pa & Hn & Ha)]. cbn [load]. rewrite Hn. cbn [kind node_children].
    cbn [depth] in Hd. rewrite (IH pa fuel Ha) by lia. reflexivity.
Qed.

(** What [load] returns is there, no deeper than the fuel, in nodes of
    the store. *)
Lemma load_rep (fuel : nat) (s : Store) :
  forall p t, load fuel s p = Some t ->
  rep (fun q => q < List.length s) s t p /\ depth t <= fuel.
Proof.
  induction fuel as [| fuel IH]; intros p t H; [discriminate | ].
  cbn [load] in H. destruct (nth_error s p) as [[k ps] | ] eqn:Hn; [ | discriminate].
  assert (Hp : p < List.length s) by (apply nth_error_Some; congruence).
  cbn [kind node_children] in H. destruct k as [name | value | | name].
  - destruct ps; [ | discriminate]. injection H as <-. cbn. auto with arith.
  - destruct ps; [ | discriminate]. injection H as <-. cbn. auto with arith.
  - fold (load_all fuel s) in H.
    destruct (load_all fuel s ps) as [l | ] eqn:E; [ | discriminate].
    injection H as <-. rewrite rep_list_eq, depth_list_eq.
    assert (G : rep_all (fun q => q < List.length s) s l ps /\ depth_all l <= fuel).
    { clear Hn. revert l E. induction ps as [| q ps IHps]; intros l E; cbn [load_all] in E.
      - injection E as <-. cbn. auto with arith.
      - fold (load_all fuel s) in E.
        destruct (load fuel s q) as [x | ] eqn:Ex; [ | discriminate].
        destruct (load_all fuel s ps) as [l' | ] eqn:El; [ | discriminate].
        injection E as <-. destruct (IH q x Ex) as [R D].
        destruct (IHps l' eq_refl) as [R' D']. cbn [rep_all depth_all].
        split; [split; assumption | lia]. }
    destruct G as [G1 G2]. split; [ | lia]. split; [exact Hp | ]. exists ps. auto.
  - destruct ps as [| pa [| ? ?]]; try discriminate.
    destruct (load fuel s pa) as [a | ] eqn:Ea; [ | discriminate].
    injection H as <-. destruct (IH pa a Ea) as [R D]. cbn [depth].
    split; [ | lia]. split; [exact Hp | ]. exists pa. auto.
Qed.

(** The nodes of an allocated tree represent it; the root comes last. *)
Lemma region_rep (t : IAST) :
  forall s lo, region s lo t -> rep (within lo (lo + size t)) s t (lo + size t - 1).
Proof.
  induction t as [n | v | l IH | n a IH] using IAST_ind'; intros s lo Hr.
  - split; [unfold within; cbn [size]; lia | ].
    specialize (Hr 0 ltac:(cbn [size]; lia)).
    rewrite Nat.add_0_r in Hr. cbn [size]. rewrite Nat.add_sub. exact Hr.
  - split; [unfold within; cbn [size]; lia | ].
    specialize (Hr 0 ltac:(cbn [size]; lia)).
    rewrite Nat.add_0_r in Hr. cbn [size]. rewrite Nat.add_sub. exact Hr.
  - apply rep_list_eq. rewrite size_list_eq. split; [unfold within; lia | ].
    exists (snd (flatten_all lo l)). split.
    + specialize (Hr (size_all l) ltac:(rewrite size_list_eq; lia)).
      rewrite flatten_list_eq in Hr.
      rewrite nth_error_app2 in Hr by (rewrite flatten_all_length; lia).
      rewrite flatten_all_length, Nat.sub_diag in Hr. cbn in Hr.
      replace (lo + S (size_all l) - 1) with (lo + size_all l) by lia. exact Hr.
    + assert (Ha : region_all s lo l).
      { intros i Hi. rewrite (Hr i) by (rewrite size_list_eq; lia).
        rewrite flatten_list_eq. apply nth_error_app1. rewrite flatten_all_length. exact Hi. }
      assert (G : forall hi, lo + size_all l <= hi ->
                  rep_all (within lo hi) s l (snd (flatten_all lo l))).
      { clear Hr. revert lo Ha. induction IH as [| x r Hx _ IHr]; intros lo Ha hi Hhi.
        - exact I.
        - rewrite flatten_all_cons. cbn [snd rep_all]. rewrite flatten_length.
          cbn [size_all] in Hhi. split.
          + apply (rep_ext (within lo (lo + size x)) _ s s); [reflexivity | | ].
            * unfold within. intros q. lia.
            * apply Hx. intros i Hi. rewrite (Ha i) by (cbn [size_all]; lia).
              rewrite flatten_all_cons. cbn [fst]. apply nth_error_app1.
              rewrite flatten_length. exact Hi.
          + apply (rep_all_ext (within (lo + size x) hi) _ s s); [reflexivity | | ].
            * unfold within. intros q. lia.
            * apply IHr; [ | lia]. intros i Hi.
              replace (lo + size x + i) with (lo + (size x + i)) by lia.
              rewrite (Ha (size x + i)) by (cbn [size_all]; lia).
              rewrite flatten_all_cons. cbn [fst].
              rewrite nth_error_app2 by (rewrite flatten_length; lia).
              rewrite !flatten_length. f_equal. lia. }
      apply (rep_all_ext (within lo (lo + size_all l)) _ s s); [reflexivity | | ].
      * unfold within. intros q. lia.
      * apply G. lia.
  - cbn [size]. split; [unfold within; lia | ].
    exists (lo + size a - 1). split.
    + specialize (Hr (size a) ltac:(cbn [size]; lia)). cbn [flatten] in Hr.
      rewrite nth_error_app2 in Hr by (rewrite flatten_length; lia).
      rewrite !flatten_length, Nat.sub_diag in Hr. cbn in Hr.
      replace (lo + S (size a) - 1) with (lo + size a) by lia. exact Hr.
    + apply (rep_ext (within lo (lo + size a)) _ s s); [reflexivity | | ].
      * unfold within. intros q. lia.
      * apply IH. intros i Hi. rewrite (Hr i) by (cbn [size]; lia).
        cbn [flatten]. apply nth_error_app1. rewrite flatten_length. exact Hi.
Qed.

(** Allocation appends the nodes of the tree. *)
Lemma store_tree_region (t : IAST) (s : Store) :
  store_tree t s = (s ++ flatten (List.length s) t, List.length s + size t - 1)
  /\ region (s ++ flatten (List.length s) t) (List.length s) t.
Proof.
  split.
  - unfold store_tree. now rewrite flatten_length.
  - intros i Hi. rewrite nth_error_app2 by lia. f_equal. lia.
Qed.

(** ** [replaceToConstants] in place *)

Lemma replaceToConstants_unfold (fuel : nat) (graph : ComparisonGraph) (s : Store)
  (term : ASTPtr) :
  replaceToConstants (S fuel) graph s term
  = match load (S fuel) s term, nth_error s term with
    | Some t, Some node =>
        match getEqualConst graph t with
        | Some equal_constant => Some (store_tree equal_constant s)
        | None =>
            option_map (fun s' => (s', term))
              (children_loop (replaceToConstants fuel graph) term
                             (List.length (node_children node)) 0 s)
        end
    | _, _ => None
    end.
Proof. reflexivity. Qed.

Lemma flatten_all_ptrs_length (l : list IAST) : forall base,
  List.length (snd (flatten_all base l)) = List.length l.
Proof.
  induction l as [| x r IH]; intros base; [reflexivity | ].
  rewrite flatten_all_cons. cbn [snd List.length]. now rewrite IH.
Qed.

(** What a call on the root of an intact, freshly allocated tree [t] does:
    it returns, it writes only to the nodes of [t] and to new nodes, and
    the pointer it leaves refers to the tree [replaceToConstants] makes of
    [t], held in nodes of [t] and new nodes. *)
Definition replace_ok (graph : ComparisonGraph) (t : IAST) : Prop :=
  forall fuel s lo,
  depth t <= fuel -> region s lo t ->
  exists s' p',
    replaceToConstants fuel graph s (lo + size t - 1) = Some (s', p')
    /\ List.length s <= List.length s'
    /\ (forall q, q < List.length s -> ~ within lo (lo + size t) q ->
                  nth_error s' q = nth_error s q)
    /\ rep (fun q => within lo (lo + size t) q
                     \/ within (List.length s) (List.length s') q)
           s' (replaceToConstants_value graph t) p'.

Lemma children_loop_ok (graph : ComparisonGraph) (fuel : nat) (k : NodeKind)
  (rest : list IAST) :
  Forall (replace_ok graph) rest ->
  forall s cur_lo term done_ptrs,
  depth_all rest <= fuel ->
  region_all s cur_lo rest ->
  term = cur_lo + size_all rest ->
  nth_error s term
  = Some {| kind := k;
            node_children := done_ptrs ++ snd (flatten_all cur_lo rest) |} ->
  exists s' new_ptrs,
    children_loop (replaceToConstants fuel graph) term (List.length rest)
                  (List.length done_ptrs) s = Some s'
    /\ List.length s <= List.length s'
    /\ (forall q, q < List.length s -> ~ within cur_lo (term + 1) q ->
                  nth_error s' q = nth_error s q)
    /\ nth_error s' term
       = Some {| kind := k; node_children := done_ptrs ++ new_ptrs |}
    /\ rep_all (fun q => within cur_lo term q
                         \/ within (List.length s) (List.length s') q)
               s' (map (replaceToConstants_value graph) rest) new_ptrs.
Proof.
  induction 1 as [| x r Hx _ IHr]; intros s cur_lo term done_ptrs Hd Hreg Hterm Hnode.
  - exists s, []. cbn [List.length children_loop map rep_all].
    split; [reflexivity | ]. split; [lia | ]. split; [reflexivity | ].
    split; [exact Hnode | exact I].
  - cbn [size_all] in Hterm. cbn [depth_all] in Hd.
    assert (Hlen : term < List.length s) by (apply nth_error_Some; congruence).
    rewrite flatten_all_cons in Hnode. cbn [snd] in Hnode. rewrite flatten_length in Hnode.
    (* the slot of [x] *)
    cbn [List.length children_loop]. unfold child_slot. rewrite Hnode.
    cbn [node_children]. rewrite nth_error_app2 by lia. rewrite Nat.sub_diag.
    cbn [nth_error].
    (* the call on [x] *)
    assert (Hrx : region s cur_lo x).
    { intros i Hi. rewrite (Hreg i) by (cbn [size_all]; lia).
      rewrite flatten_all_cons. cbn [fst]. apply nth_error_app1.
      rewrite flatten_length. exact Hi. }
    destruct (Hx fuel s cur_lo ltac:(lia) Hrx) as (s1 & p1 & E1 & L1 & Fr1 & R1).
    rewrite E1.
    (* the slot is set *)
    assert (Hnode1 : nth_error s1 term
                     = Some {| kind := k;
                               node_children :=
                                 done_ptrs ++ (cur_lo + size x - 1)
                                   :: snd (flatten_all (cur_lo + size x) r) |}).
    { rewrite Fr1; [exact Hnode | exact Hlen | unfold within; lia]. }
    pose proof (set_child_same s1 term (List.length done_ptrs) p1 _ Hnode1) as Hnode2.
    cbn [kind node_children] in Hnode2. rewrite list_set_app in Hnode2.
    set (s2 := set_child s1 term (List.length done_ptrs) p1) in *.
    assert (L2 : List.length s2 = List.length s1) by apply set_child_length.
    assert (Hrr : region_all s2 (cur_lo + size x) r).
    { intros i Hi. unfold s2. rewrite set_child_other by lia.
      rewrite Fr1; [ | lia | unfold within; lia].
      replace (cur_lo + size x + i) with (cur_lo + (size x + i)) by lia.
      rewrite (Hreg (size x + i)) by (cbn [size_all]; lia).
      rewrite flatten_all_cons. cbn [fst].
      rewrite nth_error_app2 by (rewrite flatten_length; lia).
      rewrite !flatten_length. f_equal. lia. }
    destruct (IHr s2 (cur_lo + size x) term (done_ptrs ++ [p1]) ltac:(lia) Hrr ltac:(lia))
      as (s' & new_ptrs & E' & L' & Fr' & Hnode' & R').
    { rewrite <- app_assoc. exact Hnode2. }
    rewrite length_app, Nat.add_1_r in E'.
    exists s', (p1 :: new_ptrs). split; [exact E' | ]. split; [lia | ]. split; [ | split].
    + intros q Hq Hout. rewrite Fr'; [ | lia | unfold within in *; lia].
      unfold s2. rewrite set_child_other by (unfold within in Hout; lia).
      apply Fr1; [exact Hq | unfold within in *; lia].
    + rewrite <- app_assoc in Hnode'. exact Hnode'.
    + cbn [map rep_all]. split.
      * apply (rep_ext (fun q => within cur_lo (cur_lo + size x) q
                                 \/ within (List.length s) (List.length s1) q) _ s1 s');
          [ | | exact R1].
        -- intros q Hq. rewrite Fr'; [ | unfold within in *; lia | unfold within in *; lia].
           unfold s2. apply set_child_other. unfold within in *. lia.
        -- unfold within. intros q. lia.
      * apply (rep_all_ext (fun q => within (cur_lo + size x) term q
                                     \/ within (List.length s2) (List.length s') q)
                           _ s' s'); [reflexivity | | exact R'].
        unfold within. intros q. lia.
Qed.

Lemma replaceToConstants_value_constant (graph : ComparisonGraph) (t c : IAST) :
  getEqualConst graph t = Some c -> replaceToConstants_value graph t = c.
Proof. intros H. now rewrite replaceToConstants_value_eq, H. Qed.

(** The in-place [replaceToConstants] refines the one on values. *)
Lemma replace_ok_all (graph : ComparisonGraph) (t : IAST) : replace_ok graph t.
Proof.
  induction t as [n | v | l IH | n a IH] using IAST_ind';
    intros fuel s lo Hd Hreg;
    (destruct fuel as [| fuel]; [cbn in Hd; lia | ]);
    pose proof (region_rep _ s lo Hreg) as Hrep;
    rewrite replaceToConstants_unfold, (rep_load _ s _ _ (S fuel) Hrep Hd).
  1, 2:
    pose proof (Hreg 0 ltac:(cbn [size]; lia)) as Hnode;
    rewrite Nat.add_0_r in Hnode; cbn [size flatten nth_error] in Hnode |- *;
    rewrite Nat.add_sub; rewrite Hnode;
    match goal with
    | |- context [getEqualConst ?g ?t] => destruct (getEqualConst g t) as [c | ] eqn:Ec
    end.
  all: try (
    (* a constant takes the place of the tree *)
    destruct (store_tree_region c s) as [Es Hrc];
    exists (s ++ flatten (List.length s) c), (List.length s + size c - 1);
    rewrite length_app, flatten_length;
    split; [now rewrite Es | ];
    split; [lia | ];
    split; [intros q Hq _; now apply nth_error_app1 | ];
    erewrite replaceToConstants_value_constant by eassumption;
    apply (rep_ext (within (List.length s) (List.length s + size c)) _
                   (s ++ flatten (List.length s) c) (s ++ flatten (List.length s) c));
    [reflexivity | unfold within; intros q; lia | apply region_rep, Hrc]).
  - (* an identifier without a constant *)
    cbn [node_children List.length children_loop option_map].
    exists s, lo. split; [reflexivity | ]. split; [lia | ]. split; [reflexivity | ].
    rewrite replaceToConstants_value_eq, Ec.
    cbn [size] in Hrep. rewrite Nat.add_sub in Hrep.
    apply (rep_ext (within lo (lo + 1)) _ s s); [reflexivity | | exact Hrep].
    unfold within. cbn [size]. intros q. lia.
  - (* a literal without a constant *)
    cbn [node_children List.length children_loop option_map].
    exists s, lo. split; [reflexivity | ]. split; [lia | ]. split; [reflexivity | ].
    rewrite replaceToConstants_value_eq, Ec.
    cbn [size] in Hrep. rewrite Nat.add_sub in Hrep.
    apply (rep_ext (within lo (lo + 1)) _ s s); [reflexivity | | exact Hrep].
    unfold within. cbn [size]. intros q. lia.
  - (* an expression list *)
    rewrite size_list_eq, depth_list_eq in *.
    assert (Hnode : nth_error s (lo + size_all l)
                    = Some {| kind := KExpressionList;
                              node_children := [] ++ snd (flatten_all lo l) |}).
    { rewrite (Hreg (size_all l)) by (rewrite size_list_eq; lia).
      rewrite flatten_list_eq, nth_error_app2 by (rewrite flatten_all_length; lia).
      rewrite flatten_all_length, Nat.sub_diag. reflexivity. }
    replace (lo + S (size_all l) - 1) with (lo + size_all l) by lia.
    rewrite Hnode. cbn [node_children app].
    destruct (getEqualConst graph (ASTExpressionList l)) as [c | ] eqn:Ec.
    + destruct (store_tree_region c s) as [Es Hrc].
      exists (s ++ flatten (List.length s) c), (List.length s + size c - 1).
      rewrite length_app, flatten_length.
      split; [now rewrite Es | ]. split; [lia | ].
      split; [intros q Hq _; now apply nth_error_app1 | ].
      rewrite (replaceToConstants_value_constant _ _ _ Ec).
      apply (rep_ext (within (List.length s) (List.length s + size c)) _
                     (s ++ flatten (List.length s) c) (s ++ flatten (List.length s) c));
        [reflexivity | unfold within; intros q; lia | apply region_rep, Hrc].
    + assert (Hra : region_all s lo l).
      { intros i Hi. rewrite (Hreg i) by (rewrite size_list_eq; lia).
        rewrite flatten_list_eq. apply nth_error_app1. rewrite flatten_all_length. exact Hi. }
      destruct (children_loop_ok graph fuel KExpressionList l IH s lo (lo + size_all l) []
                                 ltac:(lia) Hra eq_refl Hnode)
        as (s' & new_ptrs & E' & L' & Fr' & Hnode' & R').
      rewrite flatten_all_ptrs_length. cbn [List.length] in E'. rewrite E'.
      cbn [option_map]. exists s', (lo + size_all l).
      split; [reflexivity | ]. split; [exact L' | ]. split.
      * intros q Hq Hout. apply Fr'; [exact Hq | unfold within in *; lia].
      * rewrite replaceToConstants_value_eq, Ec.
        apply rep_list_eq. split; [unfold within; lia | ].
        exists new_ptrs. split; [exact Hnode' | ].
        apply (rep_all_ext (fun q => within lo (lo + size_all l) q
                                     \/ within (List.length s) (List.length s') q)
                           _ s' s'); [reflexivity | | exact R'].
        unfold within. intros q. lia.
  - (* a function *)
    cbn [size depth] in *.
    assert (Hnode : nth_error s (lo + size_all [a])
                    = Some {| kind := KFunction n;
                              node_children := [] ++ snd (flatten_all lo [a]) |}).
    { cbn [size_all]. rewrite Nat.add_0_r.
      rewrite (Hreg (size a)) by (cbn [size]; lia). cbn [flatten].
      rewrite nth_error_app2 by (rewrite flatten_length; lia).
      rewrite flatten_length, Nat.sub_diag, flatten_all_cons.
      cbn [snd flatten_all nth_error app]. now rewrite flatten_length. }
    replace (lo + S (size a) - 1) with (lo + size_all [a]) by (cbn [size_all]; lia).
    rewrite Hnode. cbn [node_children app].
    destruct (getEqualConst graph (ASTFunction n a)) as [c | ] eqn:Ec.
    + destruct (store_tree_region c s) as [Es Hrc].
      exists (s ++ flatten (List.length s) c), (List.length s + size c - 1).
      rewrite length_app, flatten_length.
      split; [now rewrite Es | ]. split; [lia | ].
      split; [intros q Hq _; now apply nth_error_app1 | ].
      rewrite (replaceToConstants_value_constant _ _ _ Ec).
      apply (rep_ext (within (List.length s) (List.length s + size c)) _
                     (s ++ flatten (List.length s) c) (s ++ flatten (List.length s) c));
        [reflexivity | unfold within; intros q; lia | apply region_rep, Hrc].
    + assert (Hra : region_all s lo [a]).
      { intros i Hi. cbn [size_all] in Hi. rewrite (Hreg i) by (cbn [size]; lia).
        cbn [flatten flatten_all fst]. rewrite app_nil_r.
        apply nth_error_app1. rewrite flatten_length. lia. }
      destruct (children_loop_ok graph fuel (KFunction n) [a]
                                 (Forall_cons a IH (Forall_nil _)) s lo (lo + size_all [a]) []
                                 ltac:(cbn [depth_all]; lia) Hra eq_refl Hnode)
        as (s' & new_ptrs & E' & L' & Fr' & Hnode' & R').
      rewrite flatten_all_ptrs_length. cbn [List.length] in E' |- *. rewrite E'.
      cbn [option_map]. exists s', (lo + size_all [a]).
      split; [reflexivity | ]. split; [exact L' | ]. split.
      * intros q Hq Hout. apply Fr'; [exact Hq | ].
        unfold within in *. cbn [size_all] in *. lia.
      * rewrite replaceToConstants_value_eq, Ec.
        destruct new_ptrs as [| pa [| ? ?]]; cbn [map rep_all] in R'; try tauto.
        destruct R' as [R' _]. cbn [app] in Hnode'.
        split; [unfold within; cbn [size_all]; lia | ].
        exists pa. split; [exact Hnode' | ].
        apply (rep_ext (fun q => within lo (lo + size_all [a]) q
                                 \/ within (List.length s) (List.length s') q)
                       _ s' s'); [reflexivity | | exact R'].
        unfold within. cbn [size_all]. intros q. lia.
Qed.

(** C9.  For every store, every atom whose expression is a tree [t] of the
    store and every comparison graph, [replaceTermsToConstants] returns an
    atom with the polarity of its argument; it writes to no node that
    existed before the call, so the argument's own tree is still [t]; and
    the result's tree, the one [replaceToConstants] makes of [t], is held
    in nodes allocated by the call: the folding is done on the clone. *)
Theorem replaceTermsToConstants_on_a_clone (graph : ComparisonGraph) (fuel : nat)
  (s : Store) (atom : AtomicFormula) (t : IAST) :
  load fuel s (ast atom) = Some t ->
  exists s' result,
    replaceTermsToConstants fuel s atom graph = Some (s', result)
    /\ negative result = negative atom
    /\ (forall q, q < List.length s -> nth_error s' q = nth_error s q)
    /\ load fuel s' (ast atom) = Some t
    /\ rep (fun q => List.length s <= q < List.length s') s'
           (replaceToConstants_value graph t) (ast result).
Proof.
  intros Hload. destruct (load_rep fuel s _ _ Hload) as [Hrep Hd].
  unfold replaceTermsToConstants, clone. rewrite Hload. cbn [option_map].
  destruct (store_tree_region t s) as [Es Hreg]. rewrite Es.
  destruct (replace_ok_all graph t fuel _ _ Hd Hreg) as (s' & p' & E & L & Fr & R).
  rewrite E. rewrite length_app, flatten_length in L, Fr, R.
  assert (Hold : forall q, q < List.length s -> nth_error s' q = nth_error s q).
  { intros q Hq. rewrite Fr; [now apply nth_error_app1 | lia | unfold within; lia]. }
  exists s', {| negative := negative atom; ast := p' |}.
  split; [reflexivity | ]. split; [reflexivity | ]. split; [exact Hold | ]. split.
  - apply (rep_load (fun q => q < List.length s)); [ | exact Hd].
    apply (rep_ext (fun q => q < List.length s) _ s s'); [exact Hold | auto | exact Hrep].
  - cbn [ast]. eapply rep_ext; [reflexivity | | exact R].
    unfold within. intros q. lia.
Qed.

(** The theorem on the atom [NOT greater(plus(x, 1), 2)] and a graph that
    knows [x = 3]. *)
Lemma replaceTermsToConstants_on_a_clone_witness :
  let t := makeASTFunction "greater"
             [makeASTFunction "plus" [ASTIdentifier "x"; ASTLiteral (FieldInt 1)];
              ASTLiteral (FieldInt 2)] in
  let s := fst (store_tree t []) in
  let atom := {| negative := true; ast := snd (store_tree t []) |} in
  exists s' result,
    replaceTermsToConstants 10 s atom graph_x_is_3 = Some (s', result)
    /\ negative result = negative atom
    /\ (forall q, q < List.length s -> nth_error s' q = nth_error s q)
    /\ load 10 s' (ast atom) = Some t
    /\ rep (fun q => List.length s <= q < List.length s') s'
           (replaceToConstants_value graph_x_is_3 t) (ast result).
Proof.
  cbn zeta. apply replaceTermsToConstants_on_a_clone. reflexivity.
Defined.

End Heap.

(* ===================================================================== *)
(** * Part IV: what the rewrite preserves                                 *)
(* ===================================================================== *)

(** [perform] changes the truth value of some predicates.  This part shows
    that three guards on the query rule the failures out: with them, and a
    comparison graph and an index appender that keep their contracts, the
    rewritten predicate evaluates as the original one at every row that
    satisfies the constraints. *)

Section Soundness.

Variable compare_values : Value -> Value -> comparison.
Variable other_function : string -> Value -> Value.
Variable h : IAST -> Hash.

Let ev := evaluate compare_values other_function.
Let ev_atom := evaluate_atom compare_values other_function.
Let ev_group := evaluate_group compare_values other_function.
Let ev_cnf := evaluate_cnf compare_values other_function.

Lemma truthy_of_bool (b : bool) : truthy (of_bool b) = b.
Proof. destruct b; reflexivity. Qed.

Lemma forallb_map {A B : Type} (f : A -> B) (p : B -> bool) (l : list A) :
  forallb p (map f l) = forallb (fun x => p (f x)) l.
Proof. induction l as [| x r IH]; cbn; [reflexivity | now rewrite IH]. Qed.

Lemma existsb_map {A B : Type} (f : A -> B) (p : B -> bool) (l : list A) :
  existsb p (map f l) = existsb (fun x => p (f x)) l.
Proof. induction l as [| x r IH]; cbn; [reflexivity | now rewrite IH]. Qed.

Lemma ev_and (row : Row) (args : list IAST) :
  truthy (ev row (makeASTFunction "and" args)) = forallb (fun x => truthy (ev row x)) args.
Proof.
  unfold ev, makeASTFunction. cbn [evaluate].
  change (apply_function compare_values other_function "and"
            (VTuple (map (evaluate compare_values other_function row) args)))
    with (of_bool (forallb truthy (map (evaluate compare_values other_function row) args))).
  rewrite truthy_of_bool, forallb_map. reflexivity.
Qed.

Lemma ev_or (row : Row) (args : list IAST) :
  truthy (ev row (makeASTFunction "or" args)) = existsb (fun x => truthy (ev row x)) args.
Proof.
  unfold ev, makeASTFunction. cbn [evaluate].
  change (apply_function compare_values other_function "or"
            (VTuple (map (evaluate compare_values other_function row) args)))
    with (of_bool (existsb truthy (map (evaluate compare_values other_function row) args))).
  rewrite truthy_of_bool, existsb_map. reflexivity.
Qed.

Lemma ev_not (row : Row) (x : IAST) :
  truthy (ev row (makeASTFunction "not" [x])) = negb (truthy (ev row x)).
Proof.
  unfold ev, makeASTFunction. cbn [evaluate map].
  change (apply_function compare_values other_function "not"
            (VTuple [evaluate compare_values other_function row x]))
    with (of_bool (negb (truthy (evaluate compare_values other_function row x)))).
  apply truthy_of_bool.
Qed.

Lemma ev_cnf_app (row : Row) (a b : CNFQuery) :
  ev_cnf row (a ++ b) = ev_cnf row a && ev_cnf row b.
Proof. apply forallb_app. Qed.

Lemma ev_group_app (row : Row) (a b : OrGroup) :
  ev_group row (a ++ b) = ev_group row a || ev_group row b.
Proof. apply existsb_app. Qed.

Lemma ev_cnf_distribute (row : Row) (a b : CNFQuery) :
  ev_cnf row (distribute a b) = ev_cnf row a || ev_cnf row b.
Proof.
  unfold distribute. induction a as [| ga a IH]; [reflexivity | ].
  cbn [flat_map]. rewrite ev_cnf_app, IH.
  assert (E : ev_cnf row (map (fun gb => ga ++ gb) b) = ev_group row ga || ev_cnf row b).
  { clear IH. induction b as [| gb b IHb].
    - cbn. now rewrite orb_true_r.
    - cbn [map]. change (ev_cnf row ((ga ++ gb) :: map (fun gb0 => ga ++ gb0) b))
        with (ev_group row (ga ++ gb) && ev_cnf row (map (fun gb0 => ga ++ gb0) b)).
      rewrite IHb, ev_group_app.
      change (ev_cnf row (gb :: b)) with (ev_group row gb && ev_cnf row b).
      destruct (ev_group row ga), (ev_group row gb), (ev_cnf row b); reflexivity. }
  rewrite E. change (ev_cnf row (ga :: a)) with (ev_group row ga && ev_cnf row a).
  destruct (ev_group row ga), (ev_cnf row a), (ev_cnf row b); reflexivity.
Qed.

Lemma ev_positive_atom (row : Row) (e : IAST) :
  ev_cnf row [[positive_atom e]] = truthy (ev row e).
Proof.
  cbn. unfold evaluate_atom. cbn. now rewrite orb_false_r, andb_true_r.
Qed.

(** The groups of an expression hold exactly when the expression does. *)
Lemma cnf_groups_sound (row : Row) (e : IAST) :
  ev_cnf row (cnf_groups e) = truthy (ev row e).
Proof.
  assert (G : (ev_cnf row (cnf_groups e) = truthy (ev row e))
              /\ forall l, e = ASTExpressionList l ->
                   Forall (fun x => ev_cnf row (cnf_groups x) = truthy (ev row x)) l).
  { induction e as [n | v | l IH | n a IH] using IAST_ind'.
    - split; [apply ev_positive_atom | discriminate].
    - split; [apply ev_positive_atom | discriminate].
    - split; [apply ev_positive_atom | ].
      intros l' E. injection E as <-.
      eapply Forall_impl; [ | exact IH]. intros x [Hx _]. exact Hx.
    - split; [ | discriminate]. destruct IH as [_ IH].
      destruct a as [? | ? | args | ? ?]; try apply ev_positive_atom.
      specialize (IH args eq_refl). cbn [cnf_groups].
      unfold ev. cbn [evaluate]. fold (evaluate compare_values other_function).
      unfold apply_function. cbn [elements].
      destruct (String.eqb n "and") eqn:Eand.
      + rewrite truthy_of_bool. clear Eand.
        induction IH as [| x r Hx _ IHr]; [reflexivity | ].
        cbn [map List.concat forallb]. rewrite ev_cnf_app, Hx, IHr. reflexivity.
      + destruct (String.eqb n "or") eqn:Eor.
        * rewrite truthy_of_bool. clear Eand Eor.
          induction IH as [| x r Hx _ IHr]; [reflexivity | ].
          cbn [map fold_right existsb]. rewrite ev_cnf_distribute, Hx, IHr. reflexivity.
        * rewrite ev_positive_atom. unfold ev. cbn [evaluate].
          unfold apply_function. rewrite Eand, Eor. reflexivity. }
  exact (proj1 G).
Qed.

Lemma toCNF_sound (limit : nat) (row : Row) (e : IAST) :
  ev_cnf row (toCNF limit e) = truthy (ev row e).
Proof.
  unfold toCNF. destruct (Nat.leb _ limit);
    [apply cnf_groups_sound | apply ev_positive_atom].
Qed.

(** Pulling a NOT out flips the polarity and keeps the truth value. *)
Lemma pull_not_sound (row : Row) (e : IAST) :
  forall neg, ev_atom row (pull_not neg e) = xorb neg (truthy (ev row e)).
Proof.
  assert (G : (forall neg, ev_atom row (pull_not neg e) = xorb neg (truthy (ev row e)))
              /\ forall l, e = ASTExpressionList l ->
                   Forall (fun x => forall neg,
                             ev_atom row (pull_not neg x) = xorb neg (truthy (ev row x))) l).
  { induction e as [n | v | l IH | n a IH] using IAST_ind'.
    - split; [reflexivity | discriminate].
    - split; [reflexivity | discriminate].
    - split; [reflexivity | ]. intros l' E. injection E as <-.
      eapply Forall_impl; [ | exact IH]. intros x [Hx _]. exact Hx.
    - split; [ | discriminate]. destruct IH as [_ IH]. intros neg.
      destruct a as [? | ? | args | ? ?]; try reflexivity.
      destruct args as [| x [| ? ?]]; try reflexivity.
      specialize (IH [x] eq_refl). apply Forall_inv in IH.
      cbn [pull_not]. destruct (String.eqb n "not") eqn:En; [ | reflexivity].
      apply String.eqb_eq in En. subst n. rewrite IH.
      change (ASTFunction "not" (ASTExpressionList [x])) with (makeASTFunction "not" [x]).
      rewrite ev_not. destruct neg, (truthy (ev row x)); reflexivity. }
  exact (proj1 G).
Qed.

Lemma map_atoms_sound (f : AtomicFormula -> AtomicFormula) (row : Row) (cnf : CNFQuery) :
  (forall g a, In g cnf -> In a g -> ev_atom row (f a) = ev_atom row a) ->
  ev_cnf row (map (map f) cnf) = ev_cnf row cnf.
Proof.
  intros Hf. induction cnf as [| g cnf IH]; [reflexivity | ].
  cbn [map]. change (ev_cnf row (map f g :: map (map f) cnf))
    with (ev_group row (map f g) && ev_cnf row (map (map f) cnf)).
  change (ev_cnf row (g :: cnf)) with (ev_group row g && ev_cnf row cnf).
  rewrite IH by (intros g' a Hg Ha; apply (Hf g' a); [now right | exact Ha]).
  f_equal. assert (Hg : forall a, In a g -> ev_atom row (f a) = ev_atom row a)
    by (intros a Ha; apply (Hf g a); [now left | exact Ha]).
  clear IH Hf. induction g as [| a g IHg]; [reflexivity | ].
  cbn [map]. change (ev_group row (f a :: map f g))
    with (ev_atom row (f a) || ev_group row (map f g)).
  change (ev_group row (a :: g)) with (ev_atom row a || ev_group row g).
  rewrite Hg by now left. rewrite IHg; [reflexivity | ].
  intros b Hb. apply Hg. now right.
Qed.

Lemma pullNotOutFunctions_sound (row : Row) (cnf : CNFQuery) :
  ev_cnf row (pullNotOutFunctions cnf) = ev_cnf row cnf.
Proof.
  apply map_atoms_sound. intros g a _ _. apply pull_not_sound.
Qed.

(** The rebuilt tree holds exactly when the CNF does. *)
Lemma fromCNF_sound (row : Row) (cnf : CNFQuery) :
  truthy (ev row (fromCNF cnf)) = ev_cnf row cnf.
Proof.
  unfold fromCNF. rewrite ev_and, forallb_map.
  induction cnf as [| g cnf IH]; [reflexivity | ].
  cbn [forallb]. rewrite IH.
  change (ev_cnf row (g :: cnf)) with (ev_group row g && ev_cnf row cnf).
  f_equal. rewrite ev_or, existsb_map.
  clear IH. induction g as [| a g IHg]; [reflexivity | ].
  cbn [existsb]. rewrite IHg.
  change (ev_group row (a :: g)) with (ev_atom row a || ev_group row g).
  f_equal. unfold atom_to_ast, ev_atom, evaluate_atom.
  destruct a as [[|] e]; cbn [negative ast].
  - rewrite ev_not. reflexivity.
  - reflexivity.
Qed.

(** ** [reduce] *)

Lemma IAST_eqb_eq (a : IAST) : forall b, IAST_eqb a b = true -> a = b.
Proof.
  induction a as [n | v | l IH | n x IH] using IAST_ind'; intros [m | w | r | m y] H;
    cbn [IAST_eqb] in H; try discriminate.
  - apply String.eqb_eq in H. now subst.
  - f_equal. destruct v, w; cbn in H; try discriminate.
    + apply Z.eqb_eq in H. now subst.
    + apply String.eqb_eq in H. now subst.
  - f_equal. revert r H. induction IH as [| x l Hx _ IHl]; intros [| y r] H;
      try discriminate; [reflexivity | ].
    apply andb_true_iff in H. destruct H as [H1 H2].
    f_equal; [apply Hx, H1 | apply IHl, H2].
  - apply andb_true_iff in H. destruct H as [H1 H2].
    apply String.eqb_eq in H1. subst. f_equal. apply IH, H2.
Qed.

Lemma IAST_eqb_refl (a : IAST) : IAST_eqb a a = true.
Proof.
  induction a as [n | v | l IH | n x IH] using IAST_ind'; cbn [IAST_eqb].
  - apply String.eqb_refl.
  - destruct v; cbn; [apply Z.eqb_refl | apply String.eqb_refl].
  - induction IH as [| x l Hx _ IHl]; [reflexivity | ]. now rewrite Hx, IHl.
  - now rewrite String.eqb_refl, IH.
Qed.

Lemma AtomicFormula_eqb_eq (a b : AtomicFormula) : AtomicFormula_eqb a b = true <-> a = b.
Proof.
  unfold AtomicFormula_eqb. split.
  - intros H. apply andb_true_iff in H. destruct H as [H1 H2].
    apply Bool.eqb_prop in H1. apply IAST_eqb_eq in H2.
    destruct a, b; cbn in *. congruence.
  - intros <-. now rewrite Bool.eqb_reflx, IAST_eqb_refl.
Qed.

Lemma subset_group_spec (g g' : OrGroup) :
  subset_group g g' = true <-> forall a, In a g -> In a g'.
Proof.
  unfold subset_group. rewrite forallb_forall. split; intros H a Ha.
  - specialize (H a Ha). apply existsb_exists in H. destruct H as (b & Hb & E).
    apply AtomicFormula_eqb_eq in E. now subst.
  - apply existsb_exists. exists a. split; [auto | now apply AtomicFormula_eqb_eq].
Qed.

Lemma ev_group_true (row : Row) (g : OrGroup) :
  ev_group row g = true <-> exists a, In a g /\ ev_atom row a = true.
Proof. apply existsb_exists. Qed.

Lemma subset_group_sound (row : Row) (g g' : OrGroup) :
  subset_group g g' = true -> ev_group row g = true -> ev_group row g' = true.
Proof.
  intros Hs Hg. pose proof (proj1 (subset_group_spec g g') Hs) as Hin.
  apply ev_group_true in Hg.
  destruct Hg as (a & Ha & E). apply ev_group_true. exists a. auto.
Qed.

Lemma remove_duplicates_In (g : OrGroup) (a : AtomicFormula) :
  In a (remove_duplicates g) <-> In a g.
Proof.
  induction g as [| b r IH]; [reflexivity | ].
  cbn [remove_duplicates In]. rewrite filter_In, IH. split.
  - intros [E | [H _]]; auto.
  - intros [E | H]; [now left | ].
    destruct (AtomicFormula_eqb b a) eqn:Eb.
    + left. now apply AtomicFormula_eqb_eq.
    + right. split; [exact H | reflexivity].
Qed.

Lemma ev_group_ext (row : Row) (g g' : OrGroup) :
  (forall a, In a g <-> In a g') -> ev_group row g = ev_group row g'.
Proof.
  intros H. apply Bool.eq_true_iff_eq. rewrite !ev_group_true.
  split; intros (a & Ha & E); exists a; split; auto; now apply H.
Qed.

Lemma ev_cnf_true (row : Row) (cnf : CNFQuery) :
  ev_cnf row cnf = true <-> forall g, In g cnf -> ev_group row g = true.
Proof. apply forallb_forall. Qed.

Lemma remove_equal_groups_sound (row : Row) (cnf : CNFQuery) :
  ev_cnf row (remove_equal_groups cnf) = ev_cnf row cnf.
Proof.
  apply Bool.eq_true_iff_eq. rewrite !ev_cnf_true.
  induction cnf as [| g r IH]; [reflexivity | ].
  cbn [remove_equal_groups]. split.
  - intros H g' [<- | Hg']; [apply H; now left | ].
    destruct (subset_group g g' && subset_group g' g) eqn:E.
    + apply andb_true_iff in E. destruct E as [E1 E2].
      apply (subset_group_sound row g g' E1). apply H. now left.
    + apply (proj1 IH); [ | exact Hg'].
      intros g'' Hg''.
      destruct (subset_group g g'' && subset_group g'' g) eqn:E'.
      * apply andb_true_iff in E'. destruct E' as [E1 E2].
        apply (subset_group_sound row g g'' E1). apply H. now left.
      * apply H. right. apply filter_In. split; [exact Hg'' | now rewrite E'].
  - intros H g' [<- | Hg']; [apply H; now left | ].
    apply filter_In in Hg'. destruct Hg' as [Hg' _].
    apply (proj2 IH); [ | exact Hg']. intros g'' Hg''. apply H. now right.
Qed.

Lemma filter_length_lt {A : Type} (p q : A -> bool) (l : list A) (y : A) :
  (forall x, p x = true -> q x = true) ->
  In y l -> q y = true -> p y = false ->
  List.length (filter p l) < List.length (filter q l).
Proof.
  intros Hpq. induction l as [| x r IH]; intros Hy Hq Hp; [destruct Hy | ].
  assert (Hle : List.length (filter p r) <= List.length (filter q r)).
  { clear IH Hy. induction r as [| z r IHr]; [reflexivity | ]. cbn [filter].
    destruct (p z) eqn:Pz.
    - rewrite (Hpq z Pz). cbn. lia.
    - destruct (q z); cbn; lia. }
  cbn [filter]. destruct Hy as [-> | Hy].
  - rewrite Hq, Hp. cbn. lia.
  - specialize (IH Hy Hq Hp). destruct (p x) eqn:Px.
    + rewrite (Hpq x Px). cbn. lia.
    + destruct (q x); cbn; lia.
Qed.

(** Dropping the strict supersets keeps, under every group, a subset of it
    that stays. *)
Lemma kept_subset (groups : CNFQuery) :
  let keep := fun g => negb (existsb (fun g' => subset_group g' g && negb (subset_group g g'))
                                     groups) in
  forall n g, List.length (filter (fun x => subset_group x g) groups) <= n ->
  In g groups ->
  exists g', In g' (filter keep groups) /\ subset_group g' g = true.
Proof.
  intros keep n. induction n as [| n IH]; intros g Hn Hg.
  - exfalso.
    assert (Hin : In g (filter (fun x => subset_group x g) groups)).
    { apply filter_In. split; [exact Hg | ]. apply subset_group_spec. auto. }
    destruct (filter (fun x => subset_group x g) groups); [destruct Hin | cbn in Hn; lia].
  - destruct (keep g) eqn:K.
    + exists g. split; [now apply filter_In | ]. apply subset_group_spec. auto.
    + unfold keep in K. apply negb_false_iff, existsb_exists in K.
      destruct K as (g1 & Hg1 & E). apply andb_true_iff in E. destruct E as [E1 E2].
      apply negb_true_iff in E2.
      destruct (IH g1) as (g' & Hg' & Hs); [ | exact Hg1 | ].
      * assert (L : List.length (filter (fun x => subset_group x g1) groups)
                    < List.length (filter (fun x => subset_group x g) groups)).
        { apply (filter_length_lt _ _ groups g); [ | exact Hg | | exact E2].
          - intros x Hx. apply subset_group_spec. intros a Ha.
            apply (proj1 (subset_group_spec g1 g) E1).
            apply (proj1 (subset_group_spec x g1) Hx). exact Ha.
          - apply subset_group_spec. auto. }
        lia.
      * exists g'. split; [exact Hg' | ]. apply subset_group_spec. intros a Ha.
        apply (proj1 (subset_group_spec g1 g) E1).
        apply (proj1 (subset_group_spec g' g1) Hs). exact Ha.
Qed.

Lemma reduce_sound (row : Row) (cnf : CNFQuery) :
  ev_cnf row (reduce cnf) = ev_cnf row cnf.
Proof.
  unfold reduce.
  set (groups := remove_equal_groups (map remove_duplicates cnf)).
  transitivity (ev_cnf row groups).
  - apply Bool.eq_true_iff_eq. rewrite !ev_cnf_true. split.
    + intros H g Hg.
      destruct (kept_subset groups _ g (Nat.le_refl _) Hg) as (g' & Hg' & Hs).
      apply (subset_group_sound row g' g Hs). apply H. exact Hg'.
    + intros H g Hg. apply filter_In in Hg. apply H. tauto.
  - unfold groups. rewrite remove_equal_groups_sound.
    induction cnf as [| g r IH]; [reflexivity | ].
    cbn [map]. change (ev_cnf row (remove_duplicates g :: map remove_duplicates r))
      with (ev_group row (remove_duplicates g) && ev_cnf row (map remove_duplicates r)).
    rewrite IH. change (ev_cnf row (g :: r)) with (ev_group row g && ev_cnf row r).
    f_equal. apply ev_group_ext. apply remove_duplicates_In.
Qed.

(** ** Comparisons *)

Lemma holds_inverse (r : CompareResult) (c : comparison) :
  holds (inverseCompareResult r) c = option_map negb (holds r c).
Proof. destruct r, c; reflexivity. Qed.

(** A comparison function of two arguments evaluates to its relation. *)
Lemma apply_function_compare (name : string) (a b : Value) (res : bool) :
  holds (getCompareResult name) (compare_values a b) = Some res ->
  apply_function compare_values other_function name (VTuple [a; b]) = of_bool res.
Proof.
  intros H. unfold apply_function.
  destruct (String.eqb name "and") eqn:Eand.
  { apply String.eqb_eq in Eand. subst name. discriminate H. }
  destruct (String.eqb name "or") eqn:Eor.
  { apply String.eqb_eq in Eor. subst name. discriminate H. }
  cbn [elements]. now rewrite H.
Qed.

Lemma binary_children (arguments : IAST) (arg0 arg1 : IAST) :
  children arguments = [arg0; arg1] -> arguments = ASTExpressionList [arg0; arg1].
Proof. destruct arguments; cbn; intros E; try discriminate; congruence. Qed.

(** The truth value of an atom over a comparison of two arguments, from
    what its negation-adjusted relation gives. *)
Lemma ev_atom_compare (row : Row) (atom : AtomicFormula) (name : string)
  (arguments arg0 arg1 : IAST) (res : bool) :
  ast atom = ASTFunction name arguments ->
  children arguments = [arg0; arg1] ->
  holds (getExpectedCompare atom) (compare_values (ev row arg0) (ev row arg1)) = Some res ->
  ev_atom row atom = res.
Proof.
  intros Hast Hch H. apply binary_children in Hch. subst arguments.
  unfold getExpectedCompare in H. rewrite Hast in H. cbn [as_ASTFunction] in H.
  unfold ev_atom, evaluate_atom. rewrite Hast. cbn [evaluate map].
  fold (ev row arg0). fold (ev row arg1).
  destruct (negative atom).
  - rewrite holds_inverse in H.
    destruct (holds (getCompareResult name) (compare_values (ev row arg0) (ev row arg1)))
      as [res' | ] eqn:E; [ | discriminate].
    rewrite (apply_function_compare name _ _ res' E), truthy_of_bool.
    cbn in H. injection H as <-. destruct res'; reflexivity.
  - rewrite (apply_function_compare name _ _ res H), truthy_of_bool. reflexivity.
Qed.

Lemma inverse_function_relation (name inverse : string) :
  inverse_function name = Some inverse ->
  getCompareResult name <> UNKNOWN
  /\ getCompareResult inverse = inverseCompareResult (getCompareResult name).
Proof.
  unfold inverse_function. intros H.
  repeat match type of H with
         | (if String.eqb name ?k then _ else _) = _ =>
             destruct (String.eqb name k) eqn:E;
             [apply String.eqb_eq in E; subst name; injection H as <-;
              split; [discriminate | reflexivity]
             | clear E]
         end.
  discriminate H.
Qed.

(** ** [pushNotInFuntions] *)

Lemma push_not_sound (row : Row) (a : AtomicFormula) :
  ev_atom row (push_not a) = ev_atom row a.
Proof.
  unfold push_not. destruct a as [[|] [n | v | l | name args]]; cbn [negative ast];
    try reflexivity.
  destruct (inverse_function name) as [inverse | ] eqn:Ei; [ | reflexivity].
  destruct (children args) as [| arg0 [| arg1 [| ? ?]]] eqn:Ec; try reflexivity.
  destruct (inverse_function_relation name inverse Ei) as [Hk Hr].
  destruct (holds (getCompareResult name) (compare_values (ev row arg0) (ev row arg1)))
    as [res | ] eqn:E.
  2:{ destruct (getCompareResult name),
        (compare_values (ev row arg0) (ev row arg1));
        try discriminate E; exfalso; apply Hk; reflexivity. }
  rewrite (ev_atom_compare row {| negative := false; ast := ASTFunction inverse args |}
             inverse args arg0 arg1 (negb res) eq_refl Ec).
  - symmetry.
    apply (ev_atom_compare row {| negative := true; ast := ASTFunction name args |}
             name args arg0 arg1 (negb res) eq_refl Ec).
    unfold getExpectedCompare. cbn. now rewrite holds_inverse, E.
  - unfold getExpectedCompare. cbn. now rewrite Hr, holds_inverse, E.
Qed.

(** ** The comparison graph *)

(** The graph keeps its contract: an always-true comparison holds, an
    impossible one fails, and an expression has the value of its equal
    constant, at every row that satisfies the constraints. *)
Definition graph_sound (cd : ConstraintsDescription) : Prop :=
  forall row, satisfies compare_values other_function row cd ->
    (forall r a b, isAlwaysCompare (getGraph cd) r a b = true ->
                   holds r (compare_values (ev row a) (ev row b)) = Some true)
    /\ (forall r a b, isPossibleCompare (getGraph cd) r a b = false ->
                      holds r (compare_values (ev row a) (ev row b)) = Some false)
    /\ (forall t c, getEqualConst (getGraph cd) t = Some c -> ev row t = ev row c).

Lemma replaceToConstants_sound (cd : ConstraintsDescription) (row : Row) :
  graph_sound cd -> satisfies compare_values other_function row cd ->
  forall t, ev row (replaceToConstants (getGraph cd) t) = ev row t.
Proof.
  intros Hg Hrow. destruct (Hg row Hrow) as (_ & _ & Hc).
  intros t. induction t as [n | v | l IH | n a IH] using IAST_ind';
    cbn [replaceToConstants];
    match goal with
    | |- context [getEqualConst ?g ?t] => destruct (getEqualConst g t) as [c | ] eqn:Ec
    end; try (symmetry; apply Hc; exact Ec); try reflexivity.
  - unfold ev. cbn [evaluate]. f_equal. clear Ec.
    induction IH as [| x r Hx _ IHr]; [reflexivity | ].
    cbn [map]. f_equal; [exact Hx | exact IHr].
  - unfold ev. cbn [evaluate]. f_equal. exact IH.
Qed.

(** ** The two filters *)

(** The guards.  On the groups of the query: no atom has the fingerprint of
    a declared atom with another expression; no group holds two atoms of
    the same fingerprint and polarity; and a declared atom that meets an
    atom of the query with the opposite polarity is alone in its declared
    group. *)
Definition no_collision (cd : ConstraintsDescription) (q : CNFQuery) : Prop :=
  forall g a c, In g q -> In a g -> declared_atom cd c ->
                h (ast a) = h (ast c) -> ast a = ast c.

Definition no_duplicates (q : CNFQuery) : Prop :=
  forall g, In g q -> NoDup (map (atom_key h) g).

Definition opposite_only_alone (cd : ConstraintsDescription) (q : CNFQuery) : Prop :=
  forall g a grp c, In g q -> In a g -> In grp (getConstraintData cd) -> In c grp ->
                    h (ast c) = h (ast a) -> negative c <> negative a -> grp = [c].

(** The index appender keeps its contract: what it adds follows from the
    CNF and the constraints. *)
Definition appender_sound (appender : StorageInMemoryMetadata -> CNFQuery -> CNFQuery)
  (metadata : StorageInMemoryMetadata) : Prop :=
  forall cnf row, satisfies compare_values other_function row (getConstraints metadata) ->
                  ev_cnf row (appender metadata cnf) = ev_cnf row cnf.

Lemma satisfies_group (row : Row) (cd : ConstraintsDescription) (grp : list AtomicFormula) :
  satisfies compare_values other_function row cd ->
  In grp (getConstraintData cd) -> ev_group row grp = true.
Proof.
  intros Hrow Hin. unfold satisfies in Hrow.
  apply (proj1 (ev_cnf_true row _) Hrow). exact Hin.
Qed.

(** A group that [filterAlwaysTrueGroups] drops holds. *)
Lemma always_true_group_sound (metadata : StorageInMemoryMetadata) (row : Row)
  (q : CNFQuery) (g : OrGroup) :
  graph_sound (getConstraints metadata) ->
  no_collision (getConstraints metadata) q -> no_duplicates q ->
  satisfies compare_values other_function row (getConstraints metadata) ->
  In g q ->
  not_always_true_group h metadata g = false -> ev_group row g = true.
Proof.
  intros Hg Hnc Hnd Hrow Hin H. unfold not_always_true_group in H.
  apply andb_false_iff in H. destruct H as [H | H]; apply negb_false_iff in H.
  - destruct (checkIfGroupAlwaysTrueFullMatch_covered h _ g (Hnd g Hin) H)
      as (grp & Hgrp & _ & Hall).
    pose proof (satisfies_group row _ grp Hrow Hgrp) as Ht.
    apply ev_group_true in Ht. destruct Ht as (c & Hc & Et).
    pose proof (Hall c Hc) as Hcov. apply covered_iff in Hcov.
    destruct Hcov as (a & Ha & E1 & E2).
    assert (Ea : ast a = ast c).
    { apply (Hnc g a c Hin Ha); [exists grp; auto | exact E1]. }
    apply ev_group_true. exists a. split; [exact Ha | ].
    replace a with c by (destruct a, c; cbn in *; congruence). exact Et.
  - apply checkIfGroupAlwaysTrueGraph_first in H.
    destruct H as (before & atom & after & -> & _ & name & arguments & arg0 & arg1
                   & E1 & E2 & E3).
    apply ev_group_true. exists atom. split; [apply in_elt | ].
    apply (ev_atom_compare row atom name arguments arg0 arg1 true E1 E2).
    apply (proj1 (Hg row Hrow)). exact E3.
Qed.

(** An atom that [filterAlwaysFalseAtoms] drops fails. *)
Lemma always_false_atom_sound (metadata : StorageInMemoryMetadata) (row : Row)
  (q : CNFQuery) (g : OrGroup) (a : AtomicFormula) :
  graph_sound (getConstraints metadata) ->
  no_collision (getConstraints metadata) q ->
  opposite_only_alone (getConstraints metadata) q ->
  satisfies compare_values other_function row (getConstraints metadata) ->
  In g q -> In a g ->
  not_always_false_atom h metadata a = false -> ev_atom row a = false.
Proof.
  intros Hg Hnc Hop Hrow Hin Ha H. apply not_always_false_atom_spec in H.
  destruct H as [(c & (grp & Hgrp & Hc) & E & N) | (name & arguments & arg0 & arg1
                                                    & E1 & E2 & E3)].
  - pose proof (Hop g a grp c Hin Ha Hgrp Hc E N) as Hone. subst grp.
    pose proof (satisfies_group row _ [c] Hrow Hgrp) as Ht.
    apply ev_group_true in Ht. destruct Ht as (c' & [<- | []] & Et).
    assert (Ea : ast a = ast c).
    { apply (Hnc g a c Hin Ha); [exists [c]; auto | now symmetry]. }
    unfold ev_atom, evaluate_atom in *. rewrite Ea.
    destruct (negative c), (negative a),
      (truthy (evaluate compare_values other_function row (ast c)));
      cbn in *; congruence.
  - apply (ev_atom_compare row a name arguments arg0 arg1 false E1 E2).
    apply (proj1 (proj2 (Hg row Hrow))). exact E3.
Qed.

Lemma filter_groups_sound (p : OrGroup -> bool) (row : Row) (cnf : CNFQuery) :
  (forall g, In g cnf -> p g = false -> ev_group row g = true) ->
  ev_cnf row (filter p cnf) = ev_cnf row cnf.
Proof.
  intros Hp. apply Bool.eq_true_iff_eq. rewrite !ev_cnf_true. split.
  - intros H g Hg. destruct (p g) eqn:E; [apply H, filter_In; auto | now apply Hp].
  - intros H g Hg. apply filter_In in Hg. apply H. tauto.
Qed.

Lemma filter_atoms_sound (p : AtomicFormula -> bool) (row : Row) (g : OrGroup) :
  (forall a, In a g -> p a = false -> ev_atom row a = false) ->
  ev_group row (filter p g) = ev_group row g.
Proof.
  intros Hp. apply Bool.eq_true_iff_eq. rewrite !ev_group_true. split.
  - intros (a & Ha & E). apply filter_In in Ha. exists a. tauto.
  - intros (a & Ha & E). exists a. split; [ | exact E]. apply filter_In.
    split; [exact Ha | ]. destruct (p a) eqn:P; [reflexivity | ].
    rewrite (Hp a Ha P) in E. discriminate E.
Qed.

(** ** The chain of rewrites *)

Lemma optimize_cnf_sound (metadata : StorageInMemoryMetadata) (row : Row) (cnf : CNFQuery) :
  graph_sound (getConstraints metadata) ->
  no_collision (getConstraints metadata) (pullNotOutFunctions cnf) ->
  no_duplicates (pullNotOutFunctions cnf) ->
  opposite_only_alone (getConstraints metadata) (pullNotOutFunctions cnf) ->
  satisfies compare_values other_function row (getConstraints metadata) ->
  ev_cnf row (optimize_cnf h metadata cnf) = ev_cnf row cnf.
Proof.
  intros Hg Hnc Hnd Hop Hrow. unfold optimize_cnf.
  set (q := pullNotOutFunctions cnf) in *.
  unfold pushNotInFuntions.
  rewrite map_atoms_sound by (intros g a _ _; apply push_not_sound).
  rewrite reduce_sound. unfold transformAtoms.
  rewrite map_atoms_sound.
  2:{ intros g a _ _. unfold ev_atom, evaluate_atom, replaceTermsToConstants.
      cbn [negative ast]. fold (ev row (replaceToConstants (getGraph (getConstraints metadata))
                                                           (ast a))).
      now rewrite (replaceToConstants_sound _ row Hg Hrow). }
  unfold filterAlwaysFalseAtoms, filterAlwaysTrueGroups.
  transitivity (ev_cnf row (filter (not_always_true_group h metadata) q)).
  - generalize (fun g (Hg' : In g (filter (not_always_true_group h metadata) q)) =>
                  proj1 (proj1 (filter_In _ g q) Hg')).
    generalize (filter (not_always_true_group h metadata) q). intros l Hl.
    induction l as [| g l IH]; [reflexivity | ].
    cbn [map].
    change (ev_cnf row (filter (not_always_false_atom h metadata) g
                          :: map (filter (not_always_false_atom h metadata)) l))
      with (ev_group row (filter (not_always_false_atom h metadata) g)
            && ev_cnf row (map (filter (not_always_false_atom h metadata)) l)).
    change (ev_cnf row (g :: l)) with (ev_group row g && ev_cnf row l).
    rewrite IH by (intros g' Hg'; apply Hl; now right). f_equal.
    apply filter_atoms_sound. intros a Ha Pa.
    apply (always_false_atom_sound metadata row q g a Hg Hnc Hop Hrow);
      [apply Hl; now left | exact Ha | exact Pa].
  - rewrite filter_groups_sound.
    + apply pullNotOutFunctions_sound.
    + intros g Hin Pg.
      apply (always_true_group_sound metadata row q g Hg Hnc Hnd Hrow Hin Pg).
Qed.

(** Under the guards, the rewritten WHERE of [perform] evaluates as the
    original one at every row that satisfies the table's constraints. *)
Lemma perform_sound_under_guards (cnf_limit : nat)
  (appender : StorageInMemoryMetadata -> CNFQuery -> CNFQuery)
  (this : WhereConstraintsOptimizer) (log : list LogLine)
  (where_expression : IAST) (metadata : StorageInMemoryMetadata) (row : Row) :
  where_ (select_query this) = Some where_expression ->
  metadata_snapshot this = Some metadata ->
  graph_sound (getConstraints metadata) ->
  appender_sound appender metadata ->
  no_collision (getConstraints metadata)
               (pullNotOutFunctions (toCNF cnf_limit where_expression)) ->
  no_duplicates (pullNotOutFunctions (toCNF cnf_limit where_expression)) ->
  opposite_only_alone (getConstraints metadata)
                      (pullNotOutFunctions (toCNF cnf_limit where_expression)) ->
  satisfies compare_values other_function row (getConstraints metadata) ->
  evaluate_where compare_values other_function row
    (fst (perform h cnf_limit appender this log))
  = evaluate_where compare_values other_function row (select_query this).
Proof.
  intros Hw Hm Hg Happ Hnc Hnd Hop Hrow.
  unfold perform. rewrite Hw, Hm. cbn [fst].
  unfold evaluate_where. rewrite Hw. cbn [setExpression_WHERE where_].
  fold (ev row (fromCNF
                  (if optimize_append_index this
                   then appender metadata (optimize_cnf h metadata (toCNF cnf_limit where_expression))
                   else optimize_cnf h metadata (toCNF cnf_limit where_expression)))).
  rewrite fromCNF_sound.
  transitivity (ev_cnf row (optimize_cnf h metadata (toCNF cnf_limit where_expression))).
  - destruct (optimize_append_index this); [apply Happ, Hrow | reflexivity].
  - rewrite (optimize_cnf_sound metadata row _ Hg Hnc Hnd Hop Hrow).
    apply toCNF_sound.
Qed.

End Soundness.

(** The declared constraint [greater(x, 0)] and the query
    [WHERE greater(x, 0) OR equals(y, 1)]. *)
Definition x_positive : IAST :=
  makeASTFunction "greater" [ASTIdentifier "x"; ASTLiteral (FieldInt 0)].

Definition check_x_positive : StorageInMemoryMetadata :=
  metadata_of [[positive_atom x_positive]] empty_graph.

Definition where_x_positive_or_y_is_1 : IAST :=
  makeASTFunction "or"
    [x_positive; makeASTFunction "equals" [ASTIdentifier "y"; ASTLiteral (FieldInt 1)]].

Definition optimizer_x_positive : WhereConstraintsOptimizer :=
  {| select_query := {| where_ := Some where_x_positive_or_y_is_1;
                        other_expressions := [] |};
     metadata_snapshot := Some check_x_positive;
     optimize_append_index := true |}.

(** The guards hold for them: the group is dropped, and the rewritten
    query keeps every row that satisfies the constraint, as the original
    one does. *)
Lemma perform_sound_example (compare_values : Value -> Value -> comparison)
  (other_function : string -> Value -> Value) (row : Row) :
  satisfies compare_values other_function row (getConstraints check_x_positive) ->
  fst (perform example_hash 100 (fun _ cnf => cnf) optimizer_x_positive [])
  = {| where_ := Some (makeASTFunction "and" []); other_expressions := [] |}
  /\ evaluate_where compare_values other_function row (select_query optimizer_x_positive)
     = true.
Proof.
  intros Hrow. split; [reflexivity | ].
  rewrite <- (perform_sound_under_guards compare_values other_function example_hash 100
                (fun _ cnf => cnf) optimizer_x_positive [] where_x_positive_or_y_is_1
                check_x_positive row eq_refl eq_refl); [reflexivity | .. ].
  - intros r _. split; [ | split]; intros; discriminate.
  - intros cnf r _. reflexivity.
  - intros g a c [<- | []] Ha (grp & [<- | []] & [<- | []]) Hh.
    destruct Ha as [<- | [<- | []]]; [reflexivity | ].
    vm_compute in Hh. discriminate Hh.
  - intros g [<- | []]. apply NoDup_cons.
    + intros [H | []]. vm_compute in H. discriminate H.
    + apply NoDup_cons; [intros [] | apply NoDup_nil].
  - intros g a grp c [<- | []] Ha [<- | []] [<- | []] Hh Hn.
    reflexivity.
  - exact Hrow.
Qed.

(* ===================================================================== *)
(** * Part V: the other text writers of WriteHelpers.h                    *)
(* ===================================================================== *)

Module WriteText.

Import WriteHelpers.

(** ** Strings *)

(** [writeString(s, buf)]: [buf.write(s.data(), s.size())]. *)
Definition writeString (s : list ascii) (buf : WriteBuffer) : WriteBuffer :=
  write s (Z.of_nat (List.length s)) buf.

(** [writeBoolText(x, buf)] *)
Definition writeBoolText (x : bool) (buf : WriteBuffer) : WriteBuffer :=
  writeChar (if x then "1"%char else "0"%char) buf.

(** The [switch] of [writeAnyEscapedString<c>] on the byte at [it]; the
    labels are tried in the order of the source, [case c] after the seven
    fixed ones. *)
Definition writeAnyEscapedString_switch (c it : ascii) (buf : WriteBuffer) : WriteBuffer :=
  if Ascii.eqb it "008" then writeChar "b" (writeChar "\" buf)
  else if Ascii.eqb it "012" then writeChar "f" (writeChar "\" buf)
  else if Ascii.eqb it "010" then writeChar "n" (writeChar "\" buf)
  else if Ascii.eqb it "013" then writeChar "r" (writeChar "\" buf)
  else if Ascii.eqb it "009" then writeChar "t" (writeChar "\" buf)
  else if Ascii.eqb it "000" then writeChar "0" (writeChar "\" buf)
  else if Ascii.eqb it "\" then writeChar "\" (writeChar "\" buf)
  else if Ascii.eqb it c then writeChar c (writeChar "\" buf)
  else writeChar it buf.

(** [template <char c> void writeAnyEscapedString(begin, end, buf)], on the
    bytes from [begin] to [end]; the overload on a [String] passes
    [s.data()] and [s.data() + s.size()]. *)
Fixpoint writeAnyEscapedString (c : ascii) (s : list ascii) (buf : WriteBuffer)
  : WriteBuffer :=
  match s with
  | [] => buf
  | it :: rest => writeAnyEscapedString c rest (writeAnyEscapedString_switch c it buf)
  end.

(** [s.data()]: the bytes of the string, then the terminating zero. *)
Definition data (s : list ascii) : list ascii := s ++ ["000"%char].

(** [strlen(p)]: the number of bytes in front of the first zero. *)
Fixpoint strlen (p : list ascii) : nat :=
  match p with
  | [] => 0
  | x :: r => if Ascii.eqb x "000" then 0 else S (strlen r)
  end.

(** [strpbrk(p, accept)]: the offset of the first byte of the C string [p]
    that occurs in the C string [accept]; [None] is [NULL]. *)
Fixpoint strpbrk (p accept : list ascii) : option nat :=
  match p with
  | [] => None
  | x :: r =>
      if Ascii.eqb x "000" then None
      else if existsb (Ascii.eqb x) (firstn (strlen accept) accept) then Some 0
           else option_map S (strpbrk r accept)
  end.

(** The literal ["\b\f\n\r\t\'\\"]. *)
Definition escaped_characters : list ascii :=
  ["008"; "012"; "010"; "013"; "009"; "'"; "\"; "000"]%char.

(** [writeEscapedString(s, buf)] *)
Definition writeEscapedString (s : list ascii) (buf : WriteBuffer) : WriteBuffer :=
  if match strpbrk (data s) escaped_characters with None => true | Some _ => false end
     && Nat.eqb (strlen (data s)) (List.length s)
  then writeString s buf
  else writeAnyEscapedString "'" s buf.

(** [template <char c> void writeAnyQuotedString(s, buf)] *)
Definition writeAnyQuotedString (c : ascii) (s : list ascii) (buf : WriteBuffer)
  : WriteBuffer :=
  writeChar c (writeAnyEscapedString c s (writeChar c buf)).

(** [writeQuotedString], [writeDoubleQuotedString], [writeBackQuotedString] *)
Definition writeQuotedString : list ascii -> WriteBuffer -> WriteBuffer :=
  writeAnyQuotedString "'".

Definition writeDoubleQuotedString : list ascii -> WriteBuffer -> WriteBuffer :=
  writeAnyQuotedString "034".

Definition writeBackQuotedString : list ascii -> WriteBuffer -> WriteBuffer :=
  writeAnyQuotedString "`".

(** The value of a [char] in a comparison: [char] is signed. *)
Definition char_value (x : ascii) : Z :=
  let n := Z.of_N (N_of_ascii x) in
  if (n <? 128)%Z then n else (n - 256)%Z.

(** [(x >= 'a' && x <= 'z') || (x >= 'A' && x <= 'Z') || x == '_'] *)
Definition is_word_start (x : ascii) : bool :=
  ((97 <=? char_value x)%Z && (char_value x <=? 122)%Z)
  || ((65 <=? char_value x)%Z && (char_value x <=? 90)%Z)
  || (char_value x =? 95)%Z.

(** The same with [(x >= '0' && x <= '9')]. *)
Definition is_word_char (x : ascii) : bool :=
  ((97 <=? char_value x)%Z && (char_value x <=? 122)%Z)
  || ((65 <=? char_value x)%Z && (char_value x <=? 90)%Z)
  || ((48 <=? char_value x)%Z && (char_value x <=? 57)%Z)
  || (char_value x =? 95)%Z.

(** [for (; pos < end; ++pos) if (!(...)) break;] over the bytes from
    [pos] on: the offset at which the loop stops. *)
Fixpoint word_loop (from_pos : list ascii) (pos : nat) : nat :=
  match from_pos with
  | [] => pos
  | x :: r => if negb (is_word_char x) then pos else word_loop r (S pos)
  end.

(** [writeProbablyBackQuotedString(s, buf)] *)
Definition writeProbablyBackQuotedString (s : list ascii) (buf : WriteBuffer)
  : WriteBuffer :=
  match s with
  | [] => writeBackQuotedString s buf
  | s0 :: from_1 =>
      if negb (is_word_start s0) then writeBackQuotedString s buf
      else
        let pos := word_loop from_1 1 in
        if negb (Nat.eqb pos (List.length s))
        then writeBackQuotedString s buf
        else writeString s buf
  end.

(** ** Rows *)

(** [mysqlxx::Row], as far as [writeEscapedRow] reads it: for each field,
    nothing when [isNull()], its [length()] bytes at [data()] otherwise. *)
Definition mysqlxx_Row : Set := list (option (list ascii)).

(** The loop of [writeEscapedRow] from the field [i] on. *)
Fixpoint writeEscapedRow_loop (fields : mysqlxx_Row) (i : nat) (buf : WriteBuffer)
  : WriteBuffer :=
  match fields with
  | [] => buf
  | field :: rest =>
      let buf1 := if negb (Nat.eqb i 0) then writeChar "009" buf else buf in
      let buf2 := match field with
                  | None => write ["\"; "N"]%char 2 buf1
                  | Some bytes => writeAnyEscapedString "'" bytes buf1
                  end in
      writeEscapedRow_loop rest (S i) buf2
  end.

(** [writeEscapedRow(row, buf)] *)
Definition writeEscapedRow (row : mysqlxx_Row) (buf : WriteBuffer) : WriteBuffer :=
  writeEscapedRow_loop row 0 buf.

(** ** Dates *)

(** [s[i] += v] on a [char] array: the sum is taken in [int] and converted
    back to [char].  The indices of the source lie inside the arrays. *)
Fixpoint add_at (s : list ascii) (i : nat) (v : Z) : list ascii :=
  match s, i with
  | [], _ => []
  | x :: r, O => char_of_int (char_value x + v) :: r
  | x :: r, S i' => x :: add_at r i' v
  end.

(** [mysqlxx::Date] and [mysqlxx::DateTime], as far as the writers read
    them: the values of the accessors, which are unsigned. *)
Record Date : Set := { year : Z; month : Z; day : Z }.

Record DateTime : Set := {
  date_of : Date;
  hour : Z; minute : Z; second : Z
}.

(** The year, month and day written into [s] from its start. *)
Definition put_date (s : list ascii) (y m d : Z) : list ascii :=
  let s := add_at s 0 (Z.quot y 1000) in
  let s := add_at s 1 (Z.rem (Z.quot y 100) 10) in
  let s := add_at s 2 (Z.rem (Z.quot y 10) 10) in
  let s := add_at s 3 (Z.rem y 10) in
  let s := add_at s 5 (Z.quot m 10) in
  let s := add_at s 6 (Z.rem m 10) in
  let s := add_at s 8 (Z.quot d 10) in
  add_at s 9 (Z.rem d 10).

(** The hour, minute and second written into [s] from its offset 11. *)
Definition put_time (s : list ascii) (hh mm ss : Z) : list ascii :=
  let s := add_at s 11 (Z.quot hh 10) in
  let s := add_at s 12 (Z.rem hh 10) in
  let s := add_at s 14 (Z.quot mm 10) in
  let s := add_at s 15 (Z.rem mm 10) in
  let s := add_at s 17 (Z.quot ss 10) in
  add_at s 18 (Z.rem ss 10).

(** [char s[10] = {'0', '0', '0', '0', '-', '0', '0', '-', '0', '0'}] *)
Definition date_zeros : list ascii := list_ascii_of_string "0000-00-00".

(** [char s[19] = {'0', '0', '0', '0', '-', ..., ':', '0', '0'}] *)
Definition date_time_zeros : list ascii := list_ascii_of_string "0000-00-00 00:00:00".

(** [writeDateText(mysqlxx::Date date, buf)] *)
Definition writeDateText (date : Date) (buf : WriteBuffer) : WriteBuffer :=
  write (put_date date_zeros (year date) (month date) (day date)) 10 buf.

(** [writeDateTimeText(mysqlxx::DateTime datetime, buf)] *)
Definition writeDateTimeText (datetime : DateTime) (buf : WriteBuffer) : WriteBuffer :=
  let d := date_of datetime in
  write (put_time (put_date date_time_zeros (year d) (month d) (day d))
                  (hour datetime) (minute datetime) (second datetime))
        19 buf.

(** [writeQuoted(const mysqlxx::Date & x, buf)] and
    [writeQuoted(const mysqlxx::DateTime & x, buf)] *)
Definition writeQuoted_Date (x : Date) (buf : WriteBuffer) : WriteBuffer :=
  writeChar "'" (writeDateText x (writeChar "'" buf)).

Definition writeQuoted_DateTime (x : DateTime) (buf : WriteBuffer) : WriteBuffer :=
  writeChar "'" (writeDateTimeText x (writeChar "'" buf)).

(** [Yandex::DateLUT::Values], as far as the writers read it. *)
Module DateLUT.
Record Values : Set := { year : Z; month : Z; day_of_month : Z }.
End DateLUT.

Section DateLUTSingleton.

(** [Yandex::DateLUT] is not among the sources: its singleton is taken as
    the queries the writers ask of it, and its two bounds as given. *)
Variable DATE_LUT_MAX_DAY_NUM : Z.
Variable DATE_LUT_MAX : Z.
Variable getValues_of_day : Z -> DateLUT.Values.
Variable getValues_of_time : Z -> DateLUT.Values.
Variable toHourInaccurate : Z -> Z.
Variable toMinute : Z -> Z.
Variable toSecond : Z -> Z.

(** [writeDateText(Yandex::DayNum_t date, buf)] *)
Definition writeDateText_DayNum (date : Z) (buf : WriteBuffer) : WriteBuffer :=
  if (DATE_LUT_MAX_DAY_NUM <? date)%Z || (date =? 0)%Z
  then write date_zeros 10 buf
  else
    let values := getValues_of_day date in
    write (put_date date_zeros (DateLUT.year values) (DateLUT.month values)
                    (DateLUT.day_of_month values))
          10 buf.

(** [writeDateTimeText(time_t datetime, buf)]; [hour], [minute] and
    [second] are [UInt8] variables. *)
Definition writeDateTimeText_time_t (datetime : Z) (buf : WriteBuffer) : WriteBuffer :=
  if (DATE_LUT_MAX <? datetime)%Z || (datetime =? 0)%Z
  then write date_time_zeros 19 buf
  else
    let values := getValues_of_time datetime in
    let hour := wrap UInt8 (toHourInaccurate datetime) in
    let minute := wrap UInt8 (toMinute datetime) in
    let second := wrap UInt8 (toSecond datetime) in
    write (put_time (put_date date_time_zeros (DateLUT.year values) (DateLUT.month values)
                              (DateLUT.day_of_month values))
                    hour minute second)
          19 buf.

End DateLUTSingleton.

(** ** Properties of the string writers *)

Lemma writeString_app (s : list ascii) (buf : WriteBuffer) : writeString s buf = buf ++ s.
Proof. unfold writeString. apply write_all. reflexivity. Qed.

(** The bytes the [switch] has a label for. *)
Definition needs_escape (c it : ascii) : bool :=
  existsb (Ascii.eqb it) ["008"; "012"; "010"; "013"; "009"; "000"; "\"; c]%char.

(** What the [switch] writes for a byte, and the loop for a string. *)
Definition escaped_char (c it : ascii) : list ascii :=
  writeAnyEscapedString_switch c it [].

Definition escaped (c : ascii) (s : list ascii) : list ascii :=
  flat_map (escaped_char c) s.

Ltac switch_cases :=
  unfold escaped_char, writeAnyEscapedString_switch, writeChar;
  repeat match goal with
         | |- context [Ascii.eqb ?a ?b] => destruct (Ascii.eqb_spec a b)
         end.

Lemma switch_app (c it : ascii) (buf : WriteBuffer) :
  writeAnyEscapedString_switch c it buf = buf ++ escaped_char c it.
Proof. switch_cases; rewrite <- ?app_assoc; reflexivity. Qed.

Lemma writeAnyEscapedString_app (c : ascii) (s : list ascii) :
  forall buf, writeAnyEscapedString c s buf = buf ++ escaped c s.
Proof.
  induction s as [| it rest IH]; intros buf; cbn [writeAnyEscapedString escaped flat_map].
  - now rewrite app_nil_r.
  - rewrite IH, switch_app, <- app_assoc. reflexivity.
Qed.

(** The letters that follow a backslash for the seven fixed labels, and
    the bytes they stand for. *)
Definition escape_letters : list ascii := ["b"; "f"; "n"; "r"; "t"; "0"; "\"]%char.

Definition unescape_letter (l : ascii) : ascii :=
  if Ascii.eqb l "b" then "008"
  else if Ascii.eqb l "f" then "012"
  else if Ascii.eqb l "n" then "010"
  else if Ascii.eqb l "r" then "013"
  else if Ascii.eqb l "t" then "009"
  else if Ascii.eqb l "0" then "000"
  else l.

(** The bytes no escaped text holds. *)
Definition control_characters : list ascii :=
  ["008"; "012"; "010"; "013"; "009"; "000"]%char.

(** A byte is written as it is, or as a backslash and a letter. *)
Lemma escaped_char_shape (c it : ascii) :
  (needs_escape c it = false /\ escaped_char c it = [it])
  \/ (needs_escape c it = true
      /\ exists l, escaped_char c it = ["\"%char; l]
                   /\ ((In l escape_letters /\ it = unescape_letter l)
                       \/ (l = c /\ it = c /\ ~ In c ("\"%char :: control_characters)))).
Proof.
  unfold needs_escape. cbn [existsb].
  switch_cases; cbn [orb];
    try (right; split; [reflexivity | ];
         eexists; split; [reflexivity | left; split; [cbn; tauto | subst; reflexivity]]).
  - right. split; [reflexivity | ]. exists c. split; [reflexivity | right].
    split; [reflexivity | ]. split; [assumption | ]. subst it.
    cbn. intuition congruence.
  - left. split; reflexivity.
Qed.

Lemma needs_escape_control (c it : ascii) :
  needs_escape c it = false -> ~ In it ("\"%char :: control_characters) /\ it <> c.
Proof.
  unfold needs_escape. cbn [existsb]. intros H.
  repeat (apply orb_false_iff in H; destruct H as [? H]).
  repeat match goal with
         | E : Ascii.eqb _ _ = false |- _ => apply Ascii.eqb_neq in E
         end.
  split; [cbn; intuition congruence | assumption].
Qed.

Lemma escaped_length (c : ascii) (s : list ascii) :
  List.length (escaped c s) = List.length s + List.length (filter (needs_escape c) s).
Proof.
  induction s as [| it rest IH]; [reflexivity | ].
  cbn [escaped flat_map filter]. fold (escaped c rest). rewrite length_app, IH.
  destruct (escaped_char_shape c it) as [[-> ->] | [-> (l & -> & _)]]; cbn; lia.
Qed.

Lemma escaped_clean (c : ascii) (s : list ascii) :
  forallb (fun it => negb (needs_escape c it)) s = true -> escaped c s = s.
Proof.
  induction s as [| it rest IH]; [reflexivity | ].
  cbn [forallb escaped flat_map]. fold (escaped c rest).
  intros H. apply andb_true_iff in H. destruct H as [Hit Hrest].
  apply negb_true_iff in Hit. rewrite (IH Hrest).
  destruct (escaped_char_shape c it) as [[_ ->] | [E _]]; [reflexivity | congruence].
Qed.

Lemma escaped_no_control (c : ascii) (s : list ascii) (x : ascii) :
  In x (escaped c s) -> ~ In x control_characters.
Proof.
  unfold escaped. rewrite in_flat_map. intros (it & _ & Hx).
  destruct (escaped_char_shape c it) as [[Hn E] | [_ (l & E & Hl)]]; rewrite E in Hx.
  - destruct Hx as [<- | []]. apply needs_escape_control in Hn.
    intros Hc. apply (proj1 Hn). now right.
  - destruct Hx as [<- | [<- | []]]; [cbn; intuition congruence | ].
    destruct Hl as [[Hl _] | (-> & _ & Hc)].
    + cbn in Hl. cbn. intuition (subst; congruence).
    + intros Hx. apply Hc. now right.
Qed.

(** X4.  Writing [s] escaped appends to the buffer, one or two bytes for each
    byte of [s], and none of the appended bytes is a backspace, a form
    feed, a line feed, a carriage return, a tab or a zero. *)
Theorem writeAnyEscapedString_appends (c : ascii) (s : list ascii) (buf : WriteBuffer) :
  exists text,
    writeAnyEscapedString c s buf = buf ++ text
    /\ List.length text = List.length s + List.length (filter (needs_escape c) s)
    /\ forall x, In x text -> ~ In x control_characters.
Proof.
  exists (escaped c s). split; [apply writeAnyEscapedString_app | ].
  split; [apply escaped_length | apply escaped_no_control].
Qed.

Lemma escaped_unchanged (c : ascii) (s : list ascii) :
  escaped c s = s <-> forallb (fun it => negb (needs_escape c it)) s = true.
Proof.
  split; [ | apply escaped_clean].
  intros E. pose proof (escaped_length c s) as L. rewrite E in L.
  assert (Hf : filter (needs_escape c) s = []).
  { destruct (filter (needs_escape c) s); [reflexivity | cbn in L; lia]. }
  apply forallb_forall. intros it Hit.
  destruct (needs_escape c it) eqn:N; [ | reflexivity].
  assert (Hin : In it (filter (needs_escape c) s)) by (apply filter_In; auto).
  rewrite Hf in Hin. destruct Hin.
Qed.

(** X5.  A string comes out of the escaping as it went in exactly when it
    holds none of the bytes the [switch] has a label for. *)
Theorem writeAnyEscapedString_unchanged (c : ascii) (s : list ascii) (buf : WriteBuffer) :
  writeAnyEscapedString c s buf = buf ++ s
  <-> forallb (fun it => negb (needs_escape c it)) s = true.
Proof.
  rewrite writeAnyEscapedString_app, <- escaped_unchanged. split.
  - apply app_inv_head.
  - intros ->. reflexivity.
Qed.

Lemma escaped_char_inj (c : ascii) :
  ~ In c ["b"; "f"; "n"; "r"; "t"; "0"]%char ->
  forall x y r1 r2,
  escaped_char c x ++ r1 = escaped_char c y ++ r2 -> x = y /\ r1 = r2.
Proof.
  intros Hc x y r1 r2.
  destruct (escaped_char_shape c x) as [[Nx ->] | [_ (lx & -> & Hx)]];
    destruct (escaped_char_shape c y) as [[Ny ->] | [_ (ly & -> & Hy)]];
    cbn [app]; intros E.
  - injection E as -> ->. split; reflexivity.
  - injection E as -> _. apply needs_escape_control in Nx.
    exfalso. apply (proj1 Nx). now left.
  - injection E as <- _. apply needs_escape_control in Ny.
    exfalso. apply (proj1 Ny). now left.
  - injection E as -> ->. split; [ | reflexivity].
    destruct Hx as [[Lx ->] | (Ex & -> & Cx)], Hy as [[Ly ->] | (Ey & -> & Cy)];
      try reflexivity.
    + exfalso. subst ly. cbn in Lx, Hc, Cy. intuition congruence.
    + exfalso. subst ly. cbn in Ly, Hc, Cx. intuition congruence.
Qed.

Lemma escaped_char_not_nil (c it : ascii) : escaped_char c it <> [].
Proof.
  destruct (escaped_char_shape c it) as [[_ ->] | [_ (l & -> & _)]]; discriminate.
Qed.

Lemma escaped_inj (c : ascii) :
  ~ In c ["b"; "f"; "n"; "r"; "t"; "0"]%char ->
  forall s1 s2, escaped c s1 = escaped c s2 -> s1 = s2.
Proof.
  intros Hc. induction s1 as [| x r1 IH]; intros [| y r2]; cbn [escaped flat_map];
    intros E.
  - reflexivity.
  - symmetry in E. apply app_eq_nil in E. destruct E as [E _].
    now apply escaped_char_not_nil in E.
  - apply app_eq_nil in E. destruct E as [E _]. now apply escaped_char_not_nil in E.
  - change (escaped_char c x ++ escaped c r1 = escaped_char c y ++ escaped c r2) in E.
    apply (escaped_char_inj c Hc) in E. destruct E as [-> E]. now rewrite (IH r2 E).
Qed.

(** X6.  When the quote [c] is none of the letters [b f n r t 0], the escaping
    loses nothing: two strings with the same escaped text are the same
    string. *)
Theorem writeAnyEscapedString_injective (c : ascii) (s1 s2 : list ascii)
  (buf : WriteBuffer) :
  ~ In c ["b"; "f"; "n"; "r"; "t"; "0"]%char ->
  writeAnyEscapedString c s1 buf = writeAnyEscapedString c s2 buf ->
  s1 = s2.
Proof.
  intros Hc. rewrite !writeAnyEscapedString_app. intros E.
  apply app_inv_head in E. exact (escaped_inj c Hc s1 s2 E).
Qed.

Lemma writeAnyEscapedString_injective_witness :
  list_ascii_of_string "it's" = list_ascii_of_string "it's".
Proof.
  apply (writeAnyEscapedString_injective "'" _ _ []).
  - cbn. intuition discriminate.
  - reflexivity.
Defined.

(** ** [writeEscapedString] *)

Lemma strlen_data (s : list ascii) :
  strlen (data s) = List.length s -> ~ In "000"%char s.
Proof.
  unfold data. induction s as [| x r IH]; cbn [strlen app List.length]; [tauto | ].
  destruct (Ascii.eqb_spec x "000") as [-> | Hx]; [discriminate | ].
  intros E. injection E as E. intros [H | H]; [congruence | exact (IH E H)].
Qed.

Lemma strpbrk_data (s : list ascii) :
  ~ In "000"%char s ->
  strpbrk (data s) escaped_characters = None ->
  forall x, In x s -> ~ In x ["008"; "012"; "010"; "013"; "009"; "'"; "\"]%char.
Proof.
  unfold data. induction s as [| y r IH]; cbn [strpbrk app]; [intros _ _ x [] | ].
  intros Hz. destruct (Ascii.eqb_spec y "000") as [-> | Hy]; [exfalso; apply Hz; now left | ].
  change (firstn (strlen escaped_characters) escaped_characters)
    with ["008"; "012"; "010"; "013"; "009"; "'"; "\"]%char.
  destruct (existsb (Ascii.eqb y) ["008"; "012"; "010"; "013"; "009"; "'"; "\"]%char) eqn:Ex;
    [discriminate | ].
  destruct (strpbrk (r ++ ["000"%char]) escaped_characters) eqn:Er; [discriminate | ].
  intros _ x [<- | Hx].
  - intros Hin. assert (Ht : existsb (Ascii.eqb y) ["008"; "012"; "010"; "013"; "009"; "'"; "\"]%char = true).
    { apply existsb_exists. exists y. split; [exact Hin | apply Ascii.eqb_refl]. }
    congruence.
  - apply IH; [intros H; apply Hz; now right | reflexivity | exact Hx].
Qed.

(** X7.  The test in front of [writeEscapedString] changes nothing of what
    is written: for every string, zero bytes inside included, it writes
    what [writeAnyEscapedString<'\''>] writes. *)
Theorem writeEscapedString_escapes (s : list ascii) (buf : WriteBuffer) :
  writeEscapedString s buf = writeAnyEscapedString "'" s buf.
Proof.
  unfold writeEscapedString.
  destruct (strpbrk (data s) escaped_characters) eqn:Ep; cbn [andb]; [reflexivity | ].
  destruct (Nat.eqb_spec (strlen (data s)) (List.length s)) as [El | _]; [ | reflexivity].
  rewrite writeString_app, writeAnyEscapedString_app. f_equal. symmetry.
  apply escaped_unchanged.
  pose proof (strlen_data s El) as Hz.
  pose proof (strpbrk_data s Hz Ep) as Hs.
  apply forallb_forall. intros x Hx. specialize (Hs x Hx).
  apply negb_true_iff. unfold needs_escape.
  destruct (existsb (Ascii.eqb x) _) eqn:Ex; [ | reflexivity].
  apply existsb_exists in Ex. destruct Ex as (y & Hy & E).
  apply Ascii.eqb_eq in E. subst y. exfalso.
  cbn in Hy, Hs. intuition (subst; auto).
Qed.

(** ** Quoted strings *)

(** Reading a quoted text from behind its opening quote: a backslash
    takes the byte after it along; the offset of the first quote [c] that
    is not taken along is where the text ends. *)
Fixpoint closing_quote (c : ascii) (text : list ascii) : option nat :=
  match text with
  | [] => None
  | x :: r =>
      if Ascii.eqb x "\" then
        match r with
        | [] => None
        | _ :: r' => option_map (fun n => S (S n)) (closing_quote c r')
        end
      else if Ascii.eqb x c then Some 0
      else option_map S (closing_quote c r)
  end.

Lemma closing_quote_escaped (c : ascii) (rest : list ascii) :
  c <> "\"%char ->
  forall s, closing_quote c (escaped c s ++ c :: rest) = Some (List.length (escaped c s)).
Proof.
  intros Hc. induction s as [| it r IH].
  - cbn. rewrite (proj2 (Ascii.eqb_neq c "\") Hc), Ascii.eqb_refl. reflexivity.
  - cbn [escaped flat_map]. fold (escaped c r). rewrite <- app_assoc, length_app.
    destruct (escaped_char_shape c it) as [[Hn ->] | [_ (l & -> & _)]].
    + apply needs_escape_control in Hn. destruct Hn as [Hn1 Hn2].
      cbn [app closing_quote List.length].
      rewrite (proj2 (Ascii.eqb_neq it "\")) by (intros ->; apply Hn1; now left).
      rewrite (proj2 (Ascii.eqb_neq it c) Hn2), IH. reflexivity.
    + cbn [app closing_quote List.length]. rewrite IH. reflexivity.
Qed.

(** X8.  A quoted string is the quote, the escaped text and the quote again,
    and it delimits itself: whatever follows, the first quote that no
    backslash takes along is the closing one (for a quote other than the
    backslash). *)
Theorem writeAnyQuotedString_delimited (c : ascii) (s : list ascii) (buf : WriteBuffer) :
  c <> "\"%char ->
  exists body,
    writeAnyQuotedString c s buf = buf ++ c :: body ++ [c]
    /\ writeAnyEscapedString c s [] = body
    /\ forall rest, closing_quote c (body ++ c :: rest) = Some (List.length body).
Proof.
  intros Hc. exists (escaped c s). split; [ | split].
  - unfold writeAnyQuotedString, writeChar.
    rewrite writeAnyEscapedString_app, <- !app_assoc. reflexivity.
  - apply writeAnyEscapedString_app.
  - intros rest. apply closing_quote_escaped. exact Hc.
Qed.

Lemma writeAnyQuotedString_delimited_witness :
  exists body,
    writeDoubleQuotedString (list_ascii_of_string "a\b") [] = "034"%char :: body ++ ["034"%char]
    /\ writeAnyEscapedString "034" (list_ascii_of_string "a\b") [] = body
    /\ forall rest, closing_quote "034" (body ++ "034"%char :: rest)
                    = Some (List.length body).
Proof.
  apply (writeAnyQuotedString_delimited "034" (list_ascii_of_string "a\b") []).
  discriminate.
Defined.

(** ** [writeProbablyBackQuotedString] *)

(** A name that needs no quotes: a letter or an underscore, then letters,
    digits and underscores. *)
Definition is_word (s : list ascii) : bool :=
  match s with
  | [] => false
  | s0 :: rest => is_word_start s0 && forallb is_word_char rest
  end.

Lemma word_loop_end (r : list ascii) :
  forall pos,
  Nat.eqb (word_loop r pos) (pos + List.length r) = forallb is_word_char r.
Proof.
  assert (B : forall r pos, word_loop r pos <= pos + List.length r).
  { induction r0 as [| x r0 IH]; intros pos; cbn [word_loop List.length]; [lia | ].
    destruct (is_word_char x); cbn [negb]; [specialize (IH (S pos)) | ]; lia. }
  induction r as [| x r IH]; intros pos; cbn [word_loop List.length forallb].
  - rewrite Nat.add_0_r. apply Nat.eqb_refl.
  - destruct (is_word_char x); cbn [negb andb].
    + rewrite <- (IH (S pos)). f_equal. lia.
    + apply Nat.eqb_neq. lia.
Qed.

Lemma writeProbablyBackQuotedString_cases (s : list ascii) (buf : WriteBuffer) :
  writeProbablyBackQuotedString s buf
  = if is_word s then writeString s buf else writeBackQuotedString s buf.
Proof.
  unfold writeProbablyBackQuotedString, is_word. destruct s as [| s0 rest]; [reflexivity | ].
  destruct (is_word_start s0); cbn [negb andb]; [ | reflexivity].
  rewrite <- (word_loop_end rest 1). cbn [List.length Nat.add].
  destruct (Nat.eqb (word_loop rest 1) (S (List.length rest))); reflexivity.
Qed.

Lemma writeBackQuotedString_app (s : list ascii) (buf : WriteBuffer) :
  writeBackQuotedString s buf = buf ++ "`"%char :: escaped "`" s ++ ["`"%char].
Proof.
  unfold writeBackQuotedString, writeAnyQuotedString, writeChar.
  rewrite writeAnyEscapedString_app, <- !app_assoc. reflexivity.
Qed.

Lemma is_word_char_plain (x : ascii) : is_word_char x = true -> needs_escape "`" x = false.
Proof.
  destruct x as [[] [] [] [] [] [] [] []]; vm_compute; congruence.
Qed.

Lemma is_word_start_char (x : ascii) : is_word_start x = true -> is_word_char x = true.
Proof.
  destruct x as [[] [] [] [] [] [] [] []]; vm_compute; congruence.
Qed.

(** X9.  [writeProbablyBackQuotedString] writes a name as it is exactly when the
    name is a letter or an underscore followed by letters, digits and
    underscores; every other string, the empty one included, is written in
    back quotes; and what is written as it is would come out of the
    escaping unchanged. *)
Theorem writeProbablyBackQuotedString_spec (s : list ascii) (buf : WriteBuffer) :
  (is_word s = true ->
   writeProbablyBackQuotedString s buf = buf ++ s
   /\ writeAnyEscapedString "`" s buf = buf ++ s)
  /\ (is_word s = false ->
      writeProbablyBackQuotedString s buf = buf ++ "`"%char :: escaped "`" s ++ ["`"%char])
  /\ (writeProbablyBackQuotedString s buf = buf ++ s <-> is_word s = true).
Proof.
  rewrite writeProbablyBackQuotedString_cases. split; [ | split].
  - intros W. rewrite W. split; [apply writeString_app | ].
    rewrite writeAnyEscapedString_app. f_equal.
    apply escaped_unchanged. apply forallb_forall. intros x Hx.
    apply negb_true_iff, is_word_char_plain.
    destruct s as [| s0 rest]; [discriminate | ]. cbn [is_word] in W.
    apply andb_true_iff in W. destruct W as [W0 W].
    destruct Hx as [<- | Hx]; [now apply is_word_start_char | ].
    exact (proj1 (forallb_forall _ _) W x Hx).
  - intros W. rewrite W. apply writeBackQuotedString_app.
  - destruct (is_word s); [split; [reflexivity | intros _; apply writeString_app] | ].
    rewrite writeBackQuotedString_app. split; [ | discriminate].
    intros E. apply app_inv_head in E. apply (f_equal (@List.length ascii)) in E.
    cbn [List.length] in E. rewrite length_app, escaped_length in E. cbn in E. lia.
Qed.

Lemma is_word_not_back_quote (s rest : list ascii) :
  is_word s = true -> s <> "`"%char :: rest.
Proof.
  intros W ->. cbn in W. discriminate.
Qed.

(** X10.  No two strings are written alike by [writeProbablyBackQuotedString]. *)
Theorem writeProbablyBackQuotedString_injective (s1 s2 : list ascii) (buf : WriteBuffer) :
  writeProbablyBackQuotedString s1 buf = writeProbablyBackQuotedString s2 buf ->
  s1 = s2.
Proof.
  rewrite !writeProbablyBackQuotedString_cases.
  destruct (is_word s1) eqn:W1, (is_word s2) eqn:W2;
    rewrite ?writeString_app, ?writeBackQuotedString_app; intros E;
    apply app_inv_head in E.
  - exact E.
  - exfalso. exact (is_word_not_back_quote s1 _ W1 E).
  - exfalso. symmetry in E. exact (is_word_not_back_quote s2 _ W2 E).
  - injection E as E. apply app_inv_tail in E.
    apply (escaped_inj "`"); [cbn; intuition discriminate | exact E].
Qed.

Lemma writeProbablyBackQuotedString_injective_witness :
  list_ascii_of_string "user id" = list_ascii_of_string "user id".
Proof.
  apply (writeProbablyBackQuotedString_injective _ _ []). reflexivity.
Defined.

(** ** Rows *)

(** What [writeEscapedRow] writes for a field. *)
Definition field_text (field : option (list ascii)) : list ascii :=
  match field with
  | None => ["\"; "N"]%char
  | Some bytes => escaped "'" bytes
  end.

Lemma writeEscapedRow_loop_app (fields : mysqlxx_Row) :
  forall i buf,
  writeEscapedRow_loop fields (S i) buf
  = buf ++ flat_map (fun field => "009"%char :: field_text field) fields.
Proof.
  induction fields as [| field rest IH]; intros i buf;
    cbn [writeEscapedRow_loop flat_map].
  - now rewrite app_nil_r.
  - rewrite IH. cbn [Nat.eqb negb]. unfold writeChar, write.
    destruct field as [bytes | ]; cbn [field_text];
      rewrite ?writeAnyEscapedString_app, <- !app_assoc; reflexivity.
Qed.

Lemma writeEscapedRow_app (field : option (list ascii)) (rest : mysqlxx_Row)
  (buf : WriteBuffer) :
  writeEscapedRow (field :: rest) buf
  = buf ++ field_text field
        ++ flat_map (fun field => "009"%char :: field_text field) rest.
Proof.
  unfold writeEscapedRow. cbn [writeEscapedRow_loop Nat.eqb negb].
  rewrite writeEscapedRow_loop_app. unfold write.
  destruct field as [bytes | ]; cbn [field_text];
    rewrite ?writeAnyEscapedString_app, <- ?app_assoc; reflexivity.
Qed.

Lemma field_text_no_control (field : option (list ascii)) (x : ascii) :
  In x (field_text field) -> ~ In x control_characters.
Proof.
  destruct field as [bytes | ]; cbn [field_text].
  - apply escaped_no_control.
  - intros [<- | [<- | []]]; cbn; intuition discriminate.
Qed.

Lemma count_occ_none (l : list ascii) (x : ascii) :
  ~ In x l -> count_occ ascii_dec l x = 0.
Proof. apply count_occ_not_In. Qed.

Lemma tabs_of_fields (fields : mysqlxx_Row) :
  count_occ ascii_dec
    (flat_map (fun field => "009"%char :: field_text field) fields) "009"%char
  = List.length fields
  /\ ~ In "010"%char (flat_map (fun field => "009"%char :: field_text field) fields).
Proof.
  induction fields as [| field rest [IH1 IH2]]; [split; [reflexivity | intros []] | ].
  cbn [flat_map List.length]. split.
  - change (("009"%char :: field_text field) ++ ?l) with ("009"%char :: field_text field ++ l).
    rewrite count_occ_cons_eq by reflexivity. rewrite count_occ_app, IH1.
    rewrite count_occ_none; [reflexivity | ].
    intros H. apply (field_text_no_control field _ H). cbn. tauto.
  - intros H. apply in_app_or in H. destruct H as [[H | H] | H];
      [discriminate | | exact (IH2 H)].
    apply (field_text_no_control field _ H). cbn. tauto.
Qed.

(** X11.  A row is written on one line with its fields apart: what
    [writeEscapedRow] appends holds no line feed, and as many tabs as the
    row has fields after the first. *)
Theorem writeEscapedRow_separators (row : mysqlxx_Row) (buf : WriteBuffer) :
  exists text,
    writeEscapedRow row buf = buf ++ text
    /\ count_occ ascii_dec text "009"%char = Nat.pred (List.length row)
    /\ ~ In "010"%char text.
Proof.
  destruct row as [| field rest].
  - exists []. split; [symmetry; apply app_nil_r | ]. split; [reflexivity | intros []].
  - eexists. split; [apply writeEscapedRow_app | ].
    destruct (tabs_of_fields rest) as [T1 T2]. split.
    + rewrite count_occ_app, T1. cbn [List.length Nat.pred].
      rewrite count_occ_none; [reflexivity | ].
      intros H. apply (field_text_no_control field _ H). cbn. tauto.
    + intros H. apply in_app_or in H. destruct H as [H | H]; [ | exact (T2 H)].
      apply (field_text_no_control field _ H). cbn. tauto.
Qed.

Lemma field_text_inj (f1 f2 : option (list ascii)) :
  field_text f1 = field_text f2 -> f1 = f2.
Proof.
  assert (N : forall bytes, escaped "'" bytes <> ["\"; "N"]%char).
  { intros [| it r]; [discriminate | ]. cbn [escaped flat_map]. fold (escaped "'" r).
    destruct (escaped_char_shape "'" it) as [[Hn ->] | [_ (l & -> & Hl)]]; cbn [app].
    - intros E. injection E as -> _. apply needs_escape_control in Hn.
      apply (proj1 Hn). now left.
    - intros E. injection E as -> _.
      destruct Hl as [[Hl _] | (Hl & _)]; [cbn in Hl; intuition discriminate | discriminate]. }
  destruct f1 as [b1 | ], f2 as [b2 | ]; cbn [field_text]; intros E.
  - f_equal. apply (escaped_inj "'"); [cbn; intuition discriminate | exact E].
  - now apply N in E.
  - symmetry in E. now apply N in E.
  - reflexivity.
Qed.

(** Texts without a tab, each followed by nothing or by a tab: the first
    tab tells where the first text ends. *)
Lemma split_at_tab (a b ta tb : list ascii) :
  ~ In "009"%char a -> ~ In "009"%char b ->
  (ta = [] \/ exists r, ta = "009"%char :: r) ->
  (tb = [] \/ exists r, tb = "009"%char :: r) ->
  a ++ ta = b ++ tb -> a = b /\ ta = tb.
Proof.
  revert b. induction a as [| x a IH]; intros [| y b] Ha Hb Hta Htb E; cbn [app] in E.
  - split; [reflexivity | exact E].
  - exfalso. destruct Hta as [-> | (r & ->)]; [discriminate | ].
    injection E as <- _. apply Hb. now left.
  - exfalso. destruct Htb as [-> | (r & ->)]; [discriminate | ].
    injection E as -> _. apply Ha. now left.
  - injection E as -> E.
    destruct (IH b) as [-> ->]; auto; intros H; [apply Ha | apply Hb]; now right.
Qed.

Lemma fields_inj (r1 : mysqlxx_Row) :
  forall r2,
  flat_map (fun field => "009"%char :: field_text field) r1
  = flat_map (fun field => "009"%char :: field_text field) r2 ->
  r1 = r2.
Proof.
  assert (T : forall r : mysqlxx_Row,
             flat_map (fun field => "009"%char :: field_text field) r = []
             \/ exists t, flat_map (fun field => "009"%char :: field_text field) r
                          = "009"%char :: t).
  { intros [| f r]; [now left | right]. cbn [flat_map app]. eauto. }
  assert (F : forall f, ~ In "009"%char (field_text f)).
  { intros f H. apply (field_text_no_control f _ H). cbn. tauto. }
  induction r1 as [| f1 r1 IH]; intros [| f2 r2]; cbn [flat_map app]; intros E;
    try discriminate; [reflexivity | ].
  injection E as E.
  destruct (split_at_tab _ _ _ _ (F f1) (F f2) (T r1) (T r2) E) as [E1 E2].
  apply field_text_inj in E1. subst f2. now rewrite (IH r2 E2).
Qed.

(** X12.  Two rows with at least one field each that are written alike are the
    same row: the fields can be told apart, and a NULL from every string. *)
Theorem writeEscapedRow_injective (row1 row2 : mysqlxx_Row) (buf : WriteBuffer) :
  row1 <> [] -> row2 <> [] ->
  writeEscapedRow row1 buf = writeEscapedRow row2 buf ->
  row1 = row2.
Proof.
  destruct row1 as [| f1 r1], row2 as [| f2 r2]; try congruence. intros _ _.
  rewrite !writeEscapedRow_app. intros E. apply app_inv_head in E.
  assert (T : forall r : mysqlxx_Row,
             flat_map (fun field => "009"%char :: field_text field) r = []
             \/ exists t, flat_map (fun field => "009"%char :: field_text field) r
                          = "009"%char :: t).
  { intros [| f r]; [now left | right]. cbn [flat_map app]. eauto. }
  assert (F : forall f, ~ In "009"%char (field_text f)).
  { intros f H. apply (field_text_no_control f _ H). cbn. tauto. }
  destruct (split_at_tab _ _ _ _ (F f1) (F f2) (T r1) (T r2) E) as [E1 E2].
  apply field_text_inj in E1. apply fields_inj in E2. congruence.
Qed.

Lemma writeEscapedRow_injective_witness :
  [Some (list_ascii_of_string "\N"); None] = [Some (list_ascii_of_string "\N"); None].
Proof.
  apply (writeEscapedRow_injective _ _ []); [discriminate | discriminate | reflexivity].
Defined.

(** ** Dates *)

(** A number in a field of [width] digits, zeros in front. *)
Definition padded (width : nat) (v : Z) : list ascii :=
  repeat "0"%char (width - List.length (decimal_numeral v)) ++ decimal_numeral v.

Definition text_eqb (a b : list ascii) : bool :=
  String.eqb (string_of_list_ascii a) (string_of_list_ascii b).

Lemma text_eqb_eq (a b : list ascii) : text_eqb a b = true -> a = b.
Proof.
  unfold text_eqb. intros E. apply String.eqb_eq in E.
  apply (f_equal list_ascii_of_string) in E.
  now rewrite !list_ascii_of_string_of_list_ascii in E.
Qed.

(** The digits as the writers compute them. *)
Definition four_digits (v : Z) : list ascii :=
  [char_of_int (48 + Z.quot v 1000); char_of_int (48 + Z.rem (Z.quot v 100) 10);
   char_of_int (48 + Z.rem (Z.quot v 10) 10); char_of_int (48 + Z.rem v 10)].

Definition two_digits (v : Z) : list ascii :=
  [char_of_int (48 + Z.quot v 10); char_of_int (48 + Z.rem v 10)].

Lemma below_checked (p : Z -> bool) (bound : Z) :
  forallb (fun n => p (Z.of_nat n)) (seq 0 (Z.to_nat bound)) = true ->
  forall v, (0 <= v < bound)%Z -> p v = true.
Proof.
  intros H v Hv. rewrite forallb_forall in H.
  rewrite <- (Z2Nat.id v) by lia. apply H. apply in_seq. lia.
Qed.

Lemma four_digits_padded (v : Z) :
  (0 <= v < 10000)%Z -> four_digits v = padded 4 v.
Proof.
  intros Hv. apply text_eqb_eq.
  apply (below_checked (fun v => text_eqb (four_digits v) (padded 4 v)) 10000);
    [vm_compute; reflexivity | exact Hv].
Qed.

Lemma two_digits_padded (v : Z) :
  (0 <= v < 100)%Z -> two_digits v = padded 2 v.
Proof.
  intros Hv. apply text_eqb_eq.
  apply (below_checked (fun v => text_eqb (two_digits v) (padded 2 v)) 100);
    [vm_compute; reflexivity | exact Hv].
Qed.

Lemma writeDateText_digits (date : Date) (buf : WriteBuffer) :
  writeDateText date buf
  = buf ++ four_digits (year date)
        ++ "-"%char :: two_digits (month date) ++ "-"%char :: two_digits (day date).
Proof. reflexivity. Qed.

(** X13.  For a year below 10000 and a month and a day below 100,
    [writeDateText] appends the ten characters YYYY-MM-DD: the decimal
    year in four digits, the month and the day in two, zeros in front. *)
Theorem writeDateText_padded (date : Date) (buf : WriteBuffer) :
  (0 <= year date < 10000)%Z -> (0 <= month date < 100)%Z -> (0 <= day date < 100)%Z ->
  writeDateText date buf
  = buf ++ padded 4 (year date)
        ++ "-"%char :: padded 2 (month date) ++ "-"%char :: padded 2 (day date).
Proof.
  intros Hy Hm Hd. rewrite writeDateText_digits.
  now rewrite (four_digits_padded _ Hy), (two_digits_padded _ Hm), (two_digits_padded _ Hd).
Qed.

Lemma writeDateText_padded_witness :
  writeDateText {| year := 2013; month := 7; day := 4 |} []
  = list_ascii_of_string "2013-07-04".
Proof.
  apply (writeDateText_padded {| year := 2013; month := 7; day := 4 |} []);
    cbn; lia.
Defined.

(** X14.  For an hour, a minute and a second below 100, [writeDateTimeText]
    appends what [writeDateText] appends for the same day, a space, and
    HH:MM:SS in two digits each; the date part needs no bound. *)
Theorem writeDateTimeText_padded (datetime : DateTime) (buf : WriteBuffer) :
  (0 <= hour datetime < 100)%Z -> (0 <= minute datetime < 100)%Z ->
  (0 <= second datetime < 100)%Z ->
  writeDateTimeText datetime buf
  = writeDateText (date_of datetime) buf
      ++ " "%char :: padded 2 (hour datetime)
      ++ ":"%char :: padded 2 (minute datetime)
      ++ ":"%char :: padded 2 (second datetime).
Proof.
  intros Hh Hm Hs.
  rewrite <- (two_digits_padded _ Hh), <- (two_digits_padded _ Hm),
    <- (two_digits_padded _ Hs).
  rewrite writeDateText_digits, <- !app_assoc. reflexivity.
Qed.

Lemma writeDateTimeText_padded_witness :
  writeDateTimeText {| date_of := {| year := 2013; month := 7; day := 4 |};
                       hour := 9; minute := 5; second := 0 |} []
  = list_ascii_of_string "2013-07-04 09:05:00".
Proof.
  apply (writeDateTimeText_padded
           {| date_of := {| year := 2013; month := 7; day := 4 |};
              hour := 9; minute := 5; second := 0 |} []); cbn; lia.
Defined.

(** X15.  [writeDateText] of a day number appends ten bytes whatever the table
    holds; they are [0000-00-00] for the day number 0 and for every day
    number beyond [DATE_LUT_MAX_DAY_NUM], and otherwise what the overload
    on a date writes for the year, month and day of the table. *)
Theorem writeDateText_DayNum_cases (DATE_LUT_MAX_DAY_NUM : Z)
  (getValues : Z -> DateLUT.Values) (date : Z) (buf : WriteBuffer) :
  exists text,
    writeDateText_DayNum DATE_LUT_MAX_DAY_NUM getValues date buf = buf ++ text
    /\ List.length text = 10
    /\ (date = 0%Z \/ (DATE_LUT_MAX_DAY_NUM < date)%Z -> text = date_zeros)
    /\ (date <> 0%Z /\ (date <= DATE_LUT_MAX_DAY_NUM)%Z ->
        buf ++ text
        = writeDateText {| year := DateLUT.year (getValues date);
                           month := DateLUT.month (getValues date);
                           day := DateLUT.day_of_month (getValues date) |} buf).
Proof.
  unfold writeDateText_DayNum.
  destruct (Z.ltb_spec DATE_LUT_MAX_DAY_NUM date) as [Hmax | Hmax];
    [ | destruct (Z.eqb_spec date 0) as [Hz | Hz]]; cbn [orb].
  - exists date_zeros. split; [reflexivity | ]. split; [reflexivity | ].
    split; [reflexivity | lia].
  - exists date_zeros. split; [reflexivity | ]. split; [reflexivity | ].
    split; [reflexivity | lia].
  - eexists. split; [reflexivity | ]. split; [reflexivity | ].
    split; [lia | reflexivity].
Qed.

(** X16.  [writeDateTimeText] of a [time_t] appends nineteen bytes whatever the
    table holds; they are [0000-00-00 00:00:00] for the time 0 and for
    every time beyond [DATE_LUT_MAX], and otherwise what the overload on a
    date and time writes for the values of the table, the hour, minute and
    second taken as [UInt8]. *)
Theorem writeDateTimeText_time_t_cases (DATE_LUT_MAX : Z)
  (getValues : Z -> DateLUT.Values) (toHourInaccurate toMinute toSecond : Z -> Z)
  (datetime : Z) (buf : WriteBuffer) :
  exists text,
    writeDateTimeText_time_t DATE_LUT_MAX getValues toHourInaccurate toMinute toSecond
                             datetime buf = buf ++ text
    /\ List.length text = 19
    /\ (datetime = 0%Z \/ (DATE_LUT_MAX < datetime)%Z -> text = date_time_zeros)
    /\ (datetime <> 0%Z /\ (datetime <= DATE_LUT_MAX)%Z ->
        buf ++ text
        = writeDateTimeText
            {| date_of := {| year := DateLUT.year (getValues datetime);
                             month := DateLUT.month (getValues datetime);
                             day := DateLUT.day_of_month (getValues datetime) |};
               hour := wrap UInt8 (toHourInaccurate datetime);
               minute := wrap UInt8 (toMinute datetime);
               second := wrap UInt8 (toSecond datetime) |} buf).
Proof.
  unfold writeDateTimeText_time_t.
  destruct (Z.ltb_spec DATE_LUT_MAX datetime) as [Hmax | Hmax];
    [ | destruct (Z.eqb_spec datetime 0) as [Hz | Hz]]; cbn [orb].
  - exists date_time_zeros. split; [reflexivity | ]. split; [reflexivity | ].
    split; [reflexivity | lia].
  - exists date_time_zeros. split; [reflexivity | ]. split; [reflexivity | ].
    split; [reflexivity | lia].
  - eexists. split; [reflexivity | ]. split; [reflexivity | ].
    split; [lia | reflexivity].
Qed.

(** ** More on [writeIntText] *)

Local Open Scope Z_scope.

(** What [writeIntText] appends, for the properties below. *)
Lemma writeIntText_numeral (T : IntType) (x : Z) (tmp : list ascii) (buf : WriteBuffer) :
  supported T -> in_range T x ->
  Z.of_nat (List.length tmp) = WRITE_HELPERS_MAX_INT_WIDTH ->
  writeIntText T x tmp buf = Some (buf ++ decimal_numeral x).
Proof.
  intros HT Hx Hlen. unfold WRITE_HELPERS_MAX_INT_WIDTH in Hlen.
  pose proof (max_value_bound T HT) as [Hmax Hmaxs].
  unfold writeIntText, WRITE_HELPERS_MAX_INT_WIDTH.
  change (Z.to_nat 20) with 20%nat. change (20 - 1) with 19.
  destruct (Z.eqb_spec x 0) as [-> | Hnz]; [reflexivity | ].
  destruct (Z.ltb_spec x 0) as [Hneg | Hpos].
  - (* a negative value: [T] is signed *)
    assert (Hs : is_signed T = true).
    { destruct (is_signed T) eqn:E; [reflexivity | ].
      unfold in_range, min_value in Hx. rewrite E in Hx. lia. }
    specialize (Hmaxs Hs).
    assert (Hb : 0 < 2 ^ (bits T - 1)).
    { apply Z.pow_pos_nonneg; [lia | ]. apply bits_supported in HT. lia. }
    assert (E2 : 2 ^ bits T = 2 * 2 ^ (bits T - 1)).
    { rewrite <- Z.pow_succ_r by (apply bits_supported in HT; lia). f_equal. lia. }
    unfold in_range, min_value, max_value in Hx, Hmaxs. rewrite Hs in Hx, Hmaxs.
    destruct (Z.eq_dec x (- 2 ^ (bits T - 1))) as [Hmin | Hnmin].
    + (* the smallest value *)
      assert (W : wrap T (- x) = - 2 ^ (bits T - 1)).
      { unfold wrap. rewrite Hs, Hmin, Z.opp_involutive.
        replace (2 ^ (bits T - 1) + 2 ^ (bits T - 1)) with (0 + 1 * 2 ^ bits T) by lia.
        rewrite Z.mod_add by lia. rewrite Z.mod_0_l by lia. lia. }
      rewrite W. replace (- 2 ^ (bits T - 1) <? 0) with true by (symmetry; apply Z.ltb_lt; lia).
      cbn [andb]. f_equal.
      pose proof (min_text_decimal T HT Hs) as M.
      unfold write in *. cbn [app] in M. rewrite M. unfold min_value. rewrite Hs.
      congruence.
    + rewrite (wrap_in_range T (- x) HT)
        by (unfold in_range, min_value, max_value; rewrite Hs; lia).
      replace (- x <? 0) with false by (symmetry; apply Z.ltb_ge; lia).
      cbn [andb].
      destruct (digits_loop_spec T HT 19 20 tmp 19 (- x) Decimal.Nil)
        as (tmp1 & pos & -> & L1 & B & S1);
        try (unfold max_value; rewrite Hs); try lia.
      { rewrite skipn_all2 by lia. reflexivity. }
      destruct (store_spec tmp1 pos "-"%char ltac:(lia)) as (tmp2 & -> & L2 & S2).
      rewrite write_all.
      * rewrite S2, S1. destruct x as [| p | p]; try lia.
        rewrite (decimal_numeral_neg 19 p) by lia. reflexivity.
      * rewrite length_skipn. lia.
  - (* a positive value *)
    cbn [andb].
    assert (Hle : x <= max_value T) by (unfold in_range in Hx; lia).
    destruct (digits_loop_spec T HT 20 20 tmp 19 x Decimal.Nil)
      as (tmp1 & pos & -> & L1 & B & S1); try lia.
    { rewrite skipn_all2 by lia. reflexivity. }
    rewrite write_all.
    + rewrite S1. destruct x as [| p | p]; try lia.
      rewrite (decimal_numeral_pos 20 p) by lia. reflexivity.
    + rewrite length_skipn. lia.
Qed.

Local Close Scope Z_scope.

Lemma chars_length (u : Decimal.uint) : List.length (chars u) = Decimal.nb_digits u.
Proof.
  unfold chars. induction u; cbn [NilEmpty.string_of_uint list_ascii_of_string
                                  List.length Decimal.nb_digits]; congruence.
Qed.

Lemma nb_digits_revapp (u acc : Decimal.uint) :
  Decimal.nb_digits (Decimal.revapp u acc) = Decimal.nb_digits u + Decimal.nb_digits acc.
Proof.
  revert acc. induction u; intros acc; cbn [Decimal.revapp Decimal.nb_digits];
    try reflexivity; rewrite IHu; cbn [Decimal.nb_digits]; lia.
Qed.

Lemma nb_digits_digit_cons (k : Z) (u : Decimal.uint) :
  Decimal.nb_digits (digit_cons k u) = S (Decimal.nb_digits u).
Proof.
  unfold digit_cons. destruct k as [| p | p]; try reflexivity.
  do 4 (try (destruct p as [p | p | ]; try reflexivity)).
Qed.

Lemma nb_digits_little (n : nat) :
  forall x, Decimal.nb_digits (little_digits n x) <= n.
Proof.
  induction n as [| n IH]; intros x; cbn [little_digits].
  - destruct (Z.eqb x 0); cbn; lia.
  - destruct (Z.eqb x 0); [cbn; lia | ].
    specialize (IH (x / 10)%Z). rewrite nb_digits_digit_cons. lia.
Qed.

(** A number below [10 ^ n] has at most [n] digits, and a sign in front
    when it is negative. *)
Lemma decimal_numeral_length (n : nat) (x : Z) :
  (- 10 ^ Z.of_nat n < x < 10 ^ Z.of_nat n)%Z -> (0 < n)%nat ->
  1 <= List.length (decimal_numeral x) <= n + (if (x <? 0)%Z then 1 else 0).
Proof.
  intros Hx Hn. destruct x as [| p | p].
  - cbn. lia.
  - rewrite (decimal_numeral_pos n p) by lia.
    rewrite chars_length, nb_digits_revapp. cbn [Decimal.nb_digits].
    pose proof (nb_digits_little n (Z.pos p)).
    destruct (little_digits_normal n (Z.pos p) Decimal.Nil ltac:(lia)) as [_ Hnn].
    destruct (Decimal.revapp (little_digits n (Z.pos p)) Decimal.Nil) eqn:E;
      [contradiction | ..];
      apply (f_equal Decimal.nb_digits) in E; rewrite nb_digits_revapp in E;
      cbn [Decimal.nb_digits] in E; cbn; lia.
  - rewrite (decimal_numeral_neg n p) by lia. cbn [List.length].
    rewrite chars_length, nb_digits_revapp. cbn [Decimal.nb_digits].
    pose proof (nb_digits_little n (Z.pos p)). cbn. lia.
Qed.

(** X1.  The text of an integer reads back as the integer: on what
    [writeIntText] appends, the standard reader of decimal numerals returns
    the value written. *)
Theorem writeIntText_reads_back (T : IntType) (x : Z) (tmp : list ascii)
  (buf : WriteBuffer) :
  supported T -> in_range T x ->
  Z.of_nat (List.length tmp) = WRITE_HELPERS_MAX_INT_WIDTH ->
  exists text,
    writeIntText T x tmp buf = Some (buf ++ text)
    /\ option_map Z.of_int (NilZero.int_of_string (string_of_list_ascii text)) = Some x.
Proof.
  intros HT Hx Hlen. exists (decimal_numeral x).
  split; [apply writeIntText_numeral; assumption | apply decimal_numeral_reads_back].
Qed.

Lemma writeIntText_reads_back_witness :
  exists text,
    writeIntText Int16 (-32768) (repeat "x"%char 20) (list_ascii_of_string "n=")
    = Some (list_ascii_of_string "n=" ++ text)
    /\ option_map Z.of_int (NilZero.int_of_string (string_of_list_ascii text))
       = Some (-32768)%Z.
Proof.
  apply (writeIntText_reads_back Int16 (-32768) (repeat "x"%char 20)
           (list_ascii_of_string "n=")).
  - unfold supported. cbn. lia.
  - unfold in_range, min_value, max_value. cbn. lia.
  - reflexivity.
Defined.

(** X2.  [writeIntText] appends at least one byte and at most as many as the
    text of the smallest value of the width has (4, 6, 11 and 20 bytes for
    1, 2, 4 and 8 bytes wide integers), which is within
    [WRITE_HELPERS_MAX_INT_WIDTH]. *)
Theorem writeIntText_width (T : IntType) (x : Z) (tmp : list ascii) (buf : WriteBuffer) :
  supported T -> in_range T x ->
  Z.of_nat (List.length tmp) = WRITE_HELPERS_MAX_INT_WIDTH ->
  exists text,
    writeIntText T x tmp buf = Some (buf ++ text)
    /\ (1 <= Z.of_nat (List.length text) <= snd (min_text T))%Z
    /\ (snd (min_text T) <= WRITE_HELPERS_MAX_INT_WIDTH)%Z.
Proof.
  intros HT Hx Hlen. exists (decimal_numeral x).
  split; [apply writeIntText_numeral; assumption | ].
  unfold in_range, min_value, max_value, bits in Hx.
  unfold min_text, WRITE_HELPERS_MAX_INT_WIDTH.
  assert (B : forall n, (- 10 ^ Z.of_nat n < x < 10 ^ Z.of_nat n)%Z -> (0 < n)%nat ->
                        (1 <= Z.of_nat (List.length (decimal_numeral x)) <= Z.of_nat n + 1)%Z).
  { intros n H1 H2. pose proof (decimal_numeral_length n x H1 H2).
    destruct (x <? 0)%Z; lia. }
  assert (P3 : (10 ^ Z.of_nat 3 = 1000)%Z) by reflexivity.
  assert (P5 : (10 ^ Z.of_nat 5 = 100000)%Z) by reflexivity.
  assert (P10 : (10 ^ Z.of_nat 10 = 10000000000)%Z) by reflexivity.
  assert (P19 : (10 ^ Z.of_nat 19 = 10000000000000000000)%Z) by reflexivity.
  assert (P20 : (10 ^ Z.of_nat 20 = 100000000000000000000)%Z) by reflexivity.
  assert (Q8 : (2 ^ (8 * 1 - 1) = 128 /\ 2 ^ (8 * 1) = 256)%Z) by (split; reflexivity).
  assert (Q16 : (2 ^ (8 * 2 - 1) = 32768 /\ 2 ^ (8 * 2) = 65536)%Z) by (split; reflexivity).
  assert (Q32 : (2 ^ (8 * 4 - 1) = 2147483648 /\ 2 ^ (8 * 4) = 4294967296)%Z)
    by (split; reflexivity).
  assert (Q64 : (2 ^ (8 * 8 - 1) = 9223372036854775808
                 /\ 2 ^ (8 * 8) = 18446744073709551616)%Z) by (split; reflexivity).
  destruct Q8 as [Q8 Q8'], Q16 as [Q16 Q16'], Q32 as [Q32 Q32'], Q64 as [Q64 Q64'].
  destruct HT as [E | [E | [E | E]]]; rewrite E in *; cbn [Z.eqb Pos.eqb snd];
    (split; [ | lia]).
  - rewrite Q8, Q8' in Hx. apply (B 3%nat); [rewrite P3; destruct (is_signed T); lia | lia].
  - rewrite Q16, Q16' in Hx.
    apply (B 5%nat); [rewrite P5; destruct (is_signed T); lia | lia].
  - rewrite Q32, Q32' in Hx.
    apply (B 10%nat); [rewrite P10; destruct (is_signed T); lia | lia].
  - rewrite Q64, Q64' in Hx. destruct (is_signed T).
    + apply (B 19%nat); [rewrite P19; lia | lia].
    + pose proof (decimal_numeral_length 20 x) as L.
      replace (x <? 0)%Z with false in L by (symmetry; apply Z.ltb_ge; lia).
      rewrite P20 in L. specialize (L ltac:(lia) ltac:(lia)). lia.
Qed.

Lemma writeIntText_width_witness :
  exists text,
    writeIntText UInt64 18446744073709551615 (repeat "x"%char 20) [] = Some ([] ++ text)
    /\ (1 <= Z.of_nat (List.length text) <= snd (min_text UInt64))%Z
    /\ (snd (min_text UInt64) <= WRITE_HELPERS_MAX_INT_WIDTH)%Z.
Proof.
  apply (writeIntText_width UInt64 18446744073709551615 (repeat "x"%char 20) []).
  - unfold supported. cbn. lia.
  - unfold in_range, min_value, max_value. cbn. lia.
  - reflexivity.
Defined.

(** The ten digits. *)
Definition is_digit (x : ascii) : Prop := In x (list_ascii_of_string "0123456789").

Lemma chars_digits (u : Decimal.uint) : Forall is_digit (chars u).
Proof.
  unfold chars. induction u; cbn [NilEmpty.string_of_uint list_ascii_of_string];
    constructor; try exact IHu; unfold is_digit; cbn; tauto.
Qed.

Lemma decimal_numeral_digits (x : Z) :
  exists digits,
    decimal_numeral x = (if (x <? 0)%Z then ["-"%char] else []) ++ digits
    /\ digits <> [] /\ Forall is_digit digits.
Proof.
  assert (P : forall p, NilZero.string_of_uint (Pos.to_uint p)
                        = NilEmpty.string_of_uint (Pos.to_uint p)).
  { intros p. pose proof (DecimalPos.Unsigned.to_uint_nonnil p).
    destruct (Pos.to_uint p); [contradiction | reflexivity ..]. }
  assert (N : forall p, chars (Pos.to_uint p) <> []).
  { intros p E. apply (f_equal (@List.length ascii)) in E. rewrite chars_length in E.
    pose proof (DecimalPos.Unsigned.to_uint_nonnil p).
    destruct (Pos.to_uint p); [contradiction | discriminate ..]. }
  unfold decimal_numeral. destruct x as [| p | p]; cbn [Z.to_int NilZero.string_of_int Z.ltb Z.compare].
  - exists ["0"%char]. split; [reflexivity | ]. split; [discriminate | ].
    constructor; [unfold is_digit; cbn; tauto | constructor].
  - exists (chars (Pos.to_uint p)). rewrite P. split; [reflexivity | ].
    split; [apply N | apply chars_digits].
  - exists (chars (Pos.to_uint p)). rewrite P. split; [reflexivity | ].
    split; [apply N | apply chars_digits].
Qed.

(** X3.  [writeIntText] appends digits only, behind one minus sign exactly
    for a negative value; [writeAnyEscapedString<'\''>] would leave such a
    text as it is. *)
Theorem writeIntText_digits (T : IntType) (x : Z) (tmp : list ascii) (buf : WriteBuffer) :
  supported T -> in_range T x ->
  Z.of_nat (List.length tmp) = WRITE_HELPERS_MAX_INT_WIDTH ->
  exists digits,
    writeIntText T x tmp buf
    = Some (buf ++ (if (x <? 0)%Z then ["-"%char] else []) ++ digits)
    /\ digits <> [] /\ Forall is_digit digits
    /\ writeAnyEscapedString "'" ((if (x <? 0)%Z then ["-"%char] else []) ++ digits) []
       = (if (x <? 0)%Z then ["-"%char] else []) ++ digits.
Proof.
  intros HT Hx Hlen. destruct (decimal_numeral_digits x) as (digits & E & Hne & Hd).
  exists digits. split; [rewrite <- E; apply writeIntText_numeral; assumption | ].
  split; [exact Hne | ]. split; [exact Hd | ].
  rewrite writeAnyEscapedString_app. cbn [app].
  apply escaped_unchanged. rewrite forallb_app. apply andb_true_iff. split.
  - destruct (x <? 0)%Z; reflexivity.
  - apply forallb_forall. intros d Hin. rewrite Forall_forall in Hd.
    specialize (Hd d Hin). unfold is_digit in Hd. cbn in Hd.
    intuition (subst d; reflexivity).
Qed.

Lemma writeIntText_digits_witness :
  exists digits,
    writeIntText Int8 (-7) (repeat "x"%char 20) []
    = Some ([] ++ (if (-7 <? 0)%Z then ["-"%char] else []) ++ digits)
    /\ digits <> [] /\ Forall is_digit digits
    /\ writeAnyEscapedString "'" ((if (-7 <? 0)%Z then ["-"%char] else []) ++ digits) []
       = (if (-7 <? 0)%Z then ["-"%char] else []) ++ digits.
Proof.
  apply (writeIntText_digits Int8 (-7) (repeat "x"%char 20) []).
  - unfold supported. cbn. lia.
  - unfold in_range, min_value, max_value. cbn. lia.
  - reflexivity.
Defined.

End WriteText.

(* ===================================================================== *)
(** * Part VI: more on the checks of WhereConstraintsOptimizer.cpp         *)
(* ===================================================================== *)

(** ** [match] *)

(** X17.  [match] does not depend on the order of its arguments, finds an atom
    to match itself fully, and exchanges FULL_MATCH and NOT_MATCH when one
    of the atoms is negated. *)
Theorem match_symmetric (h : IAST -> Hash) (a b : AtomicFormula) :
  match_ h a b = match_ h b a
  /\ match_ h a a = FULL_MATCH
  /\ match_ h {| negative := negb (negative a); ast := ast a |} b
     = match match_ h a b with
       | FULL_MATCH => NOT_MATCH
       | NOT_MATCH => FULL_MATCH
       | NONE => NONE
       end.
Proof.
  unfold match_. cbn [negative ast]. rewrite (N.eqb_sym (h (ast b))), N.eqb_refl.
  destruct (N.eqb (h (ast a)) (h (ast b))), (negative a), (negative b); cbn; auto.
Qed.

(** ** [checkIfGroupAlwaysTrueFullMatch] *)

(** X18.  [checkIfGroupAlwaysTrueFullMatch] answers [true] exactly when some
    declared group that is not empty has at most as many atoms as there
    are full matches between its atoms and the atoms of the group, a
    repeated atom of the group counting each time. *)
Theorem checkIfGroupAlwaysTrueFullMatch_by_counting (h : IAST -> Hash)
  (cd : ConstraintsDescription) (group : OrGroup) :
  checkIfGroupAlwaysTrueFullMatch h group cd = true
  <-> exists grp, In grp (getConstraintData cd)
                  /\ 0 < List.length grp <= total_matches h group grp.
Proof.
  rewrite checkIfGroupAlwaysTrueFullMatch_counts. split.
  - intros (k & grp & Hk & Hlen). exists grp. split; [ | exact Hlen].
    eapply nth_error_In. exact Hk.
  - intros (grp & Hin & Hlen). apply In_nth_error in Hin. destruct Hin as [k Hk].
    exists k, grp. auto.
Qed.

Lemma total_matches_app (h : IAST -> Hash) (g1 g2 : OrGroup) (grp : list AtomicFormula) :
  total_matches h (g1 ++ g2) grp = total_matches h g1 grp + total_matches h g2 grp.
Proof.
  induction g1 as [| a g1 IH]; [reflexivity | ].
  cbn [app total_matches]. rewrite IH. lia.
Qed.

(** X19.  More atoms in a group never turn the answer off: a group found always
    true stays so when atoms are put in anywhere. *)
Theorem checkIfGroupAlwaysTrueFullMatch_more_atoms (h : IAST -> Hash)
  (cd : ConstraintsDescription) (before extra after : OrGroup) :
  checkIfGroupAlwaysTrueFullMatch h (before ++ after) cd = true ->
  checkIfGroupAlwaysTrueFullMatch h (before ++ extra ++ after) cd = true.
Proof.
  rewrite !checkIfGroupAlwaysTrueFullMatch_counts.
  intros (k & grp & Hk & Hlen). exists k, grp. split; [exact Hk | ].
  rewrite !total_matches_app in *. lia.
Qed.

Lemma total_matches_cons (h : IAST -> Hash) (group : OrGroup) (c : AtomicFormula)
  (grp : list AtomicFormula) :
  total_matches h group (c :: grp)
  = List.length (filter (fun atom => full_match h atom c) group)
    + total_matches h group grp.
Proof.
  induction group as [| a rest IH]; [reflexivity | ].
  cbn [total_matches filter]. rewrite IH.
  destruct (full_match h a c); cbn [List.length]; lia.
Qed.

(** X20.  A group that holds, for every atom of a declared group that is not
    empty, an atom of the same fingerprint and polarity is found always
    true, repeated atoms or not. *)
Theorem checkIfGroupAlwaysTrueFullMatch_complete (h : IAST -> Hash)
  (cd : ConstraintsDescription) (group : OrGroup) (grp : list AtomicFormula) :
  In grp (getConstraintData cd) -> grp <> [] ->
  (forall c, In c grp ->
             exists a, In a group /\ h (ast a) = h (ast c) /\ negative a = negative c) ->
  checkIfGroupAlwaysTrueFullMatch h group cd = true.
Proof.
  intros Hin Hne Hall. apply checkIfGroupAlwaysTrueFullMatch_counts.
  apply In_nth_error in Hin. destruct Hin as [k Hk]. exists k, grp.
  split; [exact Hk | ]. split; [destruct grp; [contradiction | cbn; lia] | ].
  clear Hk Hne. induction grp as [| c grp IH]; [cbn; lia | ].
  rewrite total_matches_cons. cbn [List.length].
  assert (H1 : 1 <= List.length (filter (fun atom => full_match h atom c) group)).
  { destruct (Hall c (or_introl eq_refl)) as (a & Ha & E1 & E2).
    assert (Hf : In a (filter (fun atom => full_match h atom c) group)).
    { apply filter_In. split; [exact Ha | apply full_match_iff; auto]. }
    destruct (filter (fun atom => full_match h atom c) group); [destruct Hf | cbn; lia]. }
  specialize (IH (fun c' Hc' => Hall c' (or_intror Hc'))). lia.
Qed.

Lemma total_matches_Permutation (h : IAST -> Hash) (grp : list AtomicFormula)
  (group group' : OrGroup) :
  Permutation group group' -> total_matches h group grp = total_matches h group' grp.
Proof.
  induction 1; cbn [total_matches]; lia.
Qed.

(** X21.  The answer does not depend on the order of the atoms in the group,
    although the loop returns at the first counter that reaches zero. *)
Theorem checkIfGroupAlwaysTrueFullMatch_any_order (h : IAST -> Hash)
  (cd : ConstraintsDescription) (group group' : OrGroup) :
  Permutation group group' ->
  checkIfGroupAlwaysTrueFullMatch h group cd
  = checkIfGroupAlwaysTrueFullMatch h group' cd.
Proof.
  intros P. apply Bool.eq_true_iff_eq.
  rewrite !checkIfGroupAlwaysTrueFullMatch_counts.
  split; intros (k & grp & Hk & Hlen); exists k, grp; (split; [exact Hk | ]).
  - now rewrite <- (total_matches_Permutation h grp group group' P).
  - now rewrite (total_matches_Permutation h grp group group' P).
Qed.

Lemma checkIfGroupAlwaysTrueFullMatch_no_data (h : IAST -> Hash) (graph : ComparisonGraph)
  (group : OrGroup) :
  checkIfGroupAlwaysTrueFullMatch h group
    {| getConstraintData := []; getGraph := graph |} = false.
Proof.
  destruct (checkIfGroupAlwaysTrueFullMatch h group _) eqn:E; [ | reflexivity].
  apply checkIfGroupAlwaysTrueFullMatch_counts in E.
  destruct E as (k & grp & Hk & _). destruct k; discriminate Hk.
Qed.

(** X22.  Without declared constraints neither full-match check finds
    anything, whatever the fingerprints; nor does the first for a group
    without atoms, whatever is declared. *)
Theorem full_match_checks_without_constraints (h : IAST -> Hash) (graph : ComparisonGraph)
  (cd : ConstraintsDescription) (group : OrGroup) (atom : AtomicFormula) :
  checkIfGroupAlwaysTrueFullMatch h group
    {| getConstraintData := []; getGraph := graph |} = false
  /\ checkIfAtomAlwaysFalseFullMatch h atom
       {| getConstraintData := []; getGraph := graph |} = false
  /\ checkIfGroupAlwaysTrueFullMatch h [] cd = false.
Proof.
  split; [apply checkIfGroupAlwaysTrueFullMatch_no_data | split; reflexivity].
Qed.

(** ** [checkIfGroupAlwaysTrueGraph] *)

(** X23.  The first atom over a function of two arguments decides: what comes
    after it in the group is never looked at. *)
Theorem checkIfGroupAlwaysTrueGraph_first_decides (graph : ComparisonGraph)
  (before after : OrGroup) (atom : AtomicFormula) :
  forallb (fun a => negb (is_binary_function a)) before = true ->
  is_binary_function atom = true ->
  checkIfGroupAlwaysTrueGraph (before ++ atom :: after) graph
  = checkIfGroupAlwaysTrueGraph [atom] graph.
Proof.
  intros Hb Ha. induction before as [| b before IH].
  - cbn [app checkIfGroupAlwaysTrueGraph]. unfold is_binary_function in Ha.
    destruct (as_ASTFunction (ast atom)) as [[name arguments] | ]; [ | discriminate].
    destruct (children arguments) as [| arg0 [| arg1 [| ? ?]]]; try discriminate.
    reflexivity.
  - cbn [forallb] in Hb. apply andb_true_iff in Hb. destruct Hb as [Hb0 Hb].
    apply negb_true_iff in Hb0. unfold is_binary_function in Hb0.
    cbn [app]. change (checkIfGroupAlwaysTrueGraph (b :: before ++ atom :: after) graph)
      with (match as_ASTFunction (ast b) with
            | Some (_, arguments) =>
                match children arguments with
                | [arg0; arg1] => isAlwaysCompare graph (getExpectedCompare b) arg0 arg1
                | _ => checkIfGroupAlwaysTrueGraph (before ++ atom :: after) graph
                end
            | None => checkIfGroupAlwaysTrueGraph (before ++ atom :: after) graph
            end).
    destruct (as_ASTFunction (ast b)) as [[name arguments] | ]; [ | exact (IH Hb)].
    destruct (children arguments) as [| arg0 [| arg1 [| ? ?]]];
      try exact (IH Hb); discriminate.
Qed.

Lemma checkIfGroupAlwaysTrueGraph_first_decides_witness :
  checkIfGroupAlwaysTrueGraph
    ([positive_atom (ASTIdentifier "flag")]
     ++ positive_atom (makeASTFunction "less" [ASTIdentifier "a"; ASTIdentifier "b"])
     :: [positive_atom (makeASTFunction "less" [ASTIdentifier "c"; ASTIdentifier "d"])])
    empty_graph
  = checkIfGroupAlwaysTrueGraph
      [positive_atom (makeASTFunction "less" [ASTIdentifier "a"; ASTIdentifier "b"])]
      empty_graph.
Proof.
  apply (checkIfGroupAlwaysTrueGraph_first_decides empty_graph
           [positive_atom (ASTIdentifier "flag")]
           [positive_atom (makeASTFunction "less" [ASTIdentifier "c"; ASTIdentifier "d"])]
           (positive_atom (makeASTFunction "less" [ASTIdentifier "a"; ASTIdentifier "b"])));
    reflexivity.
Defined.

(** The declared constraint [greater(x, 0)], and the group of the query
    [greater(x, 0) OR equals(y, 1)]. *)
Definition y_is_1 : IAST :=
  makeASTFunction "equals" [ASTIdentifier "y"; ASTLiteral (FieldInt 1)].

Lemma checkIfGroupAlwaysTrueFullMatch_more_atoms_witness :
  checkIfGroupAlwaysTrueFullMatch example_hash
    ([] ++ [positive_atom y_is_1] ++ [positive_atom x_positive])
    (getConstraints check_x_positive) = true.
Proof.
  apply (checkIfGroupAlwaysTrueFullMatch_more_atoms example_hash
           (getConstraints check_x_positive) [] [positive_atom y_is_1]
           [positive_atom x_positive]).
  reflexivity.
Defined.

Lemma checkIfGroupAlwaysTrueFullMatch_complete_witness :
  checkIfGroupAlwaysTrueFullMatch example_hash
    [positive_atom y_is_1; positive_atom x_positive; positive_atom x_positive]
    (getConstraints check_x_positive) = true.
Proof.
  apply (checkIfGroupAlwaysTrueFullMatch_complete example_hash
           (getConstraints check_x_positive) _ [positive_atom x_positive]).
  - left. reflexivity.
  - discriminate.
  - intros c [<- | []]. exists (positive_atom x_positive).
    split; [right; left; reflexivity | split; reflexivity].
Defined.

Lemma checkIfGroupAlwaysTrueFullMatch_any_order_witness :
  checkIfGroupAlwaysTrueFullMatch example_hash
    [positive_atom y_is_1; positive_atom x_positive] (getConstraints check_x_positive)
  = checkIfGroupAlwaysTrueFullMatch example_hash
      [positive_atom x_positive; positive_atom y_is_1] (getConstraints check_x_positive).
Proof.
  apply (checkIfGroupAlwaysTrueFullMatch_any_order example_hash
           (getConstraints check_x_positive)).
  apply perm_swap.
Defined.

(** ** [replaceToConstants] *)

(** A tree and the trees inside it. *)
Fixpoint subterms (t : IAST) : list IAST :=
  t :: match t with
       | ASTExpressionList l => flat_map subterms l
       | ASTFunction _ arguments => subterms arguments
       | _ => []
       end.

(** X24.  A tree is left as it is when the graph has an equal constant for none
    of the trees inside it. *)
Theorem replaceToConstants_without_constants (graph : ComparisonGraph) (t : IAST) :
  (forall s, In s (subterms t) -> getEqualConst graph s = None) ->
  replaceToConstants graph t = t.
Proof.
  induction t as [n | v | l IH | n a IH] using IAST_ind'; intros H;
    cbn [replaceToConstants]; rewrite (H _ (or_introl eq_refl)); try reflexivity.
  - f_equal. assert (Hl : forall x, In x l -> forall s, In s (subterms x) ->
                                    getEqualConst graph s = None).
    { intros x Hx s Hs. apply H. right. cbn. apply in_flat_map. eauto. }
    clear H. induction IH as [| x r Hx _ IHr]; [reflexivity | ].
    cbn [map]. rewrite Hx by (apply Hl; now left).
    rewrite IHr by (intros y Hy; apply Hl; now right). reflexivity.
  - rewrite IH; [reflexivity | ]. intros s Hs. apply H. now right.
Qed.

Lemma replaceToConstants_without_constants_witness :
  replaceToConstants graph_x_is_3 y_is_1 = y_is_1.
Proof.
  apply (replaceToConstants_without_constants graph_x_is_3 y_is_1).
  cbn. intros s H. repeat (destruct H as [<- | H]; [reflexivity | ]). destruct H.
Defined.

(** X25.  Where every equal constant of the graph has, at a row, the value of
    the expression it stands for, [replaceToConstants] keeps the value of
    every expression at that row. *)
Theorem replaceToConstants_keeps_value (compare_values : Value -> Value -> comparison)
  (other_function : string -> Value -> Value) (graph : ComparisonGraph) (row : Row) :
  (forall t c, getEqualConst graph t = Some c ->
               evaluate compare_values other_function row c
               = evaluate compare_values other_function row t) ->
  forall t, evaluate compare_values other_function row (replaceToConstants graph t)
            = evaluate compare_values other_function row t.
Proof.
  intros Hc t. induction t as [n | v | l IH | n a IH] using IAST_ind';
    cbn [replaceToConstants];
    match goal with
    | |- context [getEqualConst ?g ?t] => destruct (getEqualConst g t) as [c | ] eqn:Ec
    end; try (apply Hc; exact Ec); try reflexivity.
  - cbn [evaluate]. f_equal. clear Ec.
    induction IH as [| x r Hx _ IHr]; [reflexivity | ].
    cbn [map]. f_equal; [exact Hx | exact IHr].
  - cbn [evaluate]. f_equal. exact IH.
Qed.

(** Integers compare by their order; a row with [x = 3]. *)
Definition compare_integers (a b : Value) : comparison :=
  match a, b with
  | VInt x, VInt y => Z.compare x y
  | _, _ => Eq
  end.

Definition no_other_function (name : string) (arguments : Value) : Value := VInt 0.

Definition row_x_is_3 : Row := fun name => VInt 3.

Lemma replaceToConstants_keeps_value_witness :
  evaluate compare_integers no_other_function row_x_is_3
    (replaceToConstants graph_x_is_3
       (makeASTFunction "less" [ASTIdentifier "x"; ASTLiteral (FieldInt 5)]))
  = evaluate compare_integers no_other_function row_x_is_3
      (makeASTFunction "less" [ASTIdentifier "x"; ASTLiteral (FieldInt 5)]).
Proof.
  apply (replaceToConstants_keeps_value compare_integers no_other_function
           graph_x_is_3 row_x_is_3).
  intros t c. cbn [getEqualConst graph_x_is_3].
  destruct (IAST_eqb t (ASTIdentifier "x")) eqn:E; [ | discriminate].
  apply IAST_eqb_eq in E. subst t. intros H. injection H as <-. reflexivity.
Defined.

(** ** The two filters and the whole rewrite *)

(** X26.  The step [filterAlwaysTrueGroups] of [perform] keeps the truth
    value of the CNF at every row that satisfies the constraints, when the
    graph keeps its contract, no atom of the CNF has the fingerprint of a
    declared atom with another expression, and no group holds two atoms of
    the same fingerprint and polarity. *)
Theorem filterAlwaysTrueGroups_keeps_value (compare_values : Value -> Value -> comparison)
  (other_function : string -> Value -> Value) (h : IAST -> Hash)
  (metadata : StorageInMemoryMetadata) (row : Row) (q : CNFQuery) :
  graph_sound compare_values other_function (getConstraints metadata) ->
  no_collision h (getConstraints metadata) q -> no_duplicates h q ->
  satisfies compare_values other_function row (getConstraints metadata) ->
  evaluate_cnf compare_values other_function row
    (filterAlwaysTrueGroups (not_always_true_group h metadata) q)
  = evaluate_cnf compare_values other_function row q.
Proof.
  intros Hg Hnc Hnd Hrow. unfold filterAlwaysTrueGroups.
  apply filter_groups_sound. intros g Hin Pg.
  exact (always_true_group_sound compare_values other_function h metadata row q g
           Hg Hnc Hnd Hrow Hin Pg).
Qed.

(** X27.  The step [filterAlwaysFalseAtoms] of [perform] keeps the truth
    value of the CNF at every row that satisfies the constraints, when the
    graph keeps its contract, no atom of the CNF has the fingerprint of a
    declared atom with another expression, and a declared atom that meets
    an atom of the CNF with the opposite polarity is alone in its declared
    group. *)
Theorem filterAlwaysFalseAtoms_keeps_value (compare_values : Value -> Value -> comparison)
  (other_function : string -> Value -> Value) (h : IAST -> Hash)
  (metadata : StorageInMemoryMetadata) (row : Row) (q : CNFQuery) :
  graph_sound compare_values other_function (getConstraints metadata) ->
  no_collision h (getConstraints metadata) q ->
  opposite_only_alone h (getConstraints metadata) q ->
  satisfies compare_values other_function row (getConstraints metadata) ->
  evaluate_cnf compare_values other_function row
    (filterAlwaysFalseAtoms (not_always_false_atom h metadata) q)
  = evaluate_cnf compare_values other_function row q.
Proof.
  intros Hg Hnc Hop Hrow. unfold filterAlwaysFalseAtoms.
  assert (G : forall l, incl l q ->
                evaluate_cnf compare_values other_function row
                  (map (filter (not_always_false_atom h metadata)) l)
                = evaluate_cnf compare_values other_function row l).
  { induction l as [| g l IH]; intros Hl; [reflexivity | ].
    cbn [map]. unfold evaluate_cnf in *. cbn [forallb].
    rewrite IH by (intros g' Hg'; apply Hl; now right). f_equal.
    apply filter_atoms_sound. intros a Ha Pa.
    apply (always_false_atom_sound compare_values other_function h metadata row q g a
             Hg Hnc Hop Hrow); [apply Hl; now left | exact Ha | exact Pa]. }
  apply G. apply incl_refl.
Qed.

(** X28.  With the three guards on the groups of the query, a graph and an
    index appender that keep their contracts, the WHERE expression that
    [perform] leaves evaluates as the original one at every row that
    satisfies the constraints of the table. *)
Theorem perform_keeps_truth_value (compare_values : Value -> Value -> comparison)
  (other_function : string -> Value -> Value) (h : IAST -> Hash) (cnf_limit : nat)
  (appender : StorageInMemoryMetadata -> CNFQuery -> CNFQuery)
  (this : WhereConstraintsOptimizer) (log : list LogLine)
  (where_expression : IAST) (metadata : StorageInMemoryMetadata) (row : Row) :
  where_ (select_query this) = Some where_expression ->
  metadata_snapshot this = Some metadata ->
  graph_sound compare_values other_function (getConstraints metadata) ->
  appender_sound compare_values other_function appender metadata ->
  no_collision h (getConstraints metadata)
               (pullNotOutFunctions (toCNF cnf_limit where_expression)) ->
  no_duplicates h (pullNotOutFunctions (toCNF cnf_limit where_expression)) ->
  opposite_only_alone h (getConstraints metadata)
                      (pullNotOutFunctions (toCNF cnf_limit where_expression)) ->
  satisfies compare_values other_function row (getConstraints metadata) ->
  evaluate_where compare_values other_function row
    (fst (perform h cnf_limit appender this log))
  = evaluate_where compare_values other_function row (select_query this).
Proof.
  intros Hw Hm Hg Happ Hnc Hnd Hop Hrow.
  unfold perform. rewrite Hw, Hm. cbn [fst].
  unfold evaluate_where. rewrite Hw. cbn [setExpression_WHERE where_].
  rewrite fromCNF_sound.
  transitivity (evaluate_cnf compare_values other_function row
                  (optimize_cnf h metadata (toCNF cnf_limit where_expression))).
  - destruct (optimize_append_index this); [apply Happ, Hrow | reflexivity].
  - rewrite (optimize_cnf_sound compare_values other_function h metadata row _
               Hg Hnc Hnd Hop Hrow).
    apply toCNF_sound.
Qed.

(** The query [WHERE greater(x, 0) OR equals(y, 1)] over the table with
    [CHECK greater(x, 0)], at a row with [x = 3]. *)
Lemma filterAlwaysTrueGroups_keeps_value_witness :
  evaluate_cnf compare_integers no_other_function row_x_is_3
    (filterAlwaysTrueGroups (not_always_true_group example_hash check_x_positive)
       [[positive_atom x_positive; positive_atom y_is_1]])
  = evaluate_cnf compare_integers no_other_function row_x_is_3
      [[positive_atom x_positive; positive_atom y_is_1]].
Proof.
  apply (filterAlwaysTrueGroups_keeps_value compare_integers no_other_function
           example_hash check_x_positive row_x_is_3
           [[positive_atom x_positive; positive_atom y_is_1]]).
  - intros r _. split; [ | split]; intros; discriminate.
  - intros g a c [<- | []] Ha (grp & [<- | []] & [<- | []]) Hh.
    destruct Ha as [<- | [<- | []]]; [reflexivity | ].
    vm_compute in Hh. discriminate Hh.
  - intros g [<- | []]. apply NoDup_cons.
    + intros [H | []]. vm_compute in H. discriminate H.
    + apply NoDup_cons; [intros [] | apply NoDup_nil].
  - reflexivity.
Defined.

(** The query [WHERE NOT greater(x, 0)] over the same table. *)
Lemma filterAlwaysFalseAtoms_keeps_value_witness :
  evaluate_cnf compare_integers no_other_function row_x_is_3
    (filterAlwaysFalseAtoms (not_always_false_atom example_hash check_x_positive)
       [[{| negative := true; ast := x_positive |}]])
  = evaluate_cnf compare_integers no_other_function row_x_is_3
      [[{| negative := true; ast := x_positive |}]].
Proof.
  apply (filterAlwaysFalseAtoms_keeps_value compare_integers no_other_function
           example_hash check_x_positive row_x_is_3
           [[{| negative := true; ast := x_positive |}]]).
  - intros r _. split; [ | split]; intros; discriminate.
  - intros g a c [<- | []] [<- | []] (grp & [<- | []] & [<- | []]) _. reflexivity.
  - intros g a grp c [<- | []] [<- | []] [<- | []] [<- | []] _ _. reflexivity.
  - reflexivity.
Defined.

Lemma perform_keeps_truth_value_witness :
  evaluate_where compare_integers no_other_function row_x_is_3
    (fst (perform example_hash 100 (fun _ cnf => cnf) optimizer_x_positive []))
  = evaluate_where compare_integers no_other_function row_x_is_3
      (select_query optimizer_x_positive).
Proof.
  apply (perform_keeps_truth_value compare_integers no_other_function example_hash 100
           (fun _ cnf => cnf) optimizer_x_positive [] where_x_positive_or_y_is_1
           check_x_positive row_x_is_3 eq_refl eq_refl).
  - intros r _. split; [ | split]; intros; discriminate.
  - intros cnf r _. reflexivity.
  - intros g a c [<- | []] Ha (grp & [<- | []] & [<- | []]) Hh.
    destruct Ha as [<- | [<- | []]]; [reflexivity | ].
    vm_compute in Hh. discriminate Hh.
  - intros g [<- | []]. apply NoDup_cons.
    + intros [H | []]. vm_compute in H. discriminate H.
    + apply NoDup_cons; [intros [] | apply NoDup_nil].
  - intros g a grp c [<- | []] Ha [<- | []] [<- | []] Hh Hn. reflexivity.
  - reflexivity.
Defined.

Lemma checkIfGroupAlwaysTrueGraph_never (graph : ComparisonGraph) (group : OrGroup) :
  (forall r a b, isAlwaysCompare graph r a b = false) ->
  checkIfGroupAlwaysTrueGraph group graph = false.
Proof.
  intros H. induction group as [| atom rest IH]; [reflexivity | ].
  cbn [checkIfGroupAlwaysTrueGraph].
  destruct (as_ASTFunction (ast atom)) as [[name arguments] | ]; [ | exact IH].
  destruct (children arguments) as [| arg0 [| arg1 [| ? ?]]]; try exact IH. apply H.
Qed.

Lemma filter_all {A : Type} (p : A -> bool) (l : list A) :
  (forall x, p x = true) -> filter p l = l.
Proof.
  intros H. induction l as [| x r IH]; [reflexivity | ].
  cbn [filter]. now rewrite H, IH.
Qed.

Lemma map_same {A : Type} (f : A -> A) (l : list A) :
  (forall x, f x = x) -> map f l = l.
Proof.
  intros H. induction l as [| x r IH]; [reflexivity | ].
  cbn [map]. now rewrite H, IH.
Qed.

(** X30.  Over a table without declared constraints, whose graph finds no
    comparison always true, none impossible and no equal constant,
    [perform] drops and folds nothing: the WHERE expression it leaves is
    the CNF of the original one after [pullNotOutFunctions], [reduce] and
    [pushNotInFuntions] alone. *)
Theorem perform_without_knowledge (h : IAST -> Hash) (cnf_limit : nat)
  (appender : StorageInMemoryMetadata -> CNFQuery -> CNFQuery)
  (this : WhereConstraintsOptimizer) (log : list LogLine)
  (where_expression : IAST) (graph : ComparisonGraph) :
  where_ (select_query this) = Some where_expression ->
  metadata_snapshot this = Some (metadata_of [] graph) ->
  optimize_append_index this = false ->
  (forall r a b, isAlwaysCompare graph r a b = false) ->
  (forall r a b, isPossibleCompare graph r a b = true) ->
  (forall t, getEqualConst graph t = None) ->
  fst (perform h cnf_limit appender this log)
  = setExpression_WHERE (select_query this)
      (fromCNF (pushNotInFuntions
                  (reduce (pullNotOutFunctions (toCNF cnf_limit where_expression))))).
Proof.
  intros Ew Em Ei Ha Hp Hc. unfold perform. rewrite Ew, Em, Ei. cbn [fst].
  unfold optimize_cnf, transformAtoms, filterAlwaysFalseAtoms,
    filterAlwaysTrueGroups.
  cbn [metadata_of getConstraints getGraph].
  rewrite (filter_all (not_always_true_group h (metadata_of [] graph))).
  2:{ intros g. unfold not_always_true_group. cbn [metadata_of getConstraints getGraph].
      rewrite (checkIfGroupAlwaysTrueFullMatch_no_data h graph g).
      now rewrite (checkIfGroupAlwaysTrueGraph_never graph g Ha). }
  rewrite (map_same (filter (not_always_false_atom h (metadata_of [] graph)))).
  2:{ intros g. apply filter_all. intros a. unfold not_always_false_atom.
      cbn [metadata_of getConstraints getGraph].
      change (checkIfAtomAlwaysFalseFullMatch h a
                {| getConstraintData := []; getGraph := graph |}) with false.
      cbn [negb andb]. unfold checkIfAtomAlwaysFalseGraph.
      destruct (as_ASTFunction (ast a)) as [[name arguments] | ]; [ | reflexivity].
      destruct (children arguments) as [| arg0 [| arg1 [| ? ?]]]; try reflexivity.
      now rewrite Hp. }
  rewrite (map_same (map (fun atom => replaceTermsToConstants atom graph)));
    [reflexivity | ].
  intros g. apply map_same. intros [neg e].
  unfold replaceTermsToConstants. cbn [negative ast].
  now rewrite (replaceToConstants_no_constant graph Hc).
Qed.

Lemma perform_without_knowledge_witness :
  fst (perform example_hash 100 (fun _ cnf => cnf)
         {| select_query := {| where_ := Some where_x_positive_or_y_is_1;
                               other_expressions := [] |};
            metadata_snapshot := Some (metadata_of [] empty_graph);
            optimize_append_index := false |} [])
  = {| where_ := Some (makeASTFunction "and"
                         [makeASTFunction "or" [x_positive; y_is_1]]);
       other_expressions := [] |}.
Proof.
  apply (perform_without_knowledge example_hash 100 (fun _ cnf => cnf)
           {| select_query := {| where_ := Some where_x_positive_or_y_is_1;
                                 other_expressions := [] |};
              metadata_snapshot := Some (metadata_of [] empty_graph);
              optimize_append_index := false |} []
           where_x_positive_or_y_is_1 empty_graph); reflexivity.
Defined.

(* ===================================================================== *)
(** * Part VII: the optimizer run on its own result                       *)
(* ===================================================================== *)

(** ** What the converter reads back *)













(** ** [reduce] twice *)












(** ** Fewer atoms, no new match *)






(** ** A run that leaves the next one nothing to do *)
















(** ** Runs that leave the next one something to do *)







